(** * Set Decoder: the identification pipeline of [backend/main.py]

    A shallow embedding of the track-identification pipeline: the name
    normaliser, the similarity comparator (with the part of Python's
    [difflib.SequenceMatcher] it calls), the adapter around the
    fingerprinting provider and the scan loop of [process_set], followed
    by the properties of the design document that concern them.

    Conventions.
    - Python text ([str]) is a list of characters, [str := list ascii]; a
      character stands for the code point of the same number, so the
      embedding covers text over the code points 0..255.  The character
      classes below are Python's on that range ([str.isspace], the regular
      expression classes [\w] and [\s], [str.lower]).
    - Python values that travel through dictionaries (the provider's JSON,
      the result of [identify_segment], the track entries) are [pyval]s;
      dictionaries keep their insertion order as association lists.
    - A Python exception is a value of [exn]; code that may raise returns
      [res A]. *)

From Stdlib Require Import List String Ascii ZArith NArith Lia Bool QArith.
From Stdlib Require Import DecimalString.
From Stdlib Require DecimalPos DecimalZ.
Import ListNotations.

Set Warnings "-register-all".

Close Scope Q_scope.
Local Open Scope nat_scope.
Local Open Scope bool_scope.
Local Open Scope list_scope.

(** ** Python text *)

Definition str := list ascii.

(** A string literal of the source. *)
Definition lit (s : string) : str := list_ascii_of_string s.

Module PyStr.

Definition code (c : ascii) : N := N_of_ascii c.

Definition in_range (lo hi : N) (c : ascii) : bool :=
  ((lo <=? code c) && (code c <=? hi))%N.

(** [str.isspace] on one character; the class [\s] is the same set. *)
Definition isspace (c : ascii) : bool :=
  in_range 9 13 c || in_range 28 32 c
  || (code c =? 133)%N || (code c =? 160)%N.

(** The class [\w] of [re] on text: alphanumeric characters and [_]. *)
Definition isword (c : ascii) : bool :=
  in_range 48 57 c || in_range 65 90 c || (code c =? 95)%N
  || in_range 97 122 c
  || (code c =? 170)%N || in_range 178 179 c || (code c =? 181)%N
  || in_range 185 186 c || in_range 188 190 c
  || in_range 192 214 c || in_range 216 246 c || in_range 248 255 c.

Definition lower_char (c : ascii) : ascii :=
  if in_range 65 90 c || in_range 192 214 c || in_range 216 222 c
  then ascii_of_N (code c + 32)
  else c.

(** [s.lower()] *)
Definition lower (s : str) : str := map lower_char s.

Fixpoint lstrip (s : str) : str :=
  match s with
  | c :: r => if isspace c then lstrip r else s
  | [] => []
  end.

Fixpoint rstrip (s : str) : str :=
  match s with
  | [] => []
  | c :: r =>
      match rstrip r with
      | [] => if isspace c then [] else [c]
      | x :: r' => c :: x :: r'
      end
  end.

(** [s.strip()] *)
Definition strip (s : str) : str := rstrip (lstrip s).

(** [s.split()]: the maximal runs of non-whitespace characters. *)
Fixpoint split (s : str) : list str :=
  match s with
  | [] => []
  | c :: r =>
      if isspace c then split r
      else match r with
           | [] => [[c]]
           | c' :: _ =>
               if isspace c' then [c] :: split r
               else match split r with
                    | t :: ts => (c :: t) :: ts
                    | [] => [[c]]
                    end
           end
  end.

(** [sep.join(l)] *)
Fixpoint join (sep : str) (l : list str) : str :=
  match l with
  | [] => []
  | x :: r =>
      match r with
      | [] => x
      | _ :: _ => x ++ sep ++ join sep r
      end
  end.

(** [s == t] *)
Fixpoint eqb (s t : str) : bool :=
  match s, t with
  | [], [] => true
  | x :: s', y :: t' => Ascii.eqb x y && eqb s' t'
  | _, _ => false
  end.

(** [s.startswith(p)] *)
Fixpoint startswith (p s : str) : bool :=
  match p, s with
  | [], _ => true
  | x :: p', y :: s' => Ascii.eqb x y && startswith p' s'
  | _ :: _, [] => false
  end.

(** [p in s] *)
Fixpoint contains (p s : str) : bool :=
  startswith p s
  || match s with
     | [] => false
     | _ :: r => contains p r
     end.

(** [s.split(sep)] for a non-empty [sep]: the occurrences of [sep] are
    taken from the left and do not overlap.  [skip] counts the characters
    of an occurrence that are still to be dropped. *)
Fixpoint split_on (sep : str) (skip : nat) (s : str) : list str :=
  match s with
  | [] => [[]]
  | c :: r =>
      match skip with
      | S k => split_on sep k r
      | O =>
          if startswith sep s then [] :: split_on sep (List.length sep - 1) r
          else match split_on sep 0 r with
               | p :: ps => (c :: p) :: ps
               | [] => [[c]]
               end
      end
  end.

(** [s.split(sep)[-1]] *)
Definition split_last (sep s : str) : str := last (split_on sep 0 s) [].

End PyStr.

(** ** The regular expressions of the normaliser *)

Module Re.

Import PyStr.

(** [re.sub(r"\([^)]*\)", "", s)] with [op = "("] and [cl = ")"], and
    [re.sub(r"\[[^\]]*\]", "", s)] with the brackets.  An opening
    character starts a match exactly when a closing one follows somewhere;
    the match then runs up to the first closing character.  [inside] tells
    that the scan is within a match. *)
Fixpoint sub_enclosed (op cl : ascii) (inside : bool) (s : str) : str :=
  match s with
  | [] => []
  | c :: r =>
      if inside then
        if Ascii.eqb c cl then sub_enclosed op cl false r
        else sub_enclosed op cl true r
      else if Ascii.eqb c op && existsb (Ascii.eqb cl) r
           then sub_enclosed op cl true r
           else c :: sub_enclosed op cl false r
  end.

Definition is_w (o : option ascii) : bool :=
  match o with
  | Some c => isword c
  | None => false
  end.

(** [\b] between the characters [before] and [after] (absent at the ends
    of the text). *)
Definition word_boundary (before after : option ascii) : bool :=
  xorb (is_w before) (is_w after).

(** Does [\bw\b] match at the head of [s], the character before being
    [prev]? *)
Definition match_word (w : str) (prev : option ascii) (s : str) : bool :=
  startswith w s
  && word_boundary prev (hd_error s)
  && word_boundary (hd_error (rev w)) (hd_error (skipn (List.length w) s)).

(** [re.sub(rf"\b{w}\b", "", s)] for a non-empty word [w]: leftmost
    matches, not overlapping.  [prev] is the character before the head of
    [s] in the whole text, [skip] the number of characters of the current
    match still to be dropped. *)
Fixpoint sub_word (w : str) (prev : option ascii) (skip : nat) (s : str)
  : str :=
  match s with
  | [] => []
  | c :: r =>
      match skip with
      | S k => sub_word w (Some c) k r
      | O =>
          if match_word w prev s
          then sub_word w (Some c) (List.length w - 1) r
          else c :: sub_word w (Some c) 0 r
      end
  end.

(** [re.search(rf"\b{w}\b", s)] finds something. *)
Fixpoint search_word (w : str) (prev : option ascii) (s : str) : bool :=
  match s with
  | [] => false
  | c :: r => match_word w prev s || search_word w (Some c) r
  end.

(** [re.sub(r"[^\w\s]", "", s)] *)
Definition sub_nonword (s : str) : str :=
  filter (fun c => isword c || isspace c) s.

End Re.

(** ** [normalize_track_name], on text *)

Definition remove_words : list str :=
  map lit
    [ "remix"; "edit"; "bootleg"; "mix"; "version"; "extended"; "original";
      "radio"; "club"; "dub"; "instrumental"; "vip"; "flip"; "rework";
      "remaster"; "remastered"; "feat"; "ft"; "featuring"; "prod";
      "produced" ]%string.

(** One turn of the loop over [remove_words]; the state is
    [(title, artist)]. *)
Definition remove_word (ta : str * str) (word : str) : str * str :=
  (Re.sub_word word None 0 (fst ta), Re.sub_word word None 0 (snd ta)).

(** The body of [normalize_track_name] once both arguments are known to
    be non-empty text. *)
Definition normalize_text (artist title : str) : str :=
  let artist := PyStr.strip (PyStr.lower artist) in
  let title := PyStr.strip (PyStr.lower title) in
  let title := Re.sub_enclosed "("%char ")"%char false title in
  let title := Re.sub_enclosed "["%char "]"%char false title in
  let ta := fold_left remove_word remove_words (title, artist) in
  let title := Re.sub_nonword (fst ta) in
  let artist := Re.sub_nonword (snd ta) in
  let title := PyStr.join (lit " ") (PyStr.split title) in
  let artist := PyStr.join (lit " ") (PyStr.split artist) in
  artist ++ lit " - " ++ title.

(** ** [difflib.SequenceMatcher(None, a, b)], as far as [ratio()] needs it

    The class belongs to Python's standard library; the definitions follow
    [Lib/difflib.py] of CPython ([__chain_b], [find_longest_match],
    [get_matching_blocks], [ratio]).  With [isjunk = None]
    the junk set [bjunk] is empty, so the two loops of
    [find_longest_match] that extend a block over junk never run and are
    left out; [autojunk] keeps its default [True]. *)

Module Difflib.

(** The indices of [x] in [b] from position [j] on, in increasing order. *)
Fixpoint indices (x : ascii) (j : nat) (b : str) : list nat :=
  match b with
  | [] => []
  | y :: r =>
      if Ascii.eqb y x then j :: indices x (S j) r else indices x (S j) r
  end.

(** [__chain_b]: an element is popular when [b] has at least 200 elements
    and more than [len(b) // 100 + 1] of them are this one; popular
    elements lose their entry in [b2j]. *)
Definition popular (b : str) (x : ascii) : bool :=
  (200 <=? List.length b)
  && (List.length b / 100 + 1 <? List.length (indices x 0 b)).

(** [b2j.get(x, nothing)] *)
Definition b2j (b : str) (x : ascii) : list nat :=
  if popular b x then [] else indices x 0 b.

(** [j2len.get(j - 1, 0)], [j2len] being a dictionary from indices of [b]
    to lengths; the key [-1] is in no dictionary. *)
Definition j2len_get_pred (j2len : list (nat * nat)) (j : nat) : nat :=
  match j with
  | O => 0
  | S j' =>
      match find (fun e => Nat.eqb (fst e) j') j2len with
      | Some e => snd e
      | None => 0
      end
  end.

(** The best block so far: [(besti, bestj, bestsize)]. *)
Definition block := (nat * nat * nat)%type.

Definition block_size (x : block) : nat := snd x.

(** The inner loop of [find_longest_match] over the indices [js] of the
    element [a[i]] in [b]. *)
Fixpoint match_row (blo bhi i : nat) (j2len : list (nat * nat))
    (js : list nat) (best : block) (newj2len : list (nat * nat))
  : block * list (nat * nat) :=
  match js with
  | [] => (best, newj2len)
  | j :: js' =>
      if j <? blo then match_row blo bhi i j2len js' best newj2len
      else if bhi <=? j then (best, newj2len)
      else
        let k := j2len_get_pred j2len j + 1 in
        let best' :=
          if block_size best <? k then (i + 1 - k, j + 1 - k, k) else best in
        match_row blo bhi i j2len js' best' ((j, k) :: newj2len)
  end.

(** The outer loop, over the elements [a[i]], [a[i+1]], ... of
    [a[alo:ahi]] given as the list [ais]. *)
Fixpoint match_rows (b : str) (blo bhi : nat) (ais : str) (i : nat)
    (j2len : list (nat * nat)) (best : block) : block :=
  match ais with
  | [] => best
  | x :: ais' =>
      let '(best', newj2len) :=
        match_row blo bhi i j2len (b2j b x) best [] in
      match_rows b blo bhi ais' (S i) newj2len best'
  end.

Definition elt_eqb (x y : option ascii) : bool :=
  match x, y with
  | Some c, Some d => Ascii.eqb c d
  | _, _ => false
  end.

(** The first [while] loop: extend the block to the left.  [d] is
    [besti - alo], which the loop decreases at every turn. *)
Fixpoint extend_left (a b : str) (alo blo : nat) (d bestj bestsize : nat)
  : block :=
  match d with
  | O => (alo, bestj, bestsize)
  | S d' =>
      if (blo <? bestj)
         && elt_eqb (nth_error a (alo + d')) (nth_error b (bestj - 1))
      then extend_left a b alo blo d' (bestj - 1) (bestsize + 1)
      else (alo + d, bestj, bestsize)
  end.

(** The second [while] loop: extend the block to the right.  [d] is
    [ahi - (besti + bestsize)]. *)
Fixpoint extend_right (a b : str) (bhi : nat) (d besti bestj bestsize : nat)
  : block :=
  match d with
  | O => (besti, bestj, bestsize)
  | S d' =>
      if (bestj + bestsize <? bhi)
         && elt_eqb (nth_error a (besti + bestsize))
                    (nth_error b (bestj + bestsize))
      then extend_right a b bhi d' besti bestj (bestsize + 1)
      else (besti, bestj, bestsize)
  end.

Definition find_longest_match (a b : str) (alo ahi blo bhi : nat) : block :=
  let ais := firstn (ahi - alo) (skipn alo a) in
  let '(besti, bestj, bestsize) :=
    match_rows b blo bhi ais alo [] (alo, blo, 0) in
  let '(besti, bestj, bestsize) :=
    extend_left a b alo blo (besti - alo) bestj bestsize in
  extend_right a b bhi (ahi - (besti + bestsize)) besti bestj bestsize.

(** The blocks [get_matching_blocks] collects before it sorts and merges
    them, for the region [a[alo:ahi]], [b[blo:bhi]] and everything the
    loop queues below it.  A region is queued only when it is non-empty
    and is strictly shorter in [a] than the one it comes from, so
    [fuel = ahi - alo] turns of nesting are enough. *)
Fixpoint blocks_in (fuel : nat) (a b : str) (alo ahi blo bhi : nat)
  : list block :=
  let '(i, j, k) := find_longest_match a b alo ahi blo bhi in
  match k with
  | O => []
  | S _ =>
      match fuel with
      | O => [(i, j, k)]
      | S fuel' =>
          (i, j, k)
          :: (if (alo <? i) && (blo <? j)
              then blocks_in fuel' a b alo i blo j else [])
          ++ (if (i + k <? ahi) && (j + k <? bhi)
              then blocks_in fuel' a b (i + k) ahi (j + k) bhi else [])
      end
  end.

(** [sum(triple[-1] for triple in self.get_matching_blocks())] *)
Definition matches (a b : str) : nat :=
  list_sum (map block_size
              (blocks_in (List.length a) a b 0 (List.length a)
                         0 (List.length b))).

(** [ratio()]: [2.0 * matches / length], or [1.0] when both are empty.
    The quotient is kept exact; the source compares it with the constants
    0.8 and 0.85 in double precision, which gives the same answer as the
    exact comparison as long as the total length stays below 2^45. *)
Definition ratio (a b : str) : Q :=
  let length := (List.length a + List.length b)%nat in
  match length with
  | O => 1%Q
  | S _ => Qmake (2 * Z.of_nat (matches a b)) (Pos.of_nat length)
  end.

End Difflib.

(** [x > y] on ratios. *)
Definition Qgtb (x y : Q) : bool := negb (Qle_bool x y).

(** ** [tracks_are_similar], on already normalised keys *)

Definition title_of_key (norm : str) : str :=
  if PyStr.contains (lit " - ") norm
  then PyStr.split_last (lit " - ") norm
  else norm.

(** Lines 142-162 of the source. *)
Definition similar_keys (norm1 norm2 : str) : bool :=
  match norm1, norm2 with
  | [], _ | _, [] => false
  | _, _ =>
      if PyStr.eqb norm1 norm2 then true
      else if Qgtb (Difflib.ratio norm1 norm2) (8 # 10)%Q then true
      else
        let title1 := title_of_key norm1 in
        let title2 := title_of_key norm2 in
        if Qgtb (Difflib.ratio title1 title2) (85 # 100)%Q then true
        else false
  end.

(** ** Python values, dictionaries and exceptions *)

(** A [float] is kept as its [repr] text (["1.5"], ["inf"], ...): the code
    at hand only tests floats for truth and prints them. *)
Inductive pyval : Type :=
| PNone
| PBool (b : bool)
| PInt (z : Z)
| PFloat (repr : str)
| PStr (s : str)
| PList (l : list pyval)
| PDict (d : list (string * pyval)).

Definition dict := list (string * pyval).

(** [bool(v)] *)
Definition truthy (v : pyval) : bool :=
  match v with
  | PNone => false
  | PBool b => b
  | PInt z => negb (z =? 0)%Z
  | PFloat r => negb (PyStr.eqb r (lit "0.0") || PyStr.eqb r (lit "-0.0"))
  | PStr s => match s with [] => false | _ :: _ => true end
  | PList l => match l with [] => false | _ :: _ => true end
  | PDict d => match d with [] => false | _ :: _ => true end
  end.

(** [type(v).__name__] *)
Definition type_name (v : pyval) : string :=
  match v with
  | PNone => "NoneType"
  | PBool _ => "bool"
  | PInt _ => "int"
  | PFloat _ => "float"
  | PStr _ => "str"
  | PList _ => "list"
  | PDict _ => "dict"
  end.

(** [v == "..."] for a text constant. *)
Definition eq_text (v : pyval) (s : string) : bool :=
  match v with
  | PStr t => PyStr.eqb t (lit s)
  | _ => false
  end.

(** [d.get(k)] on a dictionary. *)
Fixpoint lookup (d : dict) (k : string) : option pyval :=
  match d with
  | [] => None
  | (k', v) :: r => if String.eqb k' k then Some v else lookup r k
  end.

(** [d.get(k, default)] *)
Definition dict_get (d : dict) (k : string) (default : pyval) : pyval :=
  match lookup d k with
  | Some v => v
  | None => default
  end.

(** [str(z)] for an integer. *)
Definition str_of_int (z : Z) : str :=
  lit (NilZero.string_of_int (Z.to_int z)).

Module Repr.

Definition hex_digit (n : N) : ascii :=
  if (n <? 10)%N then ascii_of_N (48 + n) else ascii_of_N (87 + n).

Definition printable (c : ascii) : bool :=
  PyStr.in_range 32 126 c
  || (PyStr.in_range 161 255 c && negb (PyStr.code c =? 173)%N).

(** One character inside [repr] of a text quoted with [quote]. *)
Definition escape (quote c : ascii) : str :=
  if Ascii.eqb c quote || Ascii.eqb c "\"%char then ["\"%char; c]
  else if (PyStr.code c =? 9)%N then lit "\t"
  else if (PyStr.code c =? 10)%N then lit "\n"
  else if (PyStr.code c =? 13)%N then lit "\r"
  else if printable c then [c]
  else [ "\"%char; "x"%char; hex_digit (PyStr.code c / 16);
         hex_digit (PyStr.code c mod 16) ].

Definition apostrophe : ascii := ascii_of_N 39.
Definition double_quote : ascii := ascii_of_N 34.

(** [repr(s)] for a text. *)
Definition text (s : str) : str :=
  let quote :=
    if existsb (Ascii.eqb apostrophe) s
       && negb (existsb (Ascii.eqb double_quote) s)
    then double_quote else apostrophe in
  quote :: flat_map (escape quote) s ++ [quote].

(** [repr(v)] *)
Fixpoint value (v : pyval) : str :=
  match v with
  | PNone => lit "None"
  | PBool true => lit "True"
  | PBool false => lit "False"
  | PInt z => str_of_int z
  | PFloat r => r
  | PStr s => text s
  | PList l => lit "[" ++ PyStr.join (lit ", ") (map value l) ++ lit "]"
  | PDict d =>
      lit "{"
      ++ PyStr.join (lit ", ")
           (map (fun kv => let '(k, x) := kv in
                           text (lit k) ++ lit ": " ++ value x) d)
      ++ lit "}"
  end.

End Repr.

(** [str(v)], which is also what an f-string puts for [{v}]. *)
Definition py_str (v : pyval) : str :=
  match v with
  | PStr s => s
  | _ => Repr.value v
  end.

Inductive exn : Type :=
| AttributeError (type attr : string)
| ZeroDivisionError
| Exception (message : str).

(** [str(e)] *)
Definition exn_str (e : exn) : str :=
  match e with
  | AttributeError type attr =>
      lit "'" ++ lit type ++ lit "' object has no attribute '"
      ++ lit attr ++ lit "'"
  | ZeroDivisionError => lit "integer division or modulo by zero"
  | Exception message => message
  end.

Inductive res (A : Type) : Type :=
| Ok (a : A)
| Err (e : exn).

Arguments Ok {A} a.
Arguments Err {A} e.

Definition bind {A B : Type} (c : res A) (k : A -> res B) : res B :=
  match c with
  | Ok a => k a
  | Err e => Err e
  end.

Notation "x <- c ;; k" := (bind c (fun x => k))
  (at level 61, c at next level, right associativity).

(** [v.get(k, default)] on any value: only a dictionary has [get]. *)
Definition py_get (v : pyval) (k : string) (default : pyval) : res pyval :=
  match v with
  | PDict d => Ok (dict_get d k default)
  | _ => Err (AttributeError (type_name v) "get")
  end.

(** The text behind [v.lower()]: only a text has [lower]. *)
Definition py_text (v : pyval) : res str :=
  match v with
  | PStr s => Ok s
  | _ => Err (AttributeError (type_name v) "lower")
  end.

(** ** [normalize_track_name] and [tracks_are_similar] *)

Definition normalize_track_name (artist title : pyval) : res str :=
  if negb (truthy artist) || negb (truthy title) then Ok []
  else
    artist <- py_text artist ;;
    title <- py_text title ;;
    Ok (normalize_text artist title).

Definition tracks_are_similar
    (track1_artist track1_title track2_artist track2_title : pyval)
  : res bool :=
  norm1 <- normalize_track_name track1_artist track1_title ;;
  norm2 <- normalize_track_name track2_artist track2_title ;;
  Ok (similar_keys norm1 norm2).

(** ** [format_timestamp] *)

(** The format [:02d]. *)
Definition fmt_02d (z : Z) : str :=
  let s := str_of_int z in
  if List.length s <? 2 then lit "0" ++ s else s.

Definition format_timestamp (seconds : Z) : str :=
  let hours := (seconds / 3600)%Z in
  let minutes := ((seconds mod 3600) / 60)%Z in
  let secs := (seconds mod 60)%Z in
  if (0 <? hours)%Z
  then fmt_02d hours ++ lit ":" ++ fmt_02d minutes ++ lit ":" ++ fmt_02d secs
  else fmt_02d minutes ++ lit ":" ++ fmt_02d secs.

(** ** [identify_segment] *)

(** What [requests.post] returned: the status code, which the source never
    reads, and what [response.json()] gives, the parsed body or the
    exception of a body that is not JSON. *)
Record response : Type := {
  status_code : Z;
  json : res pyval
}.

(** What one call of [identify_segment] meets: [open] or [requests.post]
    raises (no file, no connection, timeout), or a response arrives. *)
Inductive outcome : Type :=
| Raised (e : exn)
| Responded (r : response).

(** The [try] block. *)
Definition identify_segment_try (o : outcome) : res dict :=
  match o with
  | Raised e => Err e
  | Responded r =>
      result <- json r ;;
      status <- py_get result "status" PNone ;;
      if eq_text status "error" then
        error <- py_get result "error" PNone ;;
        Ok [("found", PBool false); ("error", error)]%string
      else
        found <- (if eq_text status "success"
                  then py_get result "result" PNone
                  else Ok (PBool false)) ;;
        if truthy found then
          track <- py_get result "result" PNone ;;
          title <- py_get track "title" PNone ;;
          artist <- py_get track "artist" PNone ;;
          album <- py_get track "album" PNone ;;
          spotify <- py_get track "spotify" PNone ;;
          spotify_url <-
            (if truthy spotify then
               spotify <- py_get track "spotify" (PDict []) ;;
               external_urls <- py_get spotify "external_urls" (PDict []) ;;
               py_get external_urls "spotify" PNone
             else Ok PNone) ;;
          apple_music <- py_get track "apple_music" PNone ;;
          apple_music_url <-
            (if truthy apple_music then
               apple_music <- py_get track "apple_music" (PDict []) ;;
               py_get apple_music "url" PNone
             else Ok PNone) ;;
          deezer <- py_get track "deezer" (PDict []) ;;
          id <- py_get deezer "id" PNone ;;
          let deezer_url :=
            if truthy id
            then PStr (lit "https://www.deezer.com/track/" ++ py_str id)
            else PNone in
          Ok [ ("found", PBool true);
               ("title", title);
               ("artist", artist);
               ("album", album);
               ("spotify_url", spotify_url);
               ("apple_music_url", apple_music_url);
               ("deezer_url", deezer_url) ]%string
        else Ok [("found", PBool false)]%string
  end.

(** [identify_segment]: the [try] block under [except Exception].  The
    [print] calls are taken to succeed and leave no trace here. *)
Definition identify_segment (o : outcome) : dict :=
  match identify_segment_try o with
  | Ok result => result
  | Err e => [("found", PBool false); ("error", PStr (exn_str e))]%string
  end.

(** ** The scan loop of [process_set] *)

(** The local variables of the loop. *)
Record loop_state : Type := {
  tracks : list dict;
  last_track : option dict;
  consecutive_not_found : Z
}.

Definition initial_state : loop_state :=
  {| tracks := []; last_track := None; consecutive_not_found := 0 |}.

(** [bool(last_track)]: [None] and the empty dictionary are false. *)
Definition some_track (last : option dict) : bool :=
  match last with
  | Some t => truthy (PDict t)
  | None => false
  end.

(** [last_track.get("status")] *)
Definition status_of (t : dict) : pyval := dict_get t "status" PNone.

(** The entry appended for a sample that starts a new track. *)
Definition identified_track (start_time : Z) (result : dict) : dict :=
  [ ("timestamp", PStr (format_timestamp start_time));
    ("timestamp_seconds", PInt start_time);
    ("title", dict_get result "title" (PStr []));
    ("artist", dict_get result "artist" (PStr []));
    ("album", dict_get result "album" PNone);
    ("spotify_url", dict_get result "spotify_url" PNone);
    ("apple_music_url", dict_get result "apple_music_url" PNone);
    ("deezer_url", dict_get result "deezer_url" PNone);
    ("status", PStr (lit "identified")) ]%string.

(** The entry appended for a gap noticed at [start_time]. *)
Definition not_found_track (segment_duration start_time : Z) : dict :=
  [ ("timestamp",
      PStr (format_timestamp (Z.max 0 (start_time - segment_duration))));
    ("timestamp_seconds", PInt (Z.max 0 (start_time - segment_duration)));
    ("title", PNone);
    ("artist", PNone);
    ("status", PStr (lit "not_found")) ]%string.

Definition append_track (st : loop_state) (new_track : dict) (count : Z)
  : loop_state :=
  {| tracks := tracks st ++ [new_track];
     last_track := Some new_track;
     consecutive_not_found := count |}.

(** Lines 293-339: what one iteration does with the [result] of
    [identify_segment] for the sample starting at [start_time]. *)
Definition scan_step (segment_duration : Z) (st : loop_state)
    (start_time : Z) (result : dict) : res loop_state :=
  if truthy (dict_get result "found" PNone) then
    let current_artist := dict_get result "artist" (PStr []) in
    let current_title := dict_get result "title" (PStr []) in
    is_similar <-
      (match last_track st with
       | Some last =>
           if some_track (last_track st)
              && eq_text (status_of last) "identified"
           then tracks_are_similar
                  (dict_get last "artist" (PStr []))
                  (dict_get last "title" (PStr []))
                  current_artist current_title
           else Ok false
       | None => Ok false
       end) ;;
    if negb is_similar
    then Ok (append_track st (identified_track start_time result) 0)
    else Ok st
  else
    let count := (consecutive_not_found st + 1)%Z in
    if (2 <=? count)%Z
       && (negb (some_track (last_track st))
           || match last_track st with
              | Some last => negb (eq_text (status_of last) "not_found")
              | None => true
              end)
    then Ok (append_track st (not_found_track segment_duration start_time)
               count)
    else Ok {| tracks := tracks st;
               last_track := last_track st;
               consecutive_not_found := count |}.

(** [range(0, stop, step)] for [step <> 0]. *)
Definition py_range (stop step : Z) : list Z :=
  let len :=
    if (0 <? step)%Z then ((stop + step - 1) / step)%Z
    else ((- stop - step - 1) / (- step))%Z in
  map (fun k => (Z.of_nat k * step)%Z) (seq 0 (Z.to_nat len)).

(** The loop over the samples starting at [starts], the first of them
    being the sample number [i]; [provider] tells what the provider call
    of each sample meets.  The result is the state of the local variables,
    the last position published, and the exception that ended the loop, if
    one did.  Slicing the audio, exporting the sample and deleting the
    temporary file are taken to succeed. *)
Fixpoint scan (segment_duration : Z) (provider : nat -> outcome) (i : nat)
    (starts : list Z) (st : loop_state) (position : Z)
  : loop_state * Z * option exn :=
  match starts with
  | [] => (st, position, None)
  | start_time :: rest =>
      match scan_step segment_duration st start_time
              (identify_segment (provider i)) with
      | Ok st' => scan segment_duration provider (S i) rest st' start_time
      | Err e => (st, start_time, Some e)
      end
  end.

(** ** The job record and [process_set] *)

Module Job.

Record t : Type := {
  status : str;
  message : str;
  url : str;
  tracks : list dict;
  set_info : pyval;
  total_duration : Z;
  current_position : Z
}.

End Job.

(** The record [identify_set] stores before it starts [process_set]. *)
Definition queued_job (url : str) : Job.t :=
  {| Job.status := lit "queued";
     Job.message := lit "En cola...";
     Job.url := url;
     Job.tracks := [];
     Job.set_info := PNone;
     Job.total_duration := 0;
     Job.current_position := 0 |}.

(** The [except Exception] clause of [process_set]. *)
Definition failed (j : Job.t) (e : exn) : Job.t :=
  {| Job.status := lit "error";
     Job.message := lit "Error: " ++ exn_str e;
     Job.url := Job.url j;
     Job.tracks := Job.tracks j;
     Job.set_info := Job.set_info j;
     Job.total_duration := Job.total_duration j;
     Job.current_position := Job.current_position j |}.

(** Everything outside the program that one run of [process_set] meets
    once its temporary directory exists; [audio_file] is the path
    [audio.mp3] in that directory. *)
Record world : Type := {
  download_audio : res pyval;    (* the information on the set, or the failure *)
  audio_file : str;              (* the path of the downloaded file *)
  audio_file_exists : bool;      (* os.path.exists(audio_file) *)
  from_mp3 : res N;              (* len(audio), in milliseconds *)
  provider : nat -> outcome      (* the provider call of each sample *)
}.

(** The [try] statement of [process_set] (lines 241-351), which the call
    enters when [tempfile.mkdtemp()] in front of it has returned: the
    record of the job when the statement is left.  The progress
    messages written before and inside the loop are overwritten on both
    ways out; of them only the division [duration_seconds //
    segment_duration] is kept, which raises for a stride of 0.  The whole
    call, with [tempfile.mkdtemp()], is [process_set_call] below. *)
Definition process_set (w : world) (url : str) (segment_duration : Z)
  : Job.t :=
  let j := queued_job url in
  match download_audio w with
  | Err e => failed j e
  | Ok info =>
      if negb (audio_file_exists w)
      then failed j (Exception (lit "Audio file not found: " ++ audio_file w))
      else
        let j :=
          {| Job.status := lit "processing";
             Job.message := lit "Procesando audio...";
             Job.url := url;
             Job.tracks := [];
             Job.set_info := info;
             Job.total_duration := 0;
             Job.current_position := 0 |} in
        match from_mp3 w with
        | Err e => failed j e
        | Ok len_audio =>
            let duration_seconds := (Z.of_N len_audio / 1000)%Z in
            let j :=
              {| Job.status := Job.status j;
                 Job.message := Job.message j;
                 Job.url := url;
                 Job.tracks := [];
                 Job.set_info := info;
                 Job.total_duration := duration_seconds;
                 Job.current_position := 0 |} in
            if (segment_duration =? 0)%Z then failed j ZeroDivisionError
            else
              let '(st, position, raised) :=
                scan segment_duration (provider w) 0
                  (py_range duration_seconds segment_duration)
                  initial_state 0 in
              let j :=
                {| Job.status := Job.status j;
                   Job.message := Job.message j;
                   Job.url := url;
                   Job.tracks := tracks st;
                   Job.set_info := info;
                   Job.total_duration := duration_seconds;
                   Job.current_position := position |} in
              match raised with
              | Some e => failed j e
              | None =>
                  {| Job.status := lit "completed";
                     Job.message := lit "Completado!";
                     Job.url := url;
                     Job.tracks := tracks st;
                     Job.set_info := info;
                     Job.total_duration := duration_seconds;
                     Job.current_position := position |}
              end
        end
  end.

(** ** Notions used in the statements *)

(** [result["found"]] is true. *)
Definition found (result : dict) : bool :=
  truthy (dict_get result "found" PNone).

Definition is_identified (t : dict) : bool :=
  eq_text (status_of t) "identified".

Definition is_not_found (t : dict) : bool :=
  eq_text (status_of t) "not_found".

(** The field [timestamp_seconds] of a track entry. *)
Definition timestamp_seconds (t : dict) : option Z :=
  match lookup t "timestamp_seconds" with
  | Some (PInt z) => Some z
  | _ => None
  end.

(** A field is present when the entry has the key with a value other than
    [None]. *)
Definition present (t : dict) (k : string) : bool :=
  match lookup t k with
  | Some PNone | None => false
  | Some _ => true
  end.

(** The last element of a list. *)
Fixpoint last_opt {A : Type} (l : list A) : option A :=
  match l with
  | [] => None
  | x :: r =>
      match r with
      | [] => Some x
      | _ :: _ => last_opt r
      end
  end.

(** [R] holds between every element and the next. *)
Fixpoint chain {A : Type} (R : A -> A -> Prop) (l : list A) : Prop :=
  match l with
  | [] => True
  | a :: r =>
      match r with
      | [] => True
      | b :: _ => R a b /\ chain R r
      end
  end.

(** Two neighbours of a track list: the time stamps grow and the two are
    not both gaps. *)
Definition in_order (t1 t2 : dict) : Prop :=
  exists z1 z2 : Z,
    timestamp_seconds t1 = Some z1 /\ timestamp_seconds t2 = Some z2
    /\ (z1 < z2)%Z
    /\ is_not_found t1 && is_not_found t2 = false.

(** The fact about the last entry that the loop maintains, [next] being
    the start of the next sample: an identified entry lies at least
    [consecutive_not_found + 1] strides back, a gap lies in the past. *)
Definition last_bound (segment_duration : Z) (st : loop_state) (next : Z)
  : Prop :=
  match last_track st with
  | None => True
  | Some t =>
      exists z : Z,
        timestamp_seconds t = Some z /\ (0 <= z)%Z
        /\ ((is_identified t = true /\ is_not_found t = false
             /\ (z + (consecutive_not_found st + 1) * segment_duration
                 <= next)%Z)
            \/ (is_not_found t = true /\ (z < next)%Z))
  end.

(** The invariant of the scan loop before the sample starting at [next]. *)
Definition scan_inv (segment_duration : Z) (st : loop_state) (next : Z)
  : Prop :=
  last_track st = last_opt (tracks st)
  /\ chain in_order (tracks st)
  /\ (0 <= consecutive_not_found st)%Z
  /\ last_bound segment_duration st next.

(** A block of [find_longest_match] that starts at [alo] or later and ends
    at [hi] or before, in its first sequence. *)
Definition block_within (alo hi : nat) (x : Difflib.block) : Prop :=
  alo <= fst (fst x) /\ fst (fst x) + snd x <= hi.

(** The sample starts of a scan: [count] of them from the sample number
    [i] on. *)
Definition starts_from (segment_duration : Z) (i count : nat) : list Z :=
  map (fun k => (Z.of_nat k * segment_duration)%Z) (seq i count).

(** No word of [remove_words] stands in [s] as a whole word:
    [re.search(rf"\b{word}\b", s)] finds nothing for any of them. *)
Definition noise_free (s : str) : bool :=
  forallb (fun word => negb (Re.search_word word None s)) remove_words.

(** The loop over [remove_words], for one of the two texts. *)
Definition strip_noise (s : str) : str :=
  fold_left (fun s word => Re.sub_word word None 0 s) remove_words s.

(** The last two steps of the normaliser, for one of the two texts. *)
Definition squeeze (s : str) : str :=
  PyStr.join (lit " ") (PyStr.split (Re.sub_nonword s)).

(** What [normalize_text] makes of the artist and of the title. *)
Definition norm_artist (artist : str) : str :=
  squeeze (strip_noise (PyStr.strip (PyStr.lower artist))).

Definition norm_title (title : str) : str :=
  squeeze
    (strip_noise
       (Re.sub_enclosed "["%char "]"%char false
          (Re.sub_enclosed "("%char ")"%char false
             (PyStr.strip (PyStr.lower title))))).

(** A character that the normaliser leaves as it is: a lower-case word
    character. *)
Definition clean (c : ascii) : Prop :=
  PyStr.isword c = true /\ PyStr.lower_char c = c.

(** The form of a normalised artist or title: non-empty runs of clean
    characters with one blank between them. *)
Definition normal_form (s : str) : Prop :=
  exists toks : list str,
    s = PyStr.join (lit " ") toks
    /\ Forall (fun tok => tok <> [] /\ Forall clean tok) toks.

(** The ways a provider call fails, each with the value the source stores
    under ["error"]: [open] or [requests.post] raises; the body is not
    JSON, so [response.json()] raises; the body is a JSON object whose
    ["status"] is ["error"]. *)
Inductive provider_failure : outcome -> pyval -> Prop :=
| transport_failure (e : exn) :
    provider_failure (Raised e) (PStr (exn_str e))
| body_not_json (code : Z) (e : exn) :
    provider_failure (Responded {| status_code := code; json := Err e |})
      (PStr (exn_str e))
| error_reported (code : Z) (body : dict) :
    eq_text (dict_get body "status" PNone) "error" = true ->
    provider_failure
      (Responded {| status_code := code; json := Ok (PDict body) |})
      (dict_get body "error" PNone).

(** Every entry of a track list is one of the two the loop builds. *)
Definition loop_entry (segment_duration : Z) (t : dict) : Prop :=
  (exists start_time result, t = identified_track start_time result)
  \/ (exists start_time, t = not_found_track segment_duration start_time).

(** ** Sample inputs *)

(** A response with the status code 200 and a JSON body. *)
Definition http_ok (body : pyval) : outcome :=
  Responded {| status_code := 200; json := Ok body |}.

(** The body of a match, and the body the provider sends for no match. *)
Definition matched (track : dict) : pyval :=
  PDict [("status", PStr (lit "success")); ("result", PDict track)]%string.

Definition no_match : pyval :=
  PDict [("status", PStr (lit "success")); ("result", PNone)]%string.

Definition song (artist title : string) : dict :=
  [("artist", PStr (lit artist)); ("title", PStr (lit title))]%string.

(** A provider that answers the samples with the outcomes of [l], in
    order, and has no match after them. *)
Definition replay (l : list outcome) : nat -> outcome :=
  fun i => nth i l (http_ok no_match).

(** A provider with the same outcome for every sample. *)
Definition always (o : outcome) : nat -> outcome := fun _ => o.

(** The information [download_audio] returns on the sample set. *)
Definition sample_info : pyval :=
  PDict [("title", PStr (lit "Live set"));
         ("duration", PInt 3600);
         ("uploader", PStr (lit "someone"))]%string.

(** A set of [len_audio] milliseconds that downloads and decodes, its
    samples meeting what [p] tells. *)
Definition sample_world (len_audio : N) (p : nat -> outcome) : world :=
  {| download_audio := Ok sample_info;
     audio_file := lit "/tmp/tmpk3v9/audio.mp3";
     audio_file_exists := true;
     from_mp3 := Ok len_audio;
     provider := p |}.

(** * Further notions *)

(** The entries a poller can read once the first [k] samples of [starts]
    have been processed: [jobs[job_id]["tracks"]] at that point. *)
Definition published (segment_duration : Z) (provider : nat -> outcome)
    (starts : list Z) (k : nat) : list dict :=
  tracks (fst (fst (scan segment_duration provider 0 (firstn k starts)
                      initial_state 0))).

(** The entry [t] is what the loop appends for the sample number [i]: the
    identified entry of a hit, or the gap entry of a miss that is not the
    first sample. *)
Definition entry_of_sample (segment_duration : Z) (provider : nat -> outcome)
    (i : nat) (t : dict) : Prop :=
  (found (identify_segment (provider i)) = true
   /\ t = identified_track (Z.of_nat i * segment_duration)
            (identify_segment (provider i)))
  \/ (found (identify_segment (provider i)) = false
      /\ 1 <= i
      /\ t = not_found_track segment_duration
               (Z.of_nat i * segment_duration)).

(** A name as JSON gives it when it is a string or [null]. *)
Definition plain_name (v : pyval) : bool :=
  match v with
  | PStr _ | PNone => true
  | _ => false
  end.

(** What the loop has done when [n] samples are behind it: every entry
    comes from one of them, and the counter of misses is at most [n]. *)
Definition scanned (segment_duration : Z) (provider : nat -> outcome)
    (n : nat) (st : loop_state) : Prop :=
  Forall (fun t => exists i, i < n
                             /\ entry_of_sample segment_duration provider i t)
    (tracks st)
  /\ (consecutive_not_found st <= Z.of_nat n)%Z.

(** The names of the last entry are plain when it is an identified one. *)
Definition last_names_plain (st : loop_state) : Prop :=
  match last_track st with
  | Some last =>
      is_identified last = true ->
      plain_name (dict_get last "artist" (PStr [])) = true
      /\ plain_name (dict_get last "title" (PStr [])) = true
  | None => True
  end.


(** The links of a match, where the source reads them without raising:
    the field ["spotify"] is false (absent, [null], empty) or an object
    whose ["external_urls"] is absent or an object; the field
    ["apple_music"] is false or an object; the field ["deezer"] is absent
    or an object.  Each comes with the value stored for the link. *)
Inductive spotify_gives (track : dict) : pyval -> Prop :=
| spotify_false :
    truthy (dict_get track "spotify" PNone) = false ->
    spotify_gives track PNone
| spotify_object (spotify external_urls : dict) :
    dict_get track "spotify" PNone = PDict spotify ->
    spotify <> [] ->
    dict_get spotify "external_urls" (PDict []) = PDict external_urls ->
    spotify_gives track (dict_get external_urls "spotify" PNone).

Inductive apple_music_gives (track : dict) : pyval -> Prop :=
| apple_music_false :
    truthy (dict_get track "apple_music" PNone) = false ->
    apple_music_gives track PNone
| apple_music_object (apple_music : dict) :
    dict_get track "apple_music" PNone = PDict apple_music ->
    apple_music <> [] ->
    apple_music_gives track (dict_get apple_music "url" PNone).

Inductive deezer_gives (track : dict) : pyval -> Prop :=
| deezer_object (deezer : dict) :
    dict_get track "deezer" (PDict []) = PDict deezer ->
    deezer_gives track
      (if truthy (dict_get deezer "id" PNone)
       then PStr (lit "https://www.deezer.com/track/"
                  ++ py_str (dict_get deezer "id" PNone))
       else PNone).

(** Two neighbours of a track list that are both identified entries were
    told apart by the comparator. *)
Definition told_apart (t1 t2 : dict) : Prop :=
  is_identified t1 = true ->
  is_identified t2 = true ->
  tracks_are_similar (dict_get t1 "artist" (PStr []))
    (dict_get t1 "title" (PStr []))
    (dict_get t2 "artist" (PStr [])) (dict_get t2 "title" (PStr []))
  = Ok false.

(** Reading a timestamp back: the fields between the colons are read as
    decimal numbers, two fields as minutes and seconds, three as hours,
    minutes and seconds. *)
Definition read_int (s : str) : option Z :=
  option_map Z.of_int (NilZero.int_of_string (string_of_list_ascii s)).

Definition clock_seconds (s : str) : option Z :=
  match map read_int (PyStr.split_on (lit ":") 0 s) with
  | [Some m; Some sec] => Some (m * 60 + sec)%Z
  | [Some h; Some m; Some sec] => Some (h * 3600 + m * 60 + sec)%Z
  | _ => None
  end.

(** A text of whitespace only. *)
Definition blank (W : str) : Prop :=
  Forall (fun c => PyStr.isspace c = true) W.

(** A word without whitespace, as those of [remove_words] are. *)
Definition solid (w : str) : bool :=
  negb (List.length w =? 0)
  && forallb (fun c => negb (PyStr.isspace c)) w.

(** ** The endpoints and the store of jobs *)

(** The dictionary [jobs]: job identifiers to job records. *)
Definition jobs_t : Type := list (str * Job.t).

(** [jobs[job_id]] when [job_id in jobs] *)
Fixpoint jobs_get (jobs : jobs_t) (job_id : str) : option Job.t :=
  match jobs with
  | [] => None
  | (k, j) :: rest =>
      if PyStr.eqb k job_id then Some j else jobs_get rest job_id
  end.

(** [jobs[job_id] = j] *)
Fixpoint jobs_set (jobs : jobs_t) (job_id : str) (j : Job.t) : jobs_t :=
  match jobs with
  | [] => [(job_id, j)]
  | (k, j') :: rest =>
      if PyStr.eqb k job_id then (k, j) :: rest
      else (k, j') :: jobs_set rest job_id j
  end.

Module SetRequest.

Record t : Type := {
  url : str;
  segment_duration : option Z
}.

End SetRequest.

(** The call handed to [background_tasks.add_task]:
    [process_set(job_id, clean_url, request.segment_duration or 30)]. *)
Record task : Type := {
  task_job_id : str;
  task_url : str;
  task_segment_duration : Z
}.

(** What an endpoint gives: the value it returns, or the [HTTPException]
    it raises. *)
Inductive answer (A : Type) : Type :=
| Returned (body : A)
| HTTPException (status_code : Z) (detail : str).

Arguments Returned {A} body.
Arguments HTTPException {A} status_code detail.

(** [request.segment_duration or 30] *)
Definition stride_or_30 (segment_duration : option Z) : Z :=
  match segment_duration with
  | Some z => if (z =? 0)%Z then 30%Z else z
  | None => 30%Z
  end.

Section Endpoints.

(** [clean_youtube_url] rests on [urllib.parse]; it is taken as it is, a
    function from the address to the cleaned address that may raise. *)
Variable clean_youtube_url : str -> res str.

(** [identify_set], with the identifier that [uuid.uuid4()] draws: the
    store afterwards, the background task and the ["job_id"] of the
    response. *)
Definition identify_set (jobs : jobs_t) (request : SetRequest.t)
    (job_id : str) : res (jobs_t * task * str) :=
  clean_url <- clean_youtube_url (SetRequest.url request) ;;
  Ok (jobs_set jobs job_id (queued_job clean_url),
      {| task_job_id := job_id;
         task_url := clean_url;
         task_segment_duration :=
           stride_or_30 (SetRequest.segment_duration request) |},
      job_id).

End Endpoints.

(** The store when the background task of a queued job has returned:
    [process_set] has written its record. *)
Definition finished (w : world) (jobs : jobs_t) (t : task) : jobs_t :=
  jobs_set jobs (task_job_id t)
    (process_set w (task_url t) (task_segment_duration t)).

Definition get_status (jobs : jobs_t) (job_id : str) : answer Job.t :=
  match jobs_get jobs job_id with
  | None => HTTPException 404 (lit "Job not found")
  | Some j => Returned j
  end.

(** ** The whole call of [process_set] *)


(** * Properties *)

(** ** The scenarios of the design document, run on the embedding *)

Example format_timestamp_examples :
  format_timestamp 65 = lit "01:05"
  /\ format_timestamp 3725 = lit "01:02:05"
  /\ format_timestamp 0 = lit "00:00".
Proof. repeat split. Qed.

(** Stride 30, the samples at 0, 30 and 60 give one track and those at 90
    and 120 another: two entries, at 0 and at 90. *)
Example scenario_two_tracks :
  Job.tracks
    (process_set
       (sample_world 150000
          (replay
             [http_ok (matched (song "Orbital" "Halcyon"));
              http_ok (matched (song "Orbital" "Halcyon (Live)"));
              http_ok (matched (song "Orbital" "Halcyon"));
              http_ok (matched (song "Underworld" "Born Slippy"));
              http_ok (matched (song "Underworld" "Born Slippy"))]))
       (lit "u") 30)
  = [identified_track 0
       (identify_segment (http_ok (matched (song "Orbital" "Halcyon"))));
     identified_track 90
       (identify_segment
          (http_ok (matched (song "Underworld" "Born Slippy"))))].
Proof. vm_compute. reflexivity. Qed.

(** The source cannot be reached: the job ends in error with no entry and
    with the cause as its message. *)
Example scenario_unreachable_source :
  process_set
    {| download_audio := Err (Exception (lit "ERROR: Unable to download"));
       audio_file := lit "/tmp/tmpk3v9/audio.mp3";
       audio_file_exists := false;
       from_mp3 := Err (Exception (lit "no file"));
       provider := always (http_ok no_match) |}
    (lit "https://example.invalid/set") 30
  = {| Job.status := lit "error";
       Job.message := lit "Error: ERROR: Unable to download";
       Job.url := lit "https://example.invalid/set";
       Job.tracks := [];
       Job.set_info := PNone;
       Job.total_duration := 0;
       Job.current_position := 0 |}.
Proof. reflexivity. Qed.

(** A provider value that is no text where a name is expected ends the
    job: the comparator calls [lower] on it. *)
Example scenario_name_not_text :
  Job.status
    (process_set
       (sample_world 60000
          (always
             (http_ok
                (matched [("artist", PInt 7);
                          ("title", PStr (lit "Seven"))]%string))))
       (lit "u") 30)
  = lit "error"
  /\ Job.message
       (process_set
          (sample_world 60000
             (always
                (http_ok
                   (matched [("artist", PInt 7);
                             ("title", PStr (lit "Seven"))]%string))))
          (lit "u") 30)
     = lit "Error: 'int' object has no attribute 'lower'".
Proof. split; vm_compute; reflexivity. Qed.

(** ** Text and status *)

Lemma eqb_eq (s t : str) : PyStr.eqb s t = true <-> s = t.
Proof.
  revert t. induction s as [|x s IH]; destruct t as [|y t]; simpl;
    try (split; [discriminate|discriminate]); [tauto|].
  rewrite andb_true_iff, Ascii.eqb_eq, IH.
  split; [intros [-> ->]; reflexivity | intros H; inversion H; auto].
Qed.

Lemma eqb_refl (s : str) : PyStr.eqb s s = true.
Proof. now apply eqb_eq. Qed.

Lemma eq_text_inv (v : pyval) (s : string) :
  eq_text v s = true -> v = PStr (lit s).
Proof.
  destruct v; simpl; try discriminate.
  intros H. apply eqb_eq in H. now subst.
Qed.

(** An entry has one status. *)
Lemma identified_not_gap (t : dict) :
  is_identified t = true -> is_not_found t = false.
Proof.
  unfold is_identified, is_not_found. intros H.
  apply eq_text_inv in H. rewrite H. reflexivity.
Qed.

(** ** Track entries *)

Lemma identified_track_status (start_time : Z) (result : dict) :
  is_identified (identified_track start_time result) = true
  /\ is_not_found (identified_track start_time result) = false.
Proof. split; reflexivity. Qed.

Lemma not_found_track_status (segment_duration start_time : Z) :
  is_not_found (not_found_track segment_duration start_time) = true
  /\ is_identified (not_found_track segment_duration start_time) = false.
Proof. split; reflexivity. Qed.

Lemma identified_track_timestamp (start_time : Z) (result : dict) :
  timestamp_seconds (identified_track start_time result) = Some start_time.
Proof. reflexivity. Qed.

Lemma not_found_track_timestamp (segment_duration start_time : Z) :
  timestamp_seconds (not_found_track segment_duration start_time)
  = Some (Z.max 0 (start_time - segment_duration)).
Proof. reflexivity. Qed.

(** ** One iteration of the loop *)

(** A miss: the counter goes up by one, and a gap entry is appended when
    the counter has reached 2 and the last entry is not a gap already. *)
Lemma scan_step_miss (segment_duration : Z) (st : loop_state)
    (start_time : Z) (result : dict) :
  found result = false ->
  scan_step segment_duration st start_time result
  = Ok (if (2 <=? consecutive_not_found st + 1)%Z
           && (negb (some_track (last_track st))
               || match last_track st with
                  | Some last => negb (is_not_found last)
                  | None => true
                  end)
        then append_track st (not_found_track segment_duration start_time)
               (consecutive_not_found st + 1)
        else {| tracks := tracks st;
                last_track := last_track st;
                consecutive_not_found := consecutive_not_found st + 1 |}).
Proof.
  unfold found, scan_step. intros ->.
  destruct (_ && _); reflexivity.
Qed.

(** A hit when the last entry is no identified track: a new entry. *)
Lemma scan_step_found_fresh (segment_duration : Z) (st : loop_state)
    (start_time : Z) (result : dict) :
  found result = true ->
  match last_track st with
  | Some last => is_identified last = false
  | None => True
  end ->
  scan_step segment_duration st start_time result
  = Ok (append_track st (identified_track start_time result) 0).
Proof.
  unfold found, scan_step, is_identified. intros -> Hlast.
  destruct (last_track st) as [last|]; [|reflexivity].
  rewrite Hlast, andb_false_r. reflexivity.
Qed.

(** A hit after an identified track: the comparator decides. *)
Lemma scan_step_found_after (segment_duration : Z) (st : loop_state)
    (start_time : Z) (result last : dict) :
  found result = true ->
  last_track st = Some last ->
  some_track (Some last) = true ->
  is_identified last = true ->
  scan_step segment_duration st start_time result
  = (is_similar <-
       tracks_are_similar (dict_get last "artist" (PStr []))
         (dict_get last "title" (PStr []))
         (dict_get result "artist" (PStr []))
         (dict_get result "title" (PStr [])) ;;
     if negb is_similar
     then Ok (append_track st (identified_track start_time result) 0)
     else Ok st).
Proof.
  unfold found, scan_step, is_identified. intros -> Hl Hs Hi.
  rewrite Hl, Hs, Hi. reflexivity.
Qed.

(** Whatever a hit does, it leaves the state alone or appends the entry of
    a new track and resets the counter. *)
Lemma scan_step_found_cases (segment_duration : Z) (st st' : loop_state)
    (start_time : Z) (result : dict) :
  found result = true ->
  scan_step segment_duration st start_time result = Ok st' ->
  st' = st \/ st' = append_track st (identified_track start_time result) 0.
Proof.
  unfold found, scan_step. intros ->.
  destruct (match last_track st with Some _ => _ | None => _ end)
    as [[|]|e]; simpl; intros H; inversion H; auto.
Qed.

(** A miss never raises. *)
Lemma scan_step_miss_ok (segment_duration : Z) (st : loop_state)
    (start_time : Z) (result : dict) :
  found result = false ->
  exists st', scan_step segment_duration st start_time result = Ok st'
              /\ consecutive_not_found st'
                 = (consecutive_not_found st + 1)%Z.
Proof.
  intros H. rewrite (scan_step_miss _ _ _ _ H).
  eexists; split; [reflexivity|].
  destruct (_ && _); reflexivity.
Qed.

(** ** The loop *)

Lemma scan_app (segment_duration : Z) (provider : nat -> outcome)
    (l1 l2 : list Z) :
  forall (i : nat) (st : loop_state) (position : Z),
    scan segment_duration provider i (l1 ++ l2) st position
    = match scan segment_duration provider i l1 st position with
      | (st', position', None) =>
          scan segment_duration provider (i + List.length l1) l2 st'
            position'
      | stopped => stopped
      end.
Proof.
  induction l1 as [|t l1 IH]; intros i st position; simpl.
  - now rewrite Nat.add_0_r.
  - destruct (scan_step _ _ _ _) as [st'|e]; [|reflexivity].
    rewrite IH. now rewrite Nat.add_succ_r.
Qed.

(** The five samples of a set of 121 to 150 seconds scanned with the
    stride 30. *)
Lemma py_range_30 (duration_seconds : Z) :
  (120 < duration_seconds <= 150)%Z ->
  py_range duration_seconds 30 = [0; 30; 60; 90; 120]%Z.
Proof.
  intros H. unfold py_range. simpl (0 <? 30)%Z. cbv iota.
  replace ((duration_seconds + 30 - 1) / 30)%Z with 5%Z; [reflexivity|].
  apply Z.div_unique with (r := (duration_seconds - 121)%Z); lia.
Qed.

(** The samples of a scan are the multiples of the stride. *)
Lemma py_range_starts (stop step : Z) :
  exists count, py_range stop step = starts_from step 0 count.
Proof. unfold py_range, starts_from. eexists. reflexivity. Qed.

Lemma starts_from_shape (segment_duration : Z) (count : nat) :
  match starts_from segment_duration 0 count with
  | _ :: _ :: _ => exists n, count = S (S n)
  | _ => count = 0 \/ count = 1
  end.
Proof.
  destruct count as [|[|n]]; simpl; auto. now exists n.
Qed.

(** When the second sample of a scan is a hit and the scan gets past it,
    the last entry is an identified track, every entry is one, and the
    counter of misses is 0, whatever the first sample was. *)
Lemma after_second_hit (segment_duration : Z) (provider : nat -> outcome)
    (t0 t1 : Z) (st2 : loop_state) (position : Z) :
  found (identify_segment (provider 1)) = true ->
  scan segment_duration provider 0 [t0; t1] initial_state 0
  = (st2, position, None) ->
  consecutive_not_found st2 = 0%Z
  /\ (exists last, last_track st2 = Some last /\ is_identified last = true
                   /\ last_opt (tracks st2) = Some last)
  /\ filter is_not_found (tracks st2) = [].
Proof.
  intros H1. simpl.
  destruct (found (identify_segment (provider 0))) eqn:H0.
  - rewrite (scan_step_found_fresh _ initial_state _ _ H0 I).
    destruct (scan_step _ _ t1 _) as [st'|e] eqn:E; [|discriminate].
    intros H; inversion H; subst; clear H.
    destruct (scan_step_found_cases _ _ _ _ _ H1 E) as [-> | ->].
    + split; [reflexivity|]. split; [|reflexivity].
      eexists; repeat split.
    + split; [reflexivity|]. split; [|reflexivity].
      eexists; repeat split.
  - rewrite (scan_step_miss _ _ _ _ H0). simpl.
    rewrite (scan_step_found_fresh _
               {| tracks := []; last_track := None;
                  consecutive_not_found := 1 |} _ _ H1 I).
    intros H; inversion H; subst; clear H.
    split; [reflexivity|]. split; [|reflexivity].
    eexists; repeat split.
Qed.

(** C1 (gap backdating).  Stride 30, a set of 121 to 150 seconds: the
    sample at 30 is a hit and the scan gets past it, so that a track was
    identified before 60 and the miss at 60 is the first of a row; the
    samples at 60, 90 and 120 are misses.  Then the entries do not change
    while the sample at 60 is processed, the sample at 90 appends one
    [not_found] entry, whose [timestamp_seconds] is 60, the sample at 120
    appends nothing, and the job completes with the entries of the first
    two samples followed by this single gap. *)
Theorem gap_backdating (w : world) (url : str) (info : pyval)
    (len_audio : N) (st2 : loop_state) :
  download_audio w = Ok info ->
  audio_file_exists w = true ->
  from_mp3 w = Ok len_audio ->
  (120 < Z.of_N len_audio / 1000 <= 150)%Z ->
  found (identify_segment (provider w 1)) = true ->
  found (identify_segment (provider w 2)) = false ->
  found (identify_segment (provider w 3)) = false ->
  found (identify_segment (provider w 4)) = false ->
  scan 30 (provider w) 0 [0; 30]%Z initial_state 0 = (st2, 30%Z, None) ->
  let gap := not_found_track 30 90 in
  (exists last, last_opt (tracks st2) = Some last
                /\ is_identified last = true)
  /\ (exists st3,
         scan 30 (provider w) 0 [0; 30; 60]%Z initial_state 0
         = (st3, 60%Z, None)
         /\ tracks st3 = tracks st2)
  /\ (exists st4,
         scan 30 (provider w) 0 [0; 30; 60; 90]%Z initial_state 0
         = (st4, 90%Z, None)
         /\ tracks st4 = tracks st2 ++ [gap])
  /\ (exists st5,
         scan 30 (provider w) 0 [0; 30; 60; 90; 120]%Z initial_state 0
         = (st5, 120%Z, None)
         /\ tracks st5 = tracks st2 ++ [gap])
  /\ is_not_found gap = true
  /\ timestamp_seconds gap = Some 60%Z
  /\ filter is_not_found (tracks st2 ++ [gap]) = [gap]
  /\ Job.status (process_set w url 30) = lit "completed"
  /\ Job.tracks (process_set w url 30) = tracks st2 ++ [gap].
Proof.
  intros Hd He Hm Hlen H1 H2 H3 H4 Hscan gap.
  destruct (after_second_hit _ _ _ _ _ _ H1 Hscan)
    as (Hc & (last & Hlast & Hid & Hlo) & Hnf).
  pose proof (identified_not_gap _ Hid) as Hnl.
  (* the three misses, one after the other *)
  pose (st3 := {| tracks := tracks st2; last_track := last_track st2;
                  consecutive_not_found := 1 |}).
  assert (S3 : scan_step 30 st2 60 (identify_segment (provider w 2))
               = Ok st3).
  { rewrite (scan_step_miss _ _ _ _ H2), Hc. reflexivity. }
  pose (st4 := append_track st3 gap 2).
  assert (S4 : scan_step 30 st3 90 (identify_segment (provider w 3))
               = Ok st4).
  { rewrite (scan_step_miss _ _ _ _ H3). simpl. rewrite Hlast, Hnl.
    simpl. rewrite orb_true_r. reflexivity. }
  pose (st5 := {| tracks := tracks st4; last_track := last_track st4;
                  consecutive_not_found := 3 |}).
  assert (S5 : scan_step 30 st4 120 (identify_segment (provider w 4))
               = Ok st5).
  { rewrite (scan_step_miss _ _ _ _ H4). reflexivity. }
  assert (P3 : scan 30 (provider w) 0 [0; 30; 60]%Z initial_state 0
               = (st3, 60%Z, None)).
  { change [0; 30; 60]%Z with ([0; 30] ++ [60])%Z.
    rewrite scan_app, Hscan. simpl. now rewrite S3. }
  assert (P4 : scan 30 (provider w) 0 [0; 30; 60; 90]%Z initial_state 0
               = (st4, 90%Z, None)).
  { change [0; 30; 60; 90]%Z with ([0; 30] ++ [60; 90])%Z.
    rewrite scan_app, Hscan. simpl. now rewrite S3, S4. }
  assert (P5 : scan 30 (provider w) 0 [0; 30; 60; 90; 120]%Z
                 initial_state 0
               = (st5, 120%Z, None)).
  { change [0; 30; 60; 90; 120]%Z with ([0; 30] ++ [60; 90; 120])%Z.
    rewrite scan_app, Hscan. simpl. now rewrite S3, S4, S5. }
  split; [now exists last|].
  split; [now exists st3|].
  split; [now exists st4|].
  split; [now exists st5|].
  split; [reflexivity|].
  split; [reflexivity|].
  split.
  { rewrite filter_app, Hnf. reflexivity. }
  unfold process_set. rewrite Hd, He, Hm. simpl negb. cbv iota.
  simpl (30 =? 0)%Z. cbv iota.
  rewrite (py_range_30 _ Hlen), P5. split; reflexivity.
Qed.

(** The scenario of C1 on a set of 150 seconds: a track at 0 and 30, then
    three misses. *)
Lemma gap_backdating_witness :
  Job.tracks
    (process_set
       (sample_world 150000
          (replay
             [http_ok (matched (song "Orbital" "Halcyon"));
              http_ok (matched (song "Orbital" "Halcyon"));
              http_ok no_match; http_ok no_match; http_ok no_match]))
       (lit "https://www.youtube.com/watch?v=abc") 30)
  = [identified_track 0
       (identify_segment (http_ok (matched (song "Orbital" "Halcyon"))))]
    ++ [not_found_track 30 90].
Proof.
  apply (gap_backdating
           (sample_world 150000
              (replay
                 [http_ok (matched (song "Orbital" "Halcyon"));
                  http_ok (matched (song "Orbital" "Halcyon"));
                  http_ok no_match; http_ok no_match; http_ok no_match]))
           (lit "https://www.youtube.com/watch?v=abc")
           sample_info 150000
           {| tracks :=
                [identified_track 0
                   (identify_segment
                      (http_ok (matched (song "Orbital" "Halcyon"))))];
              last_track :=
                Some (identified_track 0
                        (identify_segment
                           (http_ok (matched (song "Orbital" "Halcyon")))));
              consecutive_not_found := 0 |});
    try reflexivity.
  vm_compute. split; [reflexivity | discriminate].
Defined.

(** An identified entry is a non-empty dictionary. *)
Lemma identified_some_track (t : dict) :
  is_identified t = true -> some_track (Some t) = true.
Proof. destruct t; [discriminate | reflexivity]. Qed.

(** C10.  A hit that the comparator judges similar to the last identified
    entry leaves the whole state of the loop as it is, the counter of
    misses included; whatever a sample does, it keeps the counter and the
    entries, or appends a new identified entry and resets the counter, or
    is a miss and adds one to the counter.  So a miss, a similar hit and a
    second miss after an identified entry bring the counter from 0 to 2,
    and the second miss appends the gap entry although the two misses are
    not neighbours: an entry with the status [not_found], without title
    and artist, dated one stride before the second miss, which becomes the
    last entry. *)
Theorem similar_hit_keeps_counter (segment_duration : Z) (st : loop_state)
    (last miss1 hit miss2 : dict) (t1 t2 t3 : Z) :
  last_track st = Some last ->
  is_identified last = true ->
  consecutive_not_found st = 0%Z ->
  found miss1 = false ->
  found hit = true ->
  found miss2 = false ->
  tracks_are_similar (dict_get last "artist" (PStr []))
    (dict_get last "title" (PStr []))
    (dict_get hit "artist" (PStr [])) (dict_get hit "title" (PStr []))
  = Ok true ->
  (forall st0 t, last_track st0 = Some last ->
                 scan_step segment_duration st0 t hit = Ok st0)
  /\ (forall st0 st0' t result,
         scan_step segment_duration st0 t result = Ok st0' ->
         st0' = st0
         \/ st0' = append_track st0 (identified_track t result) 0
         \/ (found result = false
             /\ consecutive_not_found st0'
                = (consecutive_not_found st0 + 1)%Z))
  /\ exists st1 st3 gap,
       scan_step segment_duration st t1 miss1 = Ok st1
       /\ consecutive_not_found st1 = 1%Z
       /\ tracks st1 = tracks st
       /\ scan_step segment_duration st1 t2 hit = Ok st1
       /\ scan_step segment_duration st1 t3 miss2 = Ok st3
       /\ consecutive_not_found st3 = 2%Z
       /\ tracks st3 = tracks st ++ [gap]
       /\ last_track st3 = Some gap
       /\ gap = not_found_track segment_duration t3
       /\ is_not_found gap = true
       /\ is_identified gap = false
       /\ timestamp_seconds gap = Some (Z.max 0 (t3 - segment_duration))
       /\ lookup gap "timestamp"
          = Some (PStr (format_timestamp
                          (Z.max 0 (t3 - segment_duration))))
       /\ lookup gap "title" = Some PNone
       /\ lookup gap "artist" = Some PNone.
Proof.
  intros Hlast Hid Hc Hm1 Hhit Hm2 Hsim.
  assert (Hkeep : forall st0 t, last_track st0 = Some last ->
                    scan_step segment_duration st0 t hit = Ok st0).
  { intros st0 t H0.
    rewrite (scan_step_found_after _ _ _ _ _ Hhit H0
               (identified_some_track _ Hid) Hid), Hsim.
    reflexivity. }
  split; [exact Hkeep|]. split.
  { intros st0 st0' t result H.
    destruct (found result) eqn:F.
    - destruct (scan_step_found_cases _ _ _ _ _ F H); auto.
    - right; right. split; [reflexivity|].
      destruct (scan_step_miss_ok segment_duration st0 t result F)
        as (st' & E & Hcount).
      rewrite E in H. now inversion H; subst. }
  exists {| tracks := tracks st; last_track := last_track st;
            consecutive_not_found := 1 |}.
  exists (append_track
            {| tracks := tracks st; last_track := last_track st;
               consecutive_not_found := 1 |}
            (not_found_track segment_duration t3) 2).
  exists (not_found_track segment_duration t3).
  split.
  { rewrite (scan_step_miss _ _ _ _ Hm1), Hc. reflexivity. }
  split; [reflexivity|]. split; [reflexivity|]. split.
  { apply Hkeep. exact Hlast. }
  split.
  { rewrite (scan_step_miss _ _ _ _ Hm2). simpl.
    rewrite Hlast, (identified_not_gap _ Hid). simpl.
    now rewrite orb_true_r. }
  repeat split.
Qed.

(** C10 on a sample: after the entry of a song, a miss at 30, the same
    song with a remix credit at 60, which keeps the state with the counter
    at 1, and a miss at 90, which appends the gap dated 60. *)
Lemma similar_hit_keeps_counter_witness :
  let halcyon :=
    identified_track 0
      (identify_segment (http_ok (matched (song "Orbital" "Halcyon")))) in
  let remix :=
    identify_segment
      (http_ok (matched (song "Orbital" "Halcyon (Remix)"))) in
  exists st1 st3 gap,
    scan_step 30
      {| tracks := [halcyon]; last_track := Some halcyon;
         consecutive_not_found := 0 |}
      30 (identify_segment (http_ok no_match))
    = Ok st1
    /\ consecutive_not_found st1 = 1%Z
    /\ tracks st1 = [halcyon]
    /\ scan_step 30 st1 60 remix = Ok st1
    /\ scan_step 30 st1 90
         (identify_segment (Raised (Exception (lit "timed out"))))
       = Ok st3
    /\ consecutive_not_found st3 = 2%Z
    /\ tracks st3 = [halcyon] ++ [gap]
    /\ last_track st3 = Some gap
    /\ gap = not_found_track 30 90
    /\ is_not_found gap = true
    /\ is_identified gap = false
    /\ timestamp_seconds gap = Some (Z.max 0 (90 - 30))
    /\ lookup gap "timestamp"
       = Some (PStr (format_timestamp (Z.max 0 (90 - 30))))
    /\ lookup gap "title" = Some PNone
    /\ lookup gap "artist" = Some PNone.
Proof.
  intros halcyon remix.
  apply (similar_hit_keeps_counter 30
           {| tracks := [halcyon]; last_track := Some halcyon;
              consecutive_not_found := 0 |}
           halcyon
           (identify_segment (http_ok no_match))
           remix
           (identify_segment (Raised (Exception (lit "timed out"))))
           30 60 90
           eq_refl eq_refl eq_refl eq_refl eq_refl eq_refl eq_refl).
Defined.

(** ** The order of the entries *)

Lemma last_opt_app {A : Type} (l : list A) (x : A) :
  last_opt (l ++ [x]) = Some x.
Proof.
  induction l as [|a l IH]; [reflexivity|].
  simpl. destruct (l ++ [x]) eqn:E; [|exact IH].
  destruct l; discriminate.
Qed.

Lemma chain_app {A : Type} (R : A -> A -> Prop) (l : list A) (x : A) :
  chain R l ->
  match last_opt l with
  | Some y => R y x
  | None => True
  end ->
  chain R (l ++ [x]).
Proof.
  induction l as [|a l IH]; intros Hc Hl; [exact I|].
  destruct l as [|b l].
  - simpl in *. auto.
  - destruct Hc as [Hab Hc]. split; [exact Hab|]. apply IH; assumption.
Qed.

Lemma chain_nth {A : Type} (R : A -> A -> Prop) (l : list A) :
  chain R l ->
  forall i a b,
    nth_error l i = Some a -> nth_error l (S i) = Some b -> R a b.
Proof.
  induction l as [|x l IH]; intros Hc i a b Ha Hb.
  - destruct i; discriminate.
  - destruct l as [|y l]; [destruct i; discriminate|].
    destruct Hc as [Hxy Hc]. destruct i as [|i].
    + simpl in Ha, Hb. inversion Ha; inversion Hb; subst. exact Hxy.
    + apply (IH Hc i); assumption.
Qed.

Lemma timestamp_some_track (t : dict) (z : Z) :
  timestamp_seconds t = Some z -> some_track (Some t) = true.
Proof. destruct t; [discriminate | reflexivity]. Qed.

Lemma last_bound_later (segment_duration : Z) (st : loop_state)
    (next next' : Z) :
  (next <= next')%Z ->
  last_bound segment_duration st next ->
  last_bound segment_duration st next'.
Proof.
  unfold last_bound. destruct (last_track st) as [t|]; [|auto].
  intros Hle (z & Hz & H0 & [(Hi & Hn & Hb) | (Hn & Hb)]);
    exists z; repeat split; auto.
  - left. repeat split; auto. lia.
  - right. split; auto. lia.
Qed.

(** One iteration keeps the invariant. *)
Lemma scan_step_inv (segment_duration : Z) (st st' : loop_state)
    (start_time : Z) (result : dict) :
  (0 < segment_duration)%Z ->
  (0 <= start_time)%Z ->
  scan_inv segment_duration st start_time ->
  scan_step segment_duration st start_time result = Ok st' ->
  scan_inv segment_duration st' (start_time + segment_duration).
Proof.
  intros Hseg Ht (Hl & Hc & Hn & Hb) Hstep.
  destruct (found result) eqn:F.
  - destruct (scan_step_found_cases _ _ _ _ _ F Hstep) as [-> | ->].
    + repeat split; auto.
      apply (last_bound_later _ _ start_time); [lia | exact Hb].
    + unfold scan_inv, append_track; cbn [tracks last_track
                                              consecutive_not_found].
      split; [now rewrite last_opt_app|].
      split.
      { apply chain_app; [exact Hc|]. rewrite <- Hl.
        unfold last_bound in Hb. destruct (last_track st) as [y|]; [|exact I].
        destruct Hb as (z & Hz & H0 & Hcase).
        exists z, start_time.
        split; [exact Hz|]. split; [reflexivity|].
        split; [|apply andb_false_r].
        destruct Hcase as [(_ & _ & Hb) | (_ & Hb)]; [nia | lia]. }
      split; [lia|].
      unfold last_bound; cbn [last_track consecutive_not_found].
      exists start_time. split; [reflexivity|]. split; [lia|].
      left. repeat split. lia.
  - rewrite (scan_step_miss _ _ _ _ F) in Hstep. inversion Hstep as [E].
    clear Hstep E.
    destruct ((2 <=? consecutive_not_found st + 1)%Z
              && (negb (some_track (last_track st))
                  || match last_track st with
                     | Some last => negb (is_not_found last)
                     | None => true
                     end)) eqn:C.
    + apply andb_prop in C as [C2 Clast]. apply Z.leb_le in C2.
      unfold scan_inv, append_track; cbn [tracks last_track
                                            consecutive_not_found].
      split; [now rewrite last_opt_app|].
      split.
      { apply chain_app; [exact Hc|]. rewrite <- Hl.
        unfold last_bound in Hb. destruct (last_track st) as [y|]; [|exact I].
        destruct Hb as (z & Hz & H0 & Hcase).
        rewrite (timestamp_some_track _ _ Hz) in Clast. simpl in Clast.
        exists z, (Z.max 0 (start_time - segment_duration)).
        split; [exact Hz|]. split; [reflexivity|].
        destruct Hcase as [(_ & Hny & Hb) | (Hny & _)].
        - split; [nia | now rewrite Hny].
        - rewrite Hny in Clast. discriminate. }
      split; [lia|].
      unfold last_bound; cbn [last_track consecutive_not_found].
      exists (Z.max 0 (start_time - segment_duration)).
      split; [reflexivity|]. split; [lia|].
      right. split; [reflexivity | lia].
    + unfold scan_inv; cbn [tracks last_track consecutive_not_found].
      repeat split; auto; [lia|].
      unfold last_bound in *; cbn [last_track consecutive_not_found].
      destruct (last_track st) as [y|]; [|exact I].
      destruct Hb as (z & Hz & H0 & [(Hi & Hny & Hb) | (Hny & Hb)]);
        exists z; repeat split; auto.
      * left. repeat split; auto. nia.
      * right. split; auto. lia.
Qed.

Lemma starts_from_succ (segment_duration : Z) (i count : nat) :
  starts_from segment_duration i (S count)
  = (Z.of_nat i * segment_duration)%Z
    :: starts_from segment_duration (S i) count.
Proof. reflexivity. Qed.

(** The loop keeps the invariant, also when an exception ends it. *)
Lemma scan_inv_kept (segment_duration : Z) (provider : nat -> outcome) :
  (0 < segment_duration)%Z ->
  forall (count i : nat) (st : loop_state) (position : Z),
    scan_inv segment_duration st (Z.of_nat i * segment_duration) ->
    exists next,
      scan_inv segment_duration
        (fst (fst (scan segment_duration provider i
                     (starts_from segment_duration i count) st position)))
        next.
Proof.
  intros Hseg.
  induction count as [|count IH]; intros i st position Hinv.
  - eexists. exact Hinv.
  - rewrite starts_from_succ. cbn [scan].
    destruct (scan_step _ _ _ _) as [st'|e] eqn:E.
    + apply IH.
      replace (Z.of_nat (S i) * segment_duration)%Z
        with (Z.of_nat i * segment_duration + segment_duration)%Z by lia.
      refine (scan_step_inv _ _ _ _ _ Hseg _ Hinv E). nia.
    + eexists. exact Hinv.
Qed.

Lemma initial_state_inv (segment_duration next : Z) :
  scan_inv segment_duration initial_state next.
Proof. repeat split. simpl. lia. Qed.

(** With a negative stride the scan has no sample. *)
Lemma py_range_negative (len_audio : N) (segment_duration : Z) :
  (segment_duration < 0)%Z ->
  py_range (Z.of_N len_audio / 1000) segment_duration = [].
Proof.
  intros Hseg. unfold py_range.
  replace (0 <? segment_duration)%Z with false
    by (symmetry; apply Z.ltb_ge; lia).
  assert (Hd : (0 <= Z.of_N len_audio / 1000)%Z)
    by (apply Z.div_pos; lia).
  assert (H : ((- (Z.of_N len_audio / 1000) - segment_duration - 1)
               / - segment_duration <= 0)%Z).
  { apply Z.lt_succ_r. apply Z.div_lt_upper_bound; lia. }
  destruct ((- (Z.of_N len_audio / 1000) - segment_duration - 1)
            / - segment_duration)%Z; try lia; reflexivity.
Qed.

(** In the track list of every job, neighbours are in order. *)
Lemma process_set_chain (w : world) (url : str) (segment_duration : Z) :
  chain in_order (Job.tracks (process_set w url segment_duration)).
Proof.
  unfold process_set.
  destruct (download_audio w); [|exact I].
  destruct (audio_file_exists w); [|exact I]. simpl negb. cbv iota.
  destruct (from_mp3 w) as [len_audio|]; [|exact I].
  destruct (segment_duration =? 0)%Z eqn:E0; [exact I|].
  apply Z.eqb_neq in E0.
  assert (H : chain in_order
                (tracks
                   (fst (fst (scan segment_duration (provider w) 0
                                (py_range (Z.of_N len_audio / 1000)
                                   segment_duration)
                                initial_state 0))))).
  { destruct (Z.lt_total segment_duration 0) as [Hneg | [H0 | Hpos]].
    - rewrite (py_range_negative _ _ Hneg). exact I.
    - contradiction.
    - destruct (py_range_starts (Z.of_N len_audio / 1000) segment_duration)
        as (count & ->).
      destruct (scan_inv_kept segment_duration (provider w) Hpos count 0
                  initial_state 0%Z (initial_state_inv _ _))
        as (next & _ & Hc & _).
      exact Hc. }
  destruct (scan _ _ _ _ _ _) as ((st & position) & [e|]); exact H.
Qed.

(** C2.  In the track list of a job, completed or not, every entry has a
    smaller [timestamp_seconds] than the next one, and no two neighbours
    are both [not_found]. *)
Theorem tracks_strictly_increasing (w : world) (url : str)
    (segment_duration : Z) (i : nat) (t1 t2 : dict) :
  Job.status (process_set w url segment_duration) = lit "completed" ->
  nth_error (Job.tracks (process_set w url segment_duration)) i = Some t1 ->
  nth_error (Job.tracks (process_set w url segment_duration)) (S i)
  = Some t2 ->
  (exists z1 z2 : Z,
      timestamp_seconds t1 = Some z1 /\ timestamp_seconds t2 = Some z2
      /\ (z1 < z2)%Z)
  /\ ~ (is_not_found t1 = true /\ is_not_found t2 = true).
Proof.
  intros _ H1 H2.
  destruct (chain_nth _ _ (process_set_chain w url segment_duration)
              i t1 t2 H1 H2) as (z1 & z2 & Hz1 & Hz2 & Hlt & Hnf).
  split; [now exists z1, z2|].
  intros [Ha Hb]. rewrite Ha, Hb in Hnf. discriminate.
Qed.

(** The two entries of the scenario of C1. *)
Lemma tracks_strictly_increasing_witness :
  (exists z1 z2 : Z,
      timestamp_seconds
        (identified_track 0
           (identify_segment (http_ok (matched (song "Orbital" "Halcyon")))))
      = Some z1
      /\ timestamp_seconds (not_found_track 30 90) = Some z2
      /\ (z1 < z2)%Z)
  /\ ~ (is_not_found
          (identified_track 0
             (identify_segment
                (http_ok (matched (song "Orbital" "Halcyon")))))
        = true
        /\ is_not_found (not_found_track 30 90) = true).
Proof.
  apply (tracks_strictly_increasing
           (sample_world 150000
              (replay
                 [http_ok (matched (song "Orbital" "Halcyon"));
                  http_ok (matched (song "Orbital" "Halcyon"));
                  http_ok no_match; http_ok no_match; http_ok no_match]))
           (lit "u") 30 0); reflexivity.
Defined.

(** ** Scans without a match *)

Lemma gap_some_track (t : dict) :
  is_not_found t = true -> some_track (Some t) = true.
Proof. destruct t; [discriminate | reflexivity]. Qed.

(** Once the last entry is a gap, misses append nothing. *)
Lemma scan_misses_after_gap (segment_duration : Z)
    (provider : nat -> outcome) (last : dict) :
  (forall k, found (identify_segment (provider k)) = false) ->
  is_not_found last = true ->
  forall (starts : list Z) (i : nat) (st : loop_state) (position : Z),
    last_track st = Some last ->
    exists st' position',
      scan segment_duration provider i starts st position
      = (st', position', None)
      /\ tracks st' = tracks st.
Proof.
  intros Hmiss Hgap.
  induction starts as [|t starts IH]; intros i st position Hlast; simpl.
  - now exists st, position.
  - rewrite (scan_step_miss _ _ _ _ (Hmiss i)), Hlast.
    rewrite (gap_some_track _ Hgap), Hgap. simpl.
    rewrite andb_false_r.
    destruct (IH (S i)
                {| tracks := tracks st; last_track := Some last;
                   consecutive_not_found := consecutive_not_found st + 1 |}
                t eq_refl) as (st' & position' & E & Ht).
    now exists st', position'.
Qed.

(** A scan of misses only: nothing for fewer than two samples, and the
    single gap entry of the second sample otherwise. *)
Lemma scan_all_misses (segment_duration : Z) (provider : nat -> outcome)
    (count : nat) :
  (forall k, found (identify_segment (provider k)) = false) ->
  exists st position,
    scan segment_duration provider 0 (starts_from segment_duration 0 count)
      initial_state 0
    = (st, position, None)
    /\ tracks st
       = match count with
         | S (S _) => [not_found_track segment_duration segment_duration]
         | _ => []
         end.
Proof.
  intros Hmiss. destruct count as [|[|count]].
  - now exists initial_state, 0%Z.
  - simpl. rewrite (scan_step_miss _ _ _ _ (Hmiss 0)). simpl.
    now eexists _, _.
  - unfold starts_from. simpl seq. simpl map.
    cbn [scan]. rewrite (scan_step_miss _ _ _ _ (Hmiss 0)). simpl.
    rewrite (scan_step_miss _ _ _ _ (Hmiss 1)). simpl.
    replace (match segment_duration with
             | 0%Z => 0%Z
             | Z.pos y' => Z.pos y'
             | Z.neg y' => Z.neg y'
             end) with segment_duration by now destruct segment_duration.
    destruct (scan_misses_after_gap segment_duration provider
                (not_found_track segment_duration segment_duration)
                Hmiss eq_refl
                (map (fun k => (Z.of_nat k * segment_duration)%Z)
                   (seq 2 count))
                2
                (append_track
                   {| tracks := []; last_track := None;
                      consecutive_not_found := 1 |}
                   (not_found_track segment_duration segment_duration) 2)
                segment_duration eq_refl)
      as (st' & position' & E & Ht).
    exists st', position'. split; [exact E | exact Ht].
Qed.

(** C4, amended.  When acquisition and decoding succeed, the stride is not
    0 and every sample is a miss, the job completes, without error and
    without any identified entry; its track list is empty when the scan
    has fewer than two samples, and otherwise holds exactly the one
    [not_found] entry of the second sample, whose [timestamp_seconds] is
    0. *)
Theorem unrecognized_set (w : world) (url : str) (info : pyval)
    (len_audio : N) (segment_duration : Z) :
  download_audio w = Ok info ->
  audio_file_exists w = true ->
  from_mp3 w = Ok len_audio ->
  segment_duration <> 0%Z ->
  (forall i, found (identify_segment (provider w i)) = false) ->
  Job.status (process_set w url segment_duration) = lit "completed"
  /\ Job.tracks (process_set w url segment_duration)
     = match py_range (Z.of_N len_audio / 1000) segment_duration with
       | _ :: _ :: _ => [not_found_track segment_duration segment_duration]
       | _ => []
       end
  /\ filter is_identified (Job.tracks (process_set w url segment_duration))
     = []
  /\ timestamp_seconds (not_found_track segment_duration segment_duration)
     = Some 0%Z.
Proof.
  intros Hd He Hm Hseg Hmiss.
  assert (Hts : timestamp_seconds
                  (not_found_track segment_duration segment_duration)
                = Some 0%Z).
  { rewrite not_found_track_timestamp, Z.sub_diag. reflexivity. }
  unfold process_set. rewrite Hd, He, Hm. simpl negb. cbv iota.
  apply Z.eqb_neq in Hseg. rewrite Hseg.
  destruct (py_range_starts (Z.of_N len_audio / 1000) segment_duration)
    as (count & ->).
  destruct (scan_all_misses segment_duration (provider w) count Hmiss)
    as (st & position & -> & Ht).
  cbn [Job.status Job.tracks]. rewrite Ht.
  pose proof (starts_from_shape segment_duration count) as Hshape.
  destruct (starts_from segment_duration 0 count) as [|a [|b l]].
  - destruct Hshape as [-> | ->]; auto.
  - destruct Hshape as [-> | ->]; auto.
  - destruct Hshape as (n & ->). auto.
Qed.

(** A set of 95 seconds without any match: four misses, one gap entry. *)
Lemma unrecognized_set_witness :
  Job.tracks (process_set (sample_world 95000 (always (http_ok no_match))) (lit "u") 30)
  = [not_found_track 30 30].
Proof.
  apply (unrecognized_set
           (sample_world 95000 (always (http_ok no_match))) (lit "u")
           sample_info 95000 30 eq_refl eq_refl eq_refl).
  - discriminate.
  - intros i. reflexivity.
Defined.

(** C4 as stated fails: two samples, both without a match, give a
    completed job whose track list is not empty. *)
Lemma unrecognized_set_counterexample :
  found (identify_segment (provider (sample_world 60000 (always (http_ok no_match))) 0)) = false
  /\ found (identify_segment (provider (sample_world 60000 (always (http_ok no_match))) 1)) = false
  /\ py_range (60000 / 1000) 30 = [0; 30]%Z
  /\ Job.status (process_set (sample_world 60000 (always (http_ok no_match))) (lit "u") 30)
     = lit "completed"
  /\ Job.tracks (process_set (sample_world 60000 (always (http_ok no_match))) (lit "u") 30)
     = [not_found_track 30 30].
Proof. repeat split. Qed.

(** ** Scans of one song *)

(** The key of two non-empty texts is not empty: it holds the separator. *)
Lemma normalize_text_shape (artist title : str) :
  exists a t, normalize_text artist title = a ++ lit " - " ++ t.
Proof. unfold normalize_text. eexists. eexists. reflexivity. Qed.

Lemma normalize_track_name_text (artist title : str) :
  artist <> [] -> title <> [] ->
  normalize_track_name (PStr artist) (PStr title)
  = Ok (normalize_text artist title).
Proof.
  destruct artist; [congruence|]. destruct title; [congruence|].
  reflexivity.
Qed.

Lemma similar_keys_refl (norm : str) :
  norm <> [] -> similar_keys norm norm = true.
Proof.
  destruct norm as [|c norm]; [congruence|]. intros _.
  unfold similar_keys. rewrite eqb_refl. reflexivity.
Qed.

(** Similarity is reflexive on non-empty texts. *)
Lemma tracks_are_similar_refl (artist title : str) :
  artist <> [] -> title <> [] ->
  tracks_are_similar (PStr artist) (PStr title) (PStr artist) (PStr title)
  = Ok true.
Proof.
  intros Ha Ht. unfold tracks_are_similar.
  rewrite (normalize_track_name_text _ _ Ha Ht). cbn [bind].
  rewrite similar_keys_refl; [reflexivity|].
  destruct (normalize_text_shape artist title) as (a & t & ->).
  destruct a; discriminate.
Qed.

(** Hits that repeat the song of the last entry leave the state alone. *)
Lemma scan_same_song (segment_duration : Z) (provider : nat -> outcome)
    (artist title : str) (last : dict) :
  artist <> [] -> title <> [] ->
  (forall k,
      found (identify_segment (provider k)) = true
      /\ dict_get (identify_segment (provider k)) "artist" (PStr [])
         = PStr artist
      /\ dict_get (identify_segment (provider k)) "title" (PStr [])
         = PStr title) ->
  is_identified last = true ->
  dict_get last "artist" (PStr []) = PStr artist ->
  dict_get last "title" (PStr []) = PStr title ->
  forall (starts : list Z) (i : nat) (st : loop_state) (position : Z),
    last_track st = Some last ->
    exists position',
      scan segment_duration provider i starts st position
      = (st, position', None).
Proof.
  intros Ha Ht Hsame Hid Hla Hlt.
  induction starts as [|t starts IH]; intros i st position Hlast; simpl.
  - now exists position.
  - destruct (Hsame i) as (Hf & Hra & Hrt).
    rewrite (scan_step_found_after _ _ _ _ _ Hf Hlast
               (identified_some_track _ Hid) Hid).
    rewrite Hla, Hlt, Hra, Hrt, (tracks_are_similar_refl _ _ Ha Ht).
    cbn [bind negb]. apply IH. exact Hlast.
Qed.

(** C3, amended.  When the artist and the title are non-empty texts and
    every sample of a scan with at least one sample is a hit with this
    artist and this title, the job completes with exactly one entry: the
    identified entry of the first sample. *)
Theorem one_entry_for_one_song (w : world) (url : str) (info : pyval)
    (len_audio : N) (segment_duration : Z) (artist title : str) :
  artist <> [] ->
  title <> [] ->
  download_audio w = Ok info ->
  audio_file_exists w = true ->
  from_mp3 w = Ok len_audio ->
  segment_duration <> 0%Z ->
  py_range (Z.of_N len_audio / 1000) segment_duration <> [] ->
  (forall i,
      found (identify_segment (provider w i)) = true
      /\ dict_get (identify_segment (provider w i)) "artist" (PStr [])
         = PStr artist
      /\ dict_get (identify_segment (provider w i)) "title" (PStr [])
         = PStr title) ->
  Job.status (process_set w url segment_duration) = lit "completed"
  /\ Job.tracks (process_set w url segment_duration)
     = [identified_track 0 (identify_segment (provider w 0))]
  /\ List.length
       (filter is_identified
          (Job.tracks (process_set w url segment_duration))) = 1.
Proof.
  intros Ha Ht Hd He Hm Hseg Hne Hsame.
  unfold process_set. rewrite Hd, He, Hm. simpl negb. cbv iota.
  apply Z.eqb_neq in Hseg. rewrite Hseg.
  destruct (py_range_starts (Z.of_N len_audio / 1000) segment_duration)
    as (count & E).
  rewrite E in *. destruct count as [|count]; [now elim Hne|].
  unfold starts_from. simpl seq. simpl map. cbn [scan].
  destruct (Hsame 0) as (Hf & Hra & Hrt).
  rewrite (scan_step_found_fresh _ initial_state _ _ Hf I).
  destruct (scan_same_song segment_duration (provider w) artist title
              (identified_track 0 (identify_segment (provider w 0)))
              Ha Ht Hsame eq_refl Hra Hrt
              (map (fun k => (Z.of_nat k * segment_duration)%Z)
                 (seq 1 count))
              1
              (append_track initial_state
                 (identified_track 0 (identify_segment (provider w 0))) 0)
              0%Z eq_refl) as (position' & ->).
  repeat split.
Qed.

(** A set of 95 seconds whose four samples give the same song. *)
Lemma one_entry_for_one_song_witness :
  Job.tracks
    (process_set
       (sample_world 95000
          (always (http_ok (matched (song "Orbital" "Halcyon")))))
       (lit "u") 30)
  = [identified_track 0
       (identify_segment (http_ok (matched (song "Orbital" "Halcyon"))))].
Proof.
  apply (one_entry_for_one_song
           (sample_world 95000
              (always (http_ok (matched (song "Orbital" "Halcyon")))))
           (lit "u") sample_info 95000 30 (lit "Orbital") (lit "Halcyon"));
    try reflexivity; try discriminate.
  intros i. repeat split.
Defined.

(** C3 as stated fails for an empty artist: the comparator never calls two
    samples similar when a name is empty, so every sample appends an
    entry. *)
Lemma one_entry_for_one_song_counterexample :
  found (identify_segment (http_ok (matched (song "" "Halcyon")))) = true
  /\ dict_get (identify_segment (http_ok (matched (song "" "Halcyon"))))
       "artist" (PStr [])
     = PStr []
  /\ dict_get (identify_segment (http_ok (matched (song "" "Halcyon"))))
       "title" (PStr [])
     = PStr (lit "Halcyon")
  /\ Job.status
       (process_set
          (sample_world 60000
             (always (http_ok (matched (song "" "Halcyon")))))
          (lit "u") 30)
     = lit "completed"
  /\ List.length
       (filter is_identified
          (Job.tracks
             (process_set
                (sample_world 60000
                   (always (http_ok (matched (song "" "Halcyon")))))
                (lit "u") 30)))
     = 2.
Proof. repeat split. Qed.

(** ** The entries of a track list *)

Lemma scan_step_tracks (segment_duration : Z) (st st' : loop_state)
    (start_time : Z) (result : dict) :
  scan_step segment_duration st start_time result = Ok st' ->
  tracks st' = tracks st
  \/ tracks st' = tracks st ++ [identified_track start_time result]
  \/ tracks st'
     = tracks st ++ [not_found_track segment_duration start_time].
Proof.
  destruct (found result) eqn:F; intros H.
  - destruct (scan_step_found_cases _ _ _ _ _ F H) as [-> | ->]; auto.
  - rewrite (scan_step_miss _ _ _ _ F) in H. inversion H.
    destruct (_ && _); auto.
Qed.

Lemma scan_entries (segment_duration : Z) (provider : nat -> outcome) :
  forall (starts : list Z) (i : nat) (st : loop_state) (position : Z),
    Forall (loop_entry segment_duration) (tracks st) ->
    Forall (loop_entry segment_duration)
      (tracks (fst (fst (scan segment_duration provider i starts st
                           position)))).
Proof.
  induction starts as [|t starts IH]; intros i st position Hst; simpl.
  - exact Hst.
  - destruct (scan_step _ _ _ _) as [st'|e] eqn:E; [|exact Hst].
    apply IH.
    destruct (scan_step_tracks _ _ _ _ _ E) as [-> | [-> | ->]];
      [exact Hst | |];
      apply Forall_app; split; auto; constructor; auto.
    + left. eauto.
    + right. eauto.
Qed.

(** Whatever happens to a job, its track list is made of the entries the
    loop builds. *)
Lemma process_set_entries (w : world) (url : str) (segment_duration : Z) :
  Forall (loop_entry segment_duration)
    (Job.tracks (process_set w url segment_duration)).
Proof.
  unfold process_set.
  destruct (download_audio w); [|constructor].
  destruct (audio_file_exists w); [|constructor]. simpl negb. cbv iota.
  destruct (from_mp3 w); [|constructor].
  destruct (_ =? _)%Z; [constructor|].
  pose proof (scan_entries segment_duration (provider w)
                (py_range (Z.of_N a0 / 1000) segment_duration) 0 initial_state
                0%Z (Forall_nil _)) as H.
  destruct (scan _ _ _ _ _ _) as ((st & position) & [e|]); exact H.
Qed.

(** ** The provider adapter *)

(** C6, amended.  When the call raises, when the body of the response is
    not JSON, and when the body is a JSON object with the status
    ["error"], [identify_segment] returns [found = False] together with
    the error (the text of the exception, or the provider's ["error"]
    value); the loop then counts the sample as a miss, adds one to the
    counter and goes on.  (The status code of the response plays no
    part.) *)
Theorem provider_failure_is_a_miss (o : outcome) (error : pyval) :
  provider_failure o error ->
  identify_segment o = [("found", PBool false); ("error", error)]%string
  /\ found (identify_segment o) = false
  /\ forall segment_duration st start_time,
       exists st',
         scan_step segment_duration st start_time (identify_segment o)
         = Ok st'
         /\ consecutive_not_found st'
            = (consecutive_not_found st + 1)%Z.
Proof.
  intros H.
  assert (E : identify_segment o
              = [("found", PBool false); ("error", error)]%string).
  { destruct H as [e | code e | code body Hs]; try reflexivity.
    unfold identify_segment, identify_segment_try. cbn [json bind py_get].
    rewrite Hs. reflexivity. }
  split; [exact E|]. rewrite E. split; [reflexivity|].
  intros segment_duration st start_time.
  now apply scan_step_miss_ok.
Qed.

(** A timeout of the provider call. *)
Lemma provider_failure_is_a_miss_witness :
  identify_segment (Raised (Exception (lit "Read timed out.")))
  = [("found", PBool false);
     ("error", PStr (lit "Read timed out."))]%string.
Proof.
  apply (provider_failure_is_a_miss
           (Raised (Exception (lit "Read timed out.")))
           (PStr (lit "Read timed out."))).
  apply (transport_failure (Exception (lit "Read timed out."))).
Defined.

(** C6 as stated fails for responses that are not 200: the status code is
    never read.  A 429 whose JSON body has no ["status"] gives
    [found = False] with no error stored, and a 503 whose body reports a
    match gives [found = True]. *)
Lemma provider_failure_is_a_miss_counterexample :
  identify_segment
    (Responded
       {| status_code := 429;
          json := Ok (PDict [("message",
                              PStr (lit "Too Many Requests"))]%string) |})
  = [("found", PBool false)]%string
  /\ found
       (identify_segment
          (Responded
             {| status_code := 503;
                json := Ok (matched (song "Orbital" "Halcyon")) |}))
     = true.
Proof. split; reflexivity. Qed.

(** C5 fails on the code.  A match whose ["deezer"] field is [null] makes
    [track.get("deezer", {}).get("id")] raise, and the call returns
    [found = False]; the same match with [null] under ["spotify"] and
    ["apple_music"], which the source tests before it reads them, is
    returned with [found = True] and empty links. *)
Theorem deezer_null_is_not_found :
  identify_segment
    (http_ok
       (matched
          [("title", PStr (lit "Halcyon"));
           ("artist", PStr (lit "Orbital"));
           ("album", PStr (lit "Orbital 2"));
           ("deezer", PNone)]%string))
  = [("found", PBool false);
     ("error",
       PStr (lit "'NoneType' object has no attribute 'get'"))]%string
  /\ identify_segment
       (http_ok
          (matched
             [("title", PStr (lit "Halcyon"));
              ("artist", PStr (lit "Orbital"));
              ("album", PStr (lit "Orbital 2"));
              ("spotify", PNone);
              ("apple_music", PNone)]%string))
     = [("found", PBool true);
        ("title", PStr (lit "Halcyon"));
        ("artist", PStr (lit "Orbital"));
        ("album", PStr (lit "Orbital 2"));
        ("spotify_url", PNone);
        ("apple_music_url", PNone);
        ("deezer_url", PNone)]%string.
Proof. split; reflexivity. Qed.

(** ** The comparator *)

Lemma eqb_sym (s t : str) : PyStr.eqb s t = PyStr.eqb t s.
Proof.
  destruct (PyStr.eqb s t) eqn:E.
  - apply eqb_eq in E. subst. symmetry. apply eqb_refl.
  - destruct (PyStr.eqb t s) eqn:E'; [|reflexivity].
    apply eqb_eq in E'. subst. now rewrite eqb_refl in E.
Qed.

Lemma ratio_swap (a b : str) :
  Difflib.matches a b = Difflib.matches b a ->
  Difflib.ratio a b = Difflib.ratio b a.
Proof.
  intros H. unfold Difflib.ratio.
  rewrite (Nat.add_comm (List.length b) (List.length a)), H.
  reflexivity.
Qed.

(** C8, amended.  Swapping the two pairs of texts gives the same answer
    whenever [SequenceMatcher] counts as many matching characters in one
    order as in the other, on the two keys and on their title parts; this
    is needed only when the keys are non-empty and different, the other
    cases being decided before any ratio is taken. *)
Theorem tracks_are_similar_swap (artist1 title1 artist2 title2 : str)
    (norm1 norm2 : str) :
  normalize_track_name (PStr artist1) (PStr title1) = Ok norm1 ->
  normalize_track_name (PStr artist2) (PStr title2) = Ok norm2 ->
  (norm1 <> [] -> norm2 <> [] -> norm1 <> norm2 ->
   Difflib.matches norm1 norm2 = Difflib.matches norm2 norm1
   /\ Difflib.matches (title_of_key norm1) (title_of_key norm2)
      = Difflib.matches (title_of_key norm2) (title_of_key norm1)) ->
  tracks_are_similar (PStr artist1) (PStr title1)
    (PStr artist2) (PStr title2)
  = tracks_are_similar (PStr artist2) (PStr title2)
      (PStr artist1) (PStr title1).
Proof.
  intros H1 H2 Hm. unfold tracks_are_similar.
  rewrite H1, H2. cbn [bind]. f_equal.
  destruct norm1 as [|c1 n1]; destruct norm2 as [|c2 n2]; try reflexivity.
  unfold similar_keys. rewrite (eqb_sym (c2 :: n2)).
  destruct (PyStr.eqb (c1 :: n1) (c2 :: n2)) eqn:E; [reflexivity|].
  destruct Hm as [Hk Ht]; try discriminate.
  { intros Heq. rewrite Heq, eqb_refl in E. discriminate. }
  rewrite (ratio_swap _ _ Hk), (ratio_swap _ _ Ht). reflexivity.
Qed.

(** Two titles for which the matching blocks are the same in both
    orders. *)
Lemma tracks_are_similar_swap_witness :
  tracks_are_similar (PStr (lit "Orbital")) (PStr (lit "Halcyon"))
    (PStr (lit "Orbital")) (PStr (lit "Halcyon On and On"))
  = tracks_are_similar (PStr (lit "Orbital")) (PStr (lit "Halcyon On and On"))
      (PStr (lit "Orbital")) (PStr (lit "Halcyon")).
Proof.
  apply (tracks_are_similar_swap (lit "Orbital") (lit "Halcyon")
           (lit "Orbital") (lit "Halcyon On and On")
           (lit "orbital - halcyon") (lit "orbital - halcyon on and on")
           eq_refl eq_refl).
  intros _ _ _. split; vm_compute; reflexivity.
Defined.

(** C8 as stated fails: [SequenceMatcher] takes the longest block that
    comes first in its first argument, so the number of matching
    characters depends on the order.  For the keys ["x - abba"] and
    ["x - baba"] it is 7 of 16 characters in one order (ratio 0.875) and 6
    in the other (ratio 0.75), and the titles alone give 0.75 and 0.5. *)
Lemma tracks_are_similar_swap_counterexample :
  tracks_are_similar (PStr (lit "x")) (PStr (lit "abba"))
    (PStr (lit "x")) (PStr (lit "baba"))
  = Ok true
  /\ tracks_are_similar (PStr (lit "x")) (PStr (lit "baba"))
       (PStr (lit "x")) (PStr (lit "abba"))
     = Ok false.
Proof. split; vm_compute; reflexivity. Qed.

(** ** The recursion of [get_matching_blocks] *)

Section MatchingBlocks.

Import Difflib.

Variables a b : str.

Lemma j2len_get_pred_le (j2len : list (nat * nat)) (j m : nat) :
  Forall (fun e => snd e <= m) j2len -> j2len_get_pred j2len j <= m.
Proof.
  intros H. destruct j as [|j]; simpl; [lia|].
  destruct (find _ j2len) as [e|] eqn:E; [|lia].
  apply find_some in E as [Hin _].
  rewrite Forall_forall in H. now apply H.
Qed.

Lemma match_row_within (alo blo bhi i : nat) (j2len : list (nat * nat)) :
  alo <= i ->
  Forall (fun e => snd e <= i - alo) j2len ->
  forall js best newj2len,
    block_within alo (S i) best ->
    Forall (fun e => snd e <= S i - alo) newj2len ->
    block_within alo (S i)
      (fst (match_row blo bhi i j2len js best newj2len))
    /\ Forall (fun e => snd e <= S i - alo)
         (snd (match_row blo bhi i j2len js best newj2len)).
Proof.
  intros Hi Hj. induction js as [|j js IH]; intros best new Hb Hn; simpl.
  - auto.
  - destruct (j <? blo); [now apply IH|].
    destruct (bhi <=? j); [auto|].
    pose proof (j2len_get_pred_le j2len j _ Hj) as Hk.
    apply IH.
    + destruct (block_size best <? j2len_get_pred j2len j + 1); [|exact Hb].
      unfold block_within; cbn [fst snd]. lia.
    + constructor; [cbn [snd]; lia | exact Hn].
Qed.

Lemma match_rows_within (alo blo bhi : nat) :
  forall ais i j2len best,
    alo <= i ->
    Forall (fun e => snd e <= i - alo) j2len ->
    block_within alo i best ->
    block_within alo (i + List.length ais)
      (match_rows b blo bhi ais i j2len best).
Proof.
  induction ais as [|x ais IH]; intros i j2len best Hi Hj Hb; simpl.
  - now rewrite Nat.add_0_r.
  - assert (Hb' : block_within alo (S i) best).
    { destruct Hb. split; [auto | lia]. }
    destruct (match_row_within alo blo bhi i j2len Hi Hj (b2j b x) best []
                Hb' (Forall_nil _)) as [H1 H2].
    destruct (match_row blo bhi i j2len (b2j b x) best []) as [best' new].
    replace (i + S (List.length ais)) with (S i + List.length ais) by lia.
    apply IH; [lia | exact H2 | exact H1].
Qed.

Lemma extend_left_within (alo blo : nat) :
  forall d bestj bestsize,
    alo <= fst (fst (extend_left a b alo blo d bestj bestsize))
    /\ fst (fst (extend_left a b alo blo d bestj bestsize))
       + snd (extend_left a b alo blo d bestj bestsize)
       = alo + d + bestsize.
Proof.
  induction d as [|d IH]; intros bestj bestsize; simpl.
  - lia.
  - destruct (_ && _); simpl; [|lia].
    destruct (IH (bestj - 1) (bestsize + 1)). lia.
Qed.

Lemma extend_right_within (bhi : nat) :
  forall d besti bestj bestsize,
    fst (fst (extend_right a b bhi d besti bestj bestsize)) = besti
    /\ snd (extend_right a b bhi d besti bestj bestsize) <= bestsize + d.
Proof.
  induction d as [|d IH]; intros besti bestj bestsize; simpl.
  - lia.
  - destruct (_ && _); simpl; [|lia].
    destruct (IH besti bestj (bestsize + 1)). lia.
Qed.

(** A non-empty block of [find_longest_match] lies in [a[alo:ahi]]. *)
Lemma find_longest_match_within (alo ahi blo bhi : nat) :
  0 < snd (find_longest_match a b alo ahi blo bhi) ->
  block_within alo ahi (find_longest_match a b alo ahi blo bhi).
Proof.
  unfold find_longest_match.
  pose proof (match_rows_within alo blo bhi
                (firstn (ahi - alo) (skipn alo a)) alo [] (alo, blo, 0)
                (Nat.le_refl _) (Forall_nil _)) as H0.
  destruct H0 as [H1 H2]; [split; simpl; lia|].
  pose proof (firstn_le_length (ahi - alo) (skipn alo a)) as Hlen.
  destruct (match_rows _ _ _ _ _ _ _) as [[besti bestj] bestsize].
  simpl in H1, H2.
  destruct (extend_left_within alo blo (besti - alo) bestj bestsize)
    as [H3 H4].
  destruct (extend_left _ _ _ _ _ _ _) as [[i' j'] k'].
  simpl in H3, H4.
  destruct (extend_right_within bhi (ahi - (i' + k')) i' j' k') as [H5 H6].
  destruct (extend_right _ _ _ _ _ _ _) as [[i'' j''] k''].
  simpl in *. subst i''. intros Hk. unfold block_within; simpl. lia.
Qed.

(** The blocks do not depend on the fuel once it covers [a[alo:ahi]]. *)
Lemma blocks_in_fuel :
  forall fuel fuel' alo ahi blo bhi,
    ahi - alo <= fuel -> ahi - alo <= fuel' ->
    blocks_in fuel a b alo ahi blo bhi = blocks_in fuel' a b alo ahi blo bhi.
Proof.
  induction fuel as [|fuel IH]; intros fuel' alo ahi blo bhi H1 H2.
  - destruct fuel' as [|fuel']; [reflexivity|]. simpl.
    pose proof (find_longest_match_within alo ahi blo bhi) as Hw.
    destruct (find_longest_match a b alo ahi blo bhi) as [[i j] k].
    destruct k as [|k]; [reflexivity|].
    destruct Hw as [Ha Hb]; simpl in *; lia.
  - pose proof (find_longest_match_within alo ahi blo bhi) as Hw.
    destruct fuel' as [|fuel']; simpl;
      destruct (find_longest_match a b alo ahi blo bhi) as [[i j] k];
      destruct k as [|k]; try reflexivity;
      destruct Hw as [Ha Hb]; simpl in *; try lia.
    f_equal. f_equal.
    + destruct (_ && _); [|reflexivity]. apply IH; lia.
    + destruct (_ && _); [|reflexivity]. apply IH; lia.
Qed.

(** [matches] is the sum over the blocks for any fuel that covers [a]. *)
Lemma matches_fuel (fuel : nat) :
  List.length a <= fuel ->
  matches a b
  = list_sum (map block_size
                (blocks_in fuel a b 0 (List.length a) 0 (List.length b))).
Proof.
  intros H. unfold matches.
  now rewrite (blocks_in_fuel (List.length a) fuel) by lia.
Qed.

End MatchingBlocks.

(** ** The normaliser *)

Section Normaliser.

Import PyStr.

Lemma lower_char_idempotent (c : ascii) :
  lower_char (lower_char c) = lower_char c.
Proof. destruct c as [[] [] [] [] [] [] [] []]; reflexivity. Qed.

Lemma word_not_space (c : ascii) : isword c = true -> isspace c = false.
Proof.
  destruct c as [[] [] [] [] [] [] [] []]; vm_compute; congruence.
Qed.

(** *** What the steps keep: they only take characters away *)

Lemma lstrip_incl (s : str) (c : ascii) : In c (lstrip s) -> In c s.
Proof.
  induction s as [|x s IH]; simpl; [auto|].
  destruct (isspace x); simpl; auto.
Qed.

Lemma rstrip_incl (s : str) (c : ascii) : In c (rstrip s) -> In c s.
Proof.
  revert c. induction s as [|x s IH]; intros c; simpl; [auto|].
  destruct (rstrip s) as [|y r].
  - destruct (isspace x); simpl; tauto.
  - simpl. intros [H | H]; auto.
Qed.

Lemma strip_incl (s : str) (c : ascii) : In c (strip s) -> In c s.
Proof. intros H. apply lstrip_incl, rstrip_incl, H. Qed.

Lemma sub_enclosed_incl (op cl : ascii) (s : str) (c : ascii) :
  forall inside, In c (Re.sub_enclosed op cl inside s) -> In c s.
Proof.
  induction s as [|x s IH]; intros inside; simpl; [auto|].
  destruct inside.
  - destruct (Ascii.eqb x cl); intros H; right; eapply IH; exact H.
  - destruct (Ascii.eqb x op && existsb (Ascii.eqb cl) s).
    + intros H; right; eapply IH; exact H.
    + simpl. intros [H | H]; [auto | right; eapply IH; exact H].
Qed.

Lemma sub_word_incl (w : str) (s : str) (c : ascii) :
  forall prev skip, In c (Re.sub_word w prev skip s) -> In c s.
Proof.
  induction s as [|x s IH]; intros prev skip; simpl; [auto|].
  destruct skip as [|k].
  - destruct (Re.match_word w prev (x :: s)).
    + intros H; right; eapply IH; exact H.
    + simpl. intros [H | H]; [auto | right; eapply IH; exact H].
  - intros H; right; eapply IH; exact H.
Qed.

Lemma fold_sub_word_incl (ws : list str) (c : ascii) :
  forall s,
    In c (fold_left (fun s word => Re.sub_word word None 0 s) ws s) ->
    In c s.
Proof.
  induction ws as [|w ws IH]; intros s; simpl; [auto|].
  intros H. apply IH in H. eapply sub_word_incl; exact H.
Qed.

(** The tokens of [split] are non-empty and made of characters of the
    text that are not blank. *)
Lemma split_tokens (s : str) :
  forall tok, In tok (split s) ->
    tok <> [] /\ forall c, In c tok -> In c s /\ isspace c = false.
Proof.
  induction s as [|x s IH]; intros tok; simpl; [tauto|].
  destruct (isspace x) eqn:Ex.
  - intros H. destruct (IH tok H) as [Hne Hc]. split; [exact Hne|].
    intros c Hin. destruct (Hc c Hin). auto.
  - assert (Hone : tok = [x] ->
              tok <> [] /\ forall c, In c tok ->
                                     In c (x :: s) /\ isspace c = false).
    { intros ->. split; [discriminate|].
      intros c [<- | []]. split; [now left | exact Ex]. }
    assert (Hrest : In tok (split s) ->
              tok <> [] /\ forall c, In c tok ->
                                     In c (x :: s) /\ isspace c = false).
    { intros H. destruct (IH tok H) as [Hne Hc]. split; [exact Hne|].
      intros c Hin. destruct (Hc c Hin). split; [now right | auto]. }
    destruct s as [|y s'].
    + intros [<- | []]. now apply Hone.
    + destruct (isspace y).
      * intros [<- | H]; [now apply Hone | now apply Hrest].
      * destruct (split (y :: s')) as [|t ts] eqn:Es.
        -- intros [<- | []]. now apply Hone.
        -- intros [<- | H].
           ++ destruct (IH t (or_introl eq_refl)) as [Hne Hc].
              split; [discriminate|].
              intros c [<- | Hin]; [split; [now left | exact Ex]|].
              destruct (Hc c Hin). split; [now right | auto].
           ++ apply Hrest. now right.
Qed.

(** *** The form of the result *)

Lemma squeeze_normal_form (s : str) :
  (forall c, In c s -> lower_char c = c) -> normal_form (squeeze s).
Proof.
  intros Hlow. exists (split (Re.sub_nonword s)). split; [reflexivity|].
  apply Forall_forall. intros tok Htok.
  destruct (split_tokens _ tok Htok) as [Hne Hc]. split; [exact Hne|].
  apply Forall_forall. intros c Hin. destruct (Hc c Hin) as [Hs Hsp].
  unfold Re.sub_nonword in Hs. apply filter_In in Hs as [Hs Hf].
  rewrite Hsp, orb_false_r in Hf. split; [exact Hf | now apply Hlow].
Qed.

Lemma lower_is_lower (s : str) (c : ascii) :
  In c (lower s) -> lower_char c = c.
Proof.
  unfold lower. intros H. apply in_map_iff in H as (x & <- & _).
  apply lower_char_idempotent.
Qed.

Lemma norm_artist_normal_form (artist : str) :
  normal_form (norm_artist artist).
Proof.
  apply squeeze_normal_form. intros c H.
  apply fold_sub_word_incl, strip_incl in H.
  eapply lower_is_lower; exact H.
Qed.

Lemma norm_title_normal_form (title : str) :
  normal_form (norm_title title).
Proof.
  apply squeeze_normal_form. intros c H.
  apply fold_sub_word_incl, sub_enclosed_incl, sub_enclosed_incl,
    strip_incl in H.
  eapply lower_is_lower; exact H.
Qed.

Lemma fold_remove_word (ws : list str) :
  forall title artist,
    fold_left remove_word ws (title, artist)
    = (fold_left (fun s word => Re.sub_word word None 0 s) ws title,
       fold_left (fun s word => Re.sub_word word None 0 s) ws artist).
Proof.
  induction ws as [|w ws IH]; intros title artist; [reflexivity|].
  simpl. unfold remove_word at 2. simpl. apply IH.
Qed.

(** The key is the normalised artist, the separator and the normalised
    title. *)
Lemma normalize_text_parts (artist title : str) :
  normalize_text artist title
  = norm_artist artist ++ lit " - " ++ norm_title title.
Proof.
  unfold normalize_text, norm_artist, norm_title, squeeze, strip_noise.
  cbv zeta. rewrite fold_remove_word. reflexivity.
Qed.

(** *** Texts in normal form *)

Lemma in_join (sep : str) (toks : list str) (c : ascii) :
  In c (join sep toks) ->
  In c sep \/ exists tok, In tok toks /\ In c tok.
Proof.
  induction toks as [|t toks IH]; simpl; [tauto|].
  destruct toks as [|t' toks].
  - intros H. right. exists t. auto.
  - intros H. apply in_app_or in H as [H | H].
    + right. exists t. auto.
    + apply in_app_or in H as [H | H]; [now left|].
      destruct (IH H) as [Hs | (tok & Ht & Hc)]; [now left|].
      right. exists tok. split; [now right | exact Hc].
Qed.

(** Every character of a normal form is clean or the blank. *)
Lemma normal_form_chars (s : str) (c : ascii) :
  normal_form s -> In c s -> clean c \/ c = " "%char.
Proof.
  intros (toks & -> & Htoks) Hin.
  destruct (in_join _ _ _ Hin) as [[<- | []] | (tok & Ht & Hc)].
  - now right.
  - left. rewrite Forall_forall in Htoks.
    destruct (Htoks tok Ht) as [_ Hclean].
    rewrite Forall_forall in Hclean. now apply Hclean.
Qed.

Lemma normal_form_lower (s : str) : normal_form s -> lower s = s.
Proof.
  intros Hnf. unfold lower.
  rewrite <- (map_id s) at 2. apply map_ext_in. intros c Hin.
  destruct (normal_form_chars _ _ Hnf Hin) as [[_ H] | ->];
    [exact H | reflexivity].
Qed.

Lemma normal_form_no (s : str) (x : ascii) :
  isword x = false -> x <> " "%char -> normal_form s -> ~ In x s.
Proof.
  intros Hw Hb Hnf Hin.
  destruct (normal_form_chars _ _ Hnf Hin) as [[H _] | H]; congruence.
Qed.

Lemma normal_form_head (s : str) (x : ascii) (r : str) :
  normal_form s -> s = x :: r -> isspace x = false.
Proof.
  intros (toks & -> & Htoks) E.
  destruct toks as [|t toks]; [discriminate|].
  inversion Htoks as [|? ? [Hne Hclean] _]; subst.
  destruct t as [|y t]; [congruence|].
  inversion Hclean as [|? ? [Hy _] _]; subst.
  assert (x = y) as ->.
  { simpl in E. destruct toks; simpl in E; now inversion E. }
  now apply word_not_space.
Qed.

Lemma normal_form_last (s : str) :
  normal_form s -> s <> [] ->
  exists r x, s = r ++ [x] /\ isspace x = false.
Proof.
  intros (toks & -> & Htoks) Hne.
  induction toks as [|t toks IH]; [now elim Hne|].
  inversion Htoks as [|? ? [Ht Hclean] Hrest]; subst.
  destruct toks as [|t' toks].
  - simpl. destruct (exists_last Ht) as (r & x & ->).
    exists r, x. split; [reflexivity|].
    rewrite Forall_forall in Hclean.
    apply word_not_space, (Hclean x), in_or_app. right. now left.
  - destruct (IH Hrest) as (r & x & E & Hx).
    { inversion Hrest as [|? ? [Ht' _] _]; subst.
      simpl. destruct t'; [congruence|]. destruct toks; discriminate. }
    change (join (lit " ") (t :: t' :: toks))
      with (t ++ lit " " ++ join (lit " ") (t' :: toks)).
    rewrite E. exists (t ++ lit " " ++ r), x.
    split; [now rewrite <- !app_assoc | exact Hx].
Qed.

Lemma rstrip_end (r : str) (x : ascii) :
  isspace x = false -> rstrip (r ++ [x]) = r ++ [x].
Proof.
  intros Hx. induction r as [|y r IH]; simpl.
  - now rewrite Hx.
  - rewrite IH. destruct (r ++ [x]) eqn:E; [|reflexivity].
    destruct r; discriminate.
Qed.

Lemma normal_form_strip (s : str) : normal_form s -> strip s = s.
Proof.
  intros Hnf. unfold strip.
  assert (Hl : lstrip s = s).
  { destruct s as [|x r] eqn:E; [reflexivity|].
    simpl. now rewrite (normal_form_head _ _ _ Hnf eq_refl). }
  rewrite Hl. destruct s as [|x r] eqn:E; [reflexivity|].
  destruct (normal_form_last _ Hnf) as (r' & y & -> & Hy); [discriminate|].
  now apply rstrip_end.
Qed.

Lemma sub_enclosed_none (op cl : ascii) (s : str) :
  ~ In op s -> Re.sub_enclosed op cl false s = s.
Proof.
  induction s as [|x s IH]; intros Hno; simpl; [reflexivity|].
  destruct (Ascii.eqb x op) eqn:E.
  - apply Ascii.eqb_eq in E. subst. elim Hno. now left.
  - simpl. rewrite IH; [reflexivity|]. intros H. apply Hno. now right.
Qed.

Lemma sub_word_none (w : str) (s : str) :
  forall prev,
    Re.search_word w prev s = false -> Re.sub_word w prev 0 s = s.
Proof.
  induction s as [|x s IH]; intros prev; simpl; [reflexivity|].
  intros H. apply orb_false_elim in H as [Hm Hs].
  rewrite Hm, (IH _ Hs). reflexivity.
Qed.

Lemma noise_free_strip_noise (s : str) :
  noise_free s = true -> strip_noise s = s.
Proof.
  unfold noise_free, strip_noise.
  induction remove_words as [|w ws IH]; simpl; [reflexivity|].
  intros H. apply andb_prop in H as [Hw Hws].
  apply negb_true_iff in Hw. rewrite (sub_word_none _ _ _ Hw).
  now apply IH.
Qed.

Lemma normal_form_sub_nonword (s : str) :
  normal_form s -> Re.sub_nonword s = s.
Proof.
  intros Hnf. unfold Re.sub_nonword.
  apply forallb_filter_id. apply forallb_forall. intros c Hin.
  destruct (normal_form_chars _ _ Hnf Hin) as [[H _] | ->];
    [now rewrite H | reflexivity].
Qed.

(** [split] finds a token that ends at the end of the text or before a
    blank. *)
Lemma split_token (tok : str) :
  tok <> [] ->
  Forall clean tok ->
  forall rest,
    match rest with
    | [] => True
    | y :: _ => isspace y = true
    end ->
    split (tok ++ rest) = tok :: split rest.
Proof.
  induction tok as [|x tok IH]; intros Hne Hclean rest Hrest;
    [congruence|].
  inversion Hclean as [|? ? [Hx _] Hclean']; subst.
  apply word_not_space in Hx.
  destruct tok as [|y tok].
  - simpl. rewrite Hx. destruct rest as [|z rest]; [reflexivity|].
    now rewrite Hrest.
  - assert (Hy : isspace y = false).
    { inversion Hclean' as [|? ? [Hy _] _]; subst.
      now apply word_not_space. }
    change ((x :: y :: tok) ++ rest) with (x :: (y :: tok) ++ rest).
    cbn [split]. rewrite Hx.
    change ((y :: tok) ++ rest) with (y :: tok ++ rest).
    cbv iota. rewrite Hy.
    change (y :: tok ++ rest) with ((y :: tok) ++ rest).
    rewrite (IH ltac:(discriminate) Hclean' rest Hrest). reflexivity.
Qed.

Lemma split_join (toks : list str) :
  Forall (fun tok => tok <> [] /\ Forall clean tok) toks ->
  split (join (lit " ") toks) = toks.
Proof.
  induction toks as [|t toks IH]; intros H; [reflexivity|].
  inversion H as [|? ? [Hne Hclean] Hrest]; subst.
  destruct toks as [|t' toks].
  - simpl. rewrite <- (app_nil_r t) at 1.
    now rewrite (split_token t Hne Hclean [] I).
  - change (join (lit " ") (t :: t' :: toks))
      with (t ++ lit " " ++ join (lit " ") (t' :: toks)).
    rewrite (split_token t Hne Hclean); [|reflexivity].
    change (lit " " ++ join (lit " ") (t' :: toks))
      with (" "%char :: join (lit " ") (t' :: toks)).
    cbn [split]. change (isspace " ") with true. cbv iota.
    now rewrite (IH Hrest).
Qed.

Lemma normal_form_squeeze (s : str) : normal_form s -> squeeze s = s.
Proof.
  intros Hnf. unfold squeeze. rewrite (normal_form_sub_nonword _ Hnf).
  destruct Hnf as (toks & -> & Htoks). now rewrite split_join.
Qed.

(** A noise-free text in normal form is its own normalised artist and its
    own normalised title. *)
Lemma norm_artist_fixed (s : str) :
  normal_form s -> noise_free s = true -> norm_artist s = s.
Proof.
  intros Hnf Hfree. unfold norm_artist.
  rewrite (normal_form_lower _ Hnf), (normal_form_strip _ Hnf),
    (noise_free_strip_noise _ Hfree).
  now apply normal_form_squeeze.
Qed.

Lemma norm_title_fixed (s : str) :
  normal_form s -> noise_free s = true -> norm_title s = s.
Proof.
  intros Hnf Hfree. unfold norm_title.
  rewrite (normal_form_lower _ Hnf), (normal_form_strip _ Hnf).
  rewrite (sub_enclosed_none "(" ")" s), (sub_enclosed_none "[" "]" s);
    try (apply normal_form_no; [reflexivity | discriminate | exact Hnf]).
  rewrite (noise_free_strip_noise _ Hfree).
  now apply normal_form_squeeze.
Qed.

(** A key splits at its separator in one way only, the normalised parts
    having no hyphen. *)
Lemma key_parts_unique (a t a' t' : str) :
  ~ In "-"%char a' -> ~ In "-"%char t' ->
  a ++ lit " - " ++ t = a' ++ lit " - " ++ t' ->
  a = a' /\ t = t'.
Proof.
  revert a'. induction a as [|x a IH]; intros a' Ha' Ht' E.
  - destruct a' as [|y a'].
    + split; [reflexivity|]. now inversion E.
    + exfalso. inversion E as [[Hy E']]. subst y.
      destruct a' as [|z a']; [discriminate|].
      inversion E' as [[Hz E'']]. subst z. apply Ha'. right. now left.
  - destruct a' as [|y a'].
    + exfalso. inversion E as [[Hx E']]. subst x.
      destruct a as [|z a]; [discriminate|].
      inversion E' as [[Hz E'']]. subst z.
      apply Ht'.
      assert (Hin : In "-"%char (" "%char :: t')).
      { rewrite <- E''. apply in_or_app. right. right. now left. }
      destruct Hin as [H | H]; [discriminate | exact H].
    + inversion E as [[Hx E']]. subst y.
      destruct (IH a') as [-> ->]; auto.
      intros H. apply Ha'. now right.
Qed.

End Normaliser.

(** C9, amended.  When the normaliser makes the key ["A - T"] of an artist
    and a title, [A] and [T] are not empty and neither holds a word of
    [remove_words] as a whole word, then normalising [A] and [T] gives the
    same key again. *)
Theorem normalize_idempotent (artist title A T : str) :
  normalize_track_name (PStr artist) (PStr title)
  = Ok (A ++ lit " - " ++ T) ->
  A <> [] ->
  T <> [] ->
  noise_free A = true ->
  noise_free T = true ->
  normalize_track_name (PStr A) (PStr T) = Ok (A ++ lit " - " ++ T).
Proof.
  intros Hkey HA HT HfA HfT.
  assert (Hparts : norm_artist artist ++ lit " - " ++ norm_title title
                   = A ++ lit " - " ++ T).
  { destruct artist as [|x artist]; [destruct A; discriminate|].
    destruct title as [|y title]; [destruct A; discriminate|].
    rewrite <- normalize_text_parts.
    rewrite normalize_track_name_text in Hkey by discriminate.
    now inversion Hkey. }
  pose proof (norm_artist_normal_form artist) as Hna.
  pose proof (norm_title_normal_form title) as Hnt.
  symmetry in Hparts.
  apply key_parts_unique in Hparts as [-> ->];
    try (apply normal_form_no; [reflexivity | discriminate | assumption]).
  rewrite (normalize_track_name_text _ _ HA HT), normalize_text_parts.
  now rewrite (norm_artist_fixed _ Hna HfA), (norm_title_fixed _ Hnt HfT).
Qed.

(** The key of a title with a bracketed annotation, normalised again. *)
Lemma normalize_idempotent_witness :
  normalize_track_name (PStr (lit "daft punk"))
    (PStr (lit "one more time"))
  = Ok (lit "daft punk" ++ lit " - " ++ lit "one more time").
Proof.
  apply (normalize_idempotent (lit "Daft Punk")
           (lit "One More Time (Radio Edit)")
           (lit "daft punk") (lit "one more time"));
    try reflexivity; vm_compute; discriminate.
Defined.

(** C9 as stated fails.  Removing the punctuation can leave a word of
    [remove_words] in the key, which the second pass removes; and a part
    that came out empty makes the second pass return the empty key. *)
Lemma normalize_idempotent_counterexample :
  normalize_track_name (PStr (lit "x")) (PStr (lit "e-dit"))
  = Ok (lit "x" ++ lit " - " ++ lit "edit")
  /\ normalize_track_name (PStr (lit "x")) (PStr (lit "edit"))
     = Ok (lit "x" ++ lit " - " ++ lit "")
  /\ normalize_track_name (PStr (lit "remix")) (PStr (lit "x"))
     = Ok (lit "" ++ lit " - " ++ lit "x")
  /\ normalize_track_name (PStr (lit "")) (PStr (lit "x")) = Ok (lit "").
Proof. repeat split. Qed.

(** * Further properties of the scan *)

Lemma scan_tracks_grow (segment_duration : Z) (provider : nat -> outcome) :
  forall (starts : list Z) (i : nat) (st : loop_state) (position : Z),
    exists more,
      tracks (fst (fst (scan segment_duration provider i starts st
                          position)))
      = tracks st ++ more
      /\ List.length more <= List.length starts.
Proof.
  induction starts as [|t starts IH]; intros i st position; simpl.
  - exists []. now rewrite app_nil_r.
  - destruct (scan_step _ _ _ _) as [st'|e] eqn:E.
    + destruct (IH (S i) st' t) as (more & -> & Hlen).
      destruct (scan_step_tracks _ _ _ _ _ E) as [-> | [-> | ->]].
      * exists more. split; [reflexivity | lia].
      * eexists. rewrite <- app_assoc. split; [reflexivity|]. simpl. lia.
      * eexists. rewrite <- app_assoc. split; [reflexivity|]. simpl. lia.
    + exists []. rewrite app_nil_r. split; [reflexivity | simpl; lia].
Qed.

(** X1.  The list a poller reads only grows, by at most one entry for each
    sample processed: what is published after [k + n] samples is what was
    published after [k] samples followed by at most [n] entries, and there
    are never more entries than samples. *)
Theorem published_only_grows (segment_duration : Z)
    (provider : nat -> outcome) (starts : list Z) (k n : nat) :
  (exists more,
      published segment_duration provider starts (k + n)
      = published segment_duration provider starts k ++ more
      /\ List.length more <= n)
  /\ List.length (published segment_duration provider starts k) <= k.
Proof.
  unfold published. split.
  - rewrite <- (firstn_skipn k (firstn (k + n) starts)).
    rewrite firstn_firstn, Nat.min_l by lia.
    rewrite scan_app.
    destruct (scan segment_duration provider 0 (firstn k starts)
                initial_state 0) as [[st position] [e|]] eqn:E.
    + exists []. rewrite app_nil_r. split; [reflexivity | simpl; lia].
    + destruct (scan_tracks_grow segment_duration provider
                  (skipn k (firstn (k + n) starts))
                  (0 + List.length (firstn k starts)) st position)
        as (more & Hm & Hlen).
      exists more. split; [exact Hm|].
      rewrite length_skipn, length_firstn in Hlen. lia.
  - destruct (scan_tracks_grow segment_duration provider (firstn k starts) 0
                initial_state 0%Z) as (more & -> & Hlen).
    simpl. rewrite length_firstn in Hlen. lia.
Qed.

Lemma scanned_later (segment_duration : Z) (provider : nat -> outcome)
    (n m : nat) (st : loop_state) :
  n <= m ->
  scanned segment_duration provider n st ->
  scanned segment_duration provider m st.
Proof.
  intros Hle [Ht Hc]. split; [|lia].
  eapply Forall_impl; [|exact Ht].
  intros t (i & Hi & He). exists i. split; [lia | exact He].
Qed.

Lemma scan_step_scanned (segment_duration : Z) (provider : nat -> outcome)
    (i : nat) (st st' : loop_state) :
  scanned segment_duration provider i st ->
  scan_step segment_duration st (Z.of_nat i * segment_duration)
    (identify_segment (provider i)) = Ok st' ->
  scanned segment_duration provider (S i) st'.
Proof.
  intros Hs Hstep.
  pose proof (scanned_later _ _ i (S i) st (Nat.le_succ_diag_r i) Hs)
    as [Ht Hc].
  destruct Hs as [_ Hci].
  destruct (found (identify_segment (provider i))) eqn:F.
  - destruct (scan_step_found_cases _ _ _ _ _ F Hstep) as [-> | ->].
    + split; assumption.
    + split; [|simpl; lia]. simpl. apply Forall_app. split; [exact Ht|].
      constructor; [|constructor]. exists i. split; [lia|].
      left. split; [exact F | reflexivity].
  - rewrite (scan_step_miss _ _ _ _ F) in Hstep. inversion Hstep as [E].
    clear Hstep E.
    destruct ((2 <=? consecutive_not_found st + 1)%Z && _) eqn:C.
    + apply andb_prop in C as [C2 _]. apply Z.leb_le in C2.
      split; [|simpl; lia]. simpl. apply Forall_app. split; [exact Ht|].
      constructor; [|constructor]. exists i. split; [lia|].
      right. split; [exact F|]. split; [lia | reflexivity].
    + split; [exact Ht | simpl; lia].
Qed.

Lemma scan_scanned (segment_duration : Z) (provider : nat -> outcome) :
  forall (count i : nat) (st : loop_state) (position : Z),
    scanned segment_duration provider i st ->
    scanned segment_duration provider (i + count)
      (fst (fst (scan segment_duration provider i
                   (starts_from segment_duration i count) st position))).
Proof.
  induction count as [|count IH]; intros i st position Hs.
  - rewrite Nat.add_0_r. exact Hs.
  - rewrite starts_from_succ. cbn [scan].
    destruct (scan_step _ _ _ _) as [st'|e] eqn:E.
    + replace (i + S count) with (S i + count) by lia.
      apply IH. eapply scan_step_scanned; eassumption.
    + simpl. eapply scanned_later; [|exact Hs]. lia.
Qed.

(** The samples of a scan with a positive stride start before the end of
    the audio. *)
Lemma sample_before_end (stop step : Z) (i : nat) :
  (0 < step)%Z ->
  i < Z.to_nat ((stop + step - 1) / step) ->
  (0 <= Z.of_nat i * step < stop)%Z.
Proof.
  intros Hstep Hi. split; [nia|].
  assert (Hq : (Z.of_nat i + 1 <= (stop + step - 1) / step)%Z) by lia.
  pose proof (Z.mul_div_le (stop + step - 1) step Hstep) as Hm.
  nia.
Qed.

(** X2.  Every entry of the track list of a job comes from one sample of
    the scan, which starts inside the audio: an identified entry is the
    one built from a hit, with the start of that sample as its time
    stamp; a [not_found] entry is the one built for a miss that is not the
    first sample, with the start of the sample before as its time stamp.
    In both the displayed [timestamp] is the formatted
    [timestamp_seconds]. *)
Theorem entries_come_from_samples (w : world) (url : str)
    (segment_duration : Z) (t : dict) :
  In t (Job.tracks (process_set w url segment_duration)) ->
  exists (i : nat) (z : Z),
    entry_of_sample segment_duration (provider w) i t
    /\ (0 < segment_duration)%Z
    /\ (0 <= Z.of_nat i * segment_duration
        < Job.total_duration (process_set w url segment_duration))%Z
    /\ timestamp_seconds t = Some z
    /\ z = (if is_identified t
            then Z.of_nat i * segment_duration
            else (Z.of_nat i - 1) * segment_duration)%Z
    /\ lookup t "timestamp" = Some (PStr (format_timestamp z)).
Proof.
  unfold process_set.
  destruct (download_audio w) as [info|]; [|intros []].
  destruct (audio_file_exists w); [|intros []]. simpl negb. cbv iota.
  destruct (from_mp3 w) as [len_audio|]; [|intros []].
  destruct (segment_duration =? 0)%Z eqn:E0; [intros []|].
  apply Z.eqb_neq in E0.
  assert (H : forall t,
             In t (tracks
                     (fst (fst (scan segment_duration (provider w) 0
                                  (py_range (Z.of_N len_audio / 1000)
                                     segment_duration)
                                  initial_state 0)))) ->
             (0 < segment_duration)%Z
             /\ exists i,
                  i < Z.to_nat ((Z.of_N len_audio / 1000
                                 + segment_duration - 1)
                                / segment_duration)
                  /\ entry_of_sample segment_duration (provider w) i t).
  { destruct (Z.lt_total segment_duration 0) as [Hneg | [H0 | Hpos]].
    - rewrite (py_range_negative _ _ Hneg). intros t0 [].
    - contradiction.
    - intros t0 Hin. split; [exact Hpos|].
      unfold py_range in Hin.
      replace (0 <? segment_duration)%Z with true in Hin
        by (symmetry; now apply Z.ltb_lt).
      pose proof (scan_scanned segment_duration (provider w)
                    (Z.to_nat ((Z.of_N len_audio / 1000
                                + segment_duration - 1)
                               / segment_duration))
                    0 initial_state 0%Z) as [Hs _].
      { split; [constructor | simpl; lia]. }
      rewrite Forall_forall in Hs. apply Hs. exact Hin. }
  assert (G : forall t,
             In t (tracks
                     (fst (fst (scan segment_duration (provider w) 0
                                  (py_range (Z.of_N len_audio / 1000)
                                     segment_duration)
                                  initial_state 0)))) ->
             exists (i : nat) (z : Z),
               entry_of_sample segment_duration (provider w) i t
               /\ (0 < segment_duration)%Z
               /\ (0 <= Z.of_nat i * segment_duration
                   < Z.of_N len_audio / 1000)%Z
               /\ timestamp_seconds t = Some z
               /\ z = (if is_identified t
                       then Z.of_nat i * segment_duration
                       else (Z.of_nat i - 1) * segment_duration)%Z
               /\ lookup t "timestamp" = Some (PStr (format_timestamp z))).
  { intros t0 Hin. destruct (H t0 Hin) as (Hpos & i & Hi & He).
    pose proof (sample_before_end _ _ _ Hpos Hi) as Hb.
    destruct He as [(Hf & ->) | (Hf & H1 & ->)].
    - exists i, (Z.of_nat i * segment_duration)%Z.
      split; [left; auto|]. repeat split; auto; lia.
    - exists i, ((Z.of_nat i - 1) * segment_duration)%Z.
      split; [right; auto|].
      assert (Hm : Z.max 0 (Z.of_nat i * segment_duration
                            - segment_duration)
                   = ((Z.of_nat i - 1) * segment_duration)%Z) by nia.
      split; [exact Hpos|]. split; [exact Hb|].
      rewrite not_found_track_timestamp.
      unfold not_found_track; cbn [lookup String.eqb Ascii.eqb Bool.eqb].
      rewrite Hm. repeat split. }
  destruct (scan _ _ _ _ _ _) as ((st & position) & [e|]); apply G.
Qed.

(** The gap entry of the scenario of C1 comes from the sample number 3,
    the one that starts at 90. *)
Lemma entries_come_from_samples_witness :
  exists (i : nat) (z : Z),
    entry_of_sample 30
      (replay
         [http_ok (matched (song "Orbital" "Halcyon"));
          http_ok (matched (song "Orbital" "Halcyon"));
          http_ok no_match; http_ok no_match; http_ok no_match])
      i (not_found_track 30 90)
    /\ (0 < 30)%Z
    /\ (0 <= Z.of_nat i * 30 < 150)%Z
    /\ timestamp_seconds (not_found_track 30 90) = Some z
    /\ z = (if is_identified (not_found_track 30 90)
            then Z.of_nat i * 30
            else (Z.of_nat i - 1) * 30)%Z
    /\ lookup (not_found_track 30 90) "timestamp"
       = Some (PStr (format_timestamp z)).
Proof.
  apply (entries_come_from_samples
           (sample_world 150000
              (replay
                 [http_ok (matched (song "Orbital" "Halcyon"));
                  http_ok (matched (song "Orbital" "Halcyon"));
                  http_ok no_match; http_ok no_match; http_ok no_match]))
           (lit "u") 30 (not_found_track 30 90)).
  right. left. reflexivity.
Defined.



(** ** Names that are text *)

Lemma normalize_track_name_plain (artist title : pyval) :
  plain_name artist = true -> plain_name title = true ->
  exists key, normalize_track_name artist title = Ok key.
Proof.
  destruct artist; try discriminate; destruct title; try discriminate;
    intros _ _; unfold normalize_track_name; simpl truthy.
  - now eexists.
  - now eexists.
  - destruct s; now eexists.
  - destruct s as [|x s]; [now eexists|].
    destruct s0 as [|y s0]; now eexists.
Qed.

Lemma tracks_are_similar_plain (a1 t1 a2 t2 : pyval) :
  plain_name a1 = true -> plain_name t1 = true ->
  plain_name a2 = true -> plain_name t2 = true ->
  exists b, tracks_are_similar a1 t1 a2 t2 = Ok b.
Proof.
  intros H1 H2 H3 H4. unfold tracks_are_similar.
  destruct (normalize_track_name_plain a1 t1 H1 H2) as (k1 & ->).
  destruct (normalize_track_name_plain a2 t2 H3 H4) as (k2 & ->).
  now eexists.
Qed.

Lemma scan_step_plain (segment_duration : Z) (st : loop_state)
    (start_time : Z) (result : dict) :
  (found result = true ->
   plain_name (dict_get result "artist" (PStr [])) = true
   /\ plain_name (dict_get result "title" (PStr [])) = true) ->
  last_names_plain st ->
  exists st',
    scan_step segment_duration st start_time result = Ok st'
    /\ last_names_plain st'.
Proof.
  intros Hres Hlast. destruct (found result) eqn:F.
  - destruct (Hres eq_refl) as [Ha Ht].
    assert (Hnew : last_names_plain
                     (append_track st (identified_track start_time result)
                        0)).
    { intros _. split; assumption. }
    destruct (last_track st) as [last|] eqn:El.
    + destruct (is_identified last) eqn:Ei.
      * rewrite (scan_step_found_after _ _ _ _ _ F El
                   (identified_some_track _ Ei) Ei).
        unfold last_names_plain in Hlast. rewrite El in Hlast.
        destruct (Hlast Ei) as [Hla Hlt].
        destruct (tracks_are_similar_plain _ _ _ _ Hla Hlt Ha Ht)
          as (b & ->).
        destruct b; cbn [bind negb].
        -- exists st. split; [reflexivity|].
           unfold last_names_plain. rewrite El. exact Hlast.
        -- eexists. split; [reflexivity | exact Hnew].
      * rewrite (scan_step_found_fresh _ st _ _ F).
        -- eexists. split; [reflexivity | exact Hnew].
        -- now rewrite El.
    + rewrite (scan_step_found_fresh _ st _ _ F).
      * eexists. split; [reflexivity | exact Hnew].
      * now rewrite El.
  - rewrite (scan_step_miss _ _ _ _ F).
    eexists. split; [reflexivity|].
    destruct (_ && _).
    + intros H. discriminate H.
    + exact Hlast.
Qed.

Lemma scan_plain (segment_duration : Z) (provider : nat -> outcome) :
  (forall i,
      found (identify_segment (provider i)) = true ->
      plain_name (dict_get (identify_segment (provider i)) "artist"
                    (PStr [])) = true
      /\ plain_name (dict_get (identify_segment (provider i)) "title"
                       (PStr [])) = true) ->
  forall (starts : list Z) (i : nat) (st : loop_state) (position : Z),
    last_names_plain st ->
    snd (scan segment_duration provider i starts st position) = None.
Proof.
  intros Hres. induction starts as [|t starts IH];
    intros i st position Hlast; [reflexivity|].
  cbn [scan].
  destruct (scan_step_plain segment_duration st t
              (identify_segment (provider i)) (Hres i) Hlast)
    as (st' & -> & Hlast').
  now apply IH.
Qed.

(** X4.  When the provider gives the artist and the title of every match
    as a string or as [null], no iteration of the loop raises: a job whose
    audio downloads and decodes and whose stride is not 0 completes. *)
Theorem plain_names_never_abort (w : world) (url : str) (info : pyval)
    (len_audio : N) (segment_duration : Z) :
  download_audio w = Ok info ->
  audio_file_exists w = true ->
  from_mp3 w = Ok len_audio ->
  segment_duration <> 0%Z ->
  (forall i,
      found (identify_segment (provider w i)) = true ->
      plain_name (dict_get (identify_segment (provider w i)) "artist"
                    (PStr [])) = true
      /\ plain_name (dict_get (identify_segment (provider w i)) "title"
                       (PStr [])) = true) ->
  Job.status (process_set w url segment_duration) = lit "completed".
Proof.
  intros Hd He Hm Hseg Hres.
  unfold process_set. rewrite Hd, He, Hm. simpl negb. cbv iota.
  apply Z.eqb_neq in Hseg. rewrite Hseg.
  pose proof (scan_plain segment_duration (provider w) Hres
                (py_range (Z.of_N len_audio / 1000) segment_duration) 0
                initial_state 0%Z I) as H.
  destruct (scan _ _ _ _ _ _) as ((st & position) & raised).
  simpl in H. subst raised. reflexivity.
Qed.

(** A set whose samples all give a match without artist. *)
Lemma plain_names_never_abort_witness :
  Job.status
    (process_set
       (sample_world 95000
          (always
             (http_ok (matched [("title", PStr (lit "Halcyon"))]%string))))
       (lit "u") 30)
  = lit "completed".
Proof.
  apply (plain_names_never_abort
           (sample_world 95000
              (always
                 (http_ok
                    (matched [("title", PStr (lit "Halcyon"))]%string))))
           (lit "u") sample_info 95000 30 eq_refl eq_refl eq_refl).
  - discriminate.
  - intros i _. split; reflexivity.
Defined.

(** X5.  With a negative stride the scan has no sample: a job whose audio
    downloads and decodes completes at once, with no entry and the
    position 0. *)
Theorem negative_stride_scans_nothing (w : world) (url : str)
    (info : pyval) (len_audio : N) (segment_duration : Z) :
  download_audio w = Ok info ->
  audio_file_exists w = true ->
  from_mp3 w = Ok len_audio ->
  (segment_duration < 0)%Z ->
  process_set w url segment_duration
  = {| Job.status := lit "completed";
       Job.message := lit "Completado!";
       Job.url := url;
       Job.tracks := [];
       Job.set_info := info;
       Job.total_duration := (Z.of_N len_audio / 1000)%Z;
       Job.current_position := 0 |}.
Proof.
  intros Hd He Hm Hseg.
  unfold process_set. rewrite Hd, He, Hm. simpl negb. cbv iota.
  replace (segment_duration =? 0)%Z with false
    by (symmetry; apply Z.eqb_neq; lia).
  rewrite (py_range_negative _ _ Hseg). reflexivity.
Qed.

(** One hour of audio scanned with the stride -30. *)
Lemma negative_stride_scans_nothing_witness :
  Job.tracks
    (process_set
       (sample_world 3600000
          (always (http_ok (matched (song "Orbital" "Halcyon")))))
       (lit "u") (-30))
  = [].
Proof.
  rewrite (negative_stride_scans_nothing
             (sample_world 3600000
                (always (http_ok (matched (song "Orbital" "Halcyon")))))
             (lit "u") sample_info 3600000 (-30)
             eq_refl eq_refl eq_refl eq_refl).
  reflexivity.
Defined.

(** X6.  A hit after a gap entry opens a new entry without the comparator
    being asked: a hit, two misses and a hit give three entries, the
    identified entry of the first sample, the gap at the start of the
    second and the identified entry of the fourth, also when the fourth
    sample is the song of the first. *)
Theorem same_song_again_after_gap (segment_duration : Z)
    (provider : nat -> outcome) :
  found (identify_segment (provider 0)) = true ->
  found (identify_segment (provider 1)) = false ->
  found (identify_segment (provider 2)) = false ->
  found (identify_segment (provider 3)) = true ->
  exists st,
    scan segment_duration provider 0 (starts_from segment_duration 0 4)
      initial_state 0
    = (st, (3 * segment_duration)%Z, None)
    /\ tracks st
       = [identified_track 0 (identify_segment (provider 0));
          not_found_track segment_duration (2 * segment_duration);
          identified_track (3 * segment_duration)
            (identify_segment (provider 3))].
Proof.
  intros H0 H1 H2 H3.
  pose (st1 := append_track initial_state
                 (identified_track 0 (identify_segment (provider 0))) 0).
  pose (st2 := {| tracks := tracks st1; last_track := last_track st1;
                  consecutive_not_found := 1 |}).
  pose (st3 := append_track st2
                 (not_found_track segment_duration (2 * segment_duration))
                 2).
  assert (S1 : scan_step segment_duration initial_state 0
                 (identify_segment (provider 0)) = Ok st1).
  { now rewrite (scan_step_found_fresh _ initial_state _ _ H0 I). }
  assert (S2 : scan_step segment_duration st1 (1 * segment_duration)
                 (identify_segment (provider 1)) = Ok st2).
  { rewrite (scan_step_miss _ _ _ _ H1). reflexivity. }
  assert (S3 : scan_step segment_duration st2 (2 * segment_duration)
                 (identify_segment (provider 2)) = Ok st3).
  { rewrite (scan_step_miss _ _ _ _ H2). reflexivity. }
  assert (S4 : scan_step segment_duration st3 (3 * segment_duration)
                 (identify_segment (provider 3))
               = Ok (append_track st3
                       (identified_track (3 * segment_duration)
                          (identify_segment (provider 3))) 0)).
  { now rewrite (scan_step_found_fresh _ st3 _ _ H3 eq_refl). }
  change (starts_from segment_duration 0 4)
    with [0; 1 * segment_duration; 2 * segment_duration;
          3 * segment_duration]%Z.
  cbn [scan]. rewrite S1, S2, S3, S4.
  eexists. split; reflexivity.
Qed.

(** The same match at 0 and at 90 with nothing found in between. *)
Lemma same_song_again_after_gap_witness :
  exists st,
    scan 30
      (replay
         [http_ok (matched (song "Orbital" "Halcyon"));
          http_ok no_match; http_ok no_match;
          http_ok (matched (song "Orbital" "Halcyon"))])
      0 (starts_from 30 0 4) initial_state 0
    = (st, (3 * 30)%Z, None)
    /\ tracks st
       = [identified_track 0
            (identify_segment (http_ok (matched (song "Orbital" "Halcyon"))));
          not_found_track 30 (2 * 30);
          identified_track (3 * 30)
            (identify_segment
               (http_ok (matched (song "Orbital" "Halcyon"))))].
Proof.
  apply (same_song_again_after_gap 30
           (replay
              [http_ok (matched (song "Orbital" "Halcyon"));
               http_ok no_match; http_ok no_match;
               http_ok (matched (song "Orbital" "Halcyon"))]));
    reflexivity.
Defined.

(** * Further properties of the provider adapter *)

Lemma bind_ok {A B : Type} (c : res A) (k : A -> res B) (b : B) :
  bind c k = Ok b -> exists a, c = Ok a /\ k a = Ok b.
Proof. destruct c as [a|e]; simpl; [eauto | discriminate]. Qed.

Lemma py_get_ok (v : pyval) (k : string) (default x : pyval) :
  py_get v k default = Ok x ->
  exists d, v = PDict d /\ x = dict_get d k default.
Proof.
  destruct v; simpl; try discriminate.
  intros H. inversion H. eauto.
Qed.

(** A key whose value is true is in the dictionary: the default of [get]
    plays no part. *)
Lemma dict_get_truthy (d : dict) (k : string) (default : pyval) :
  truthy (dict_get d k PNone) = true ->
  dict_get d k default = dict_get d k PNone.
Proof.
  unfold dict_get. destruct (lookup d k); [reflexivity | discriminate].
Qed.

Lemma success_not_error (v : pyval) :
  eq_text v "success" = true -> eq_text v "error" = false.
Proof. intros H. apply eq_text_inv in H. now subst. Qed.

(** X7.  A result with [found = True] is only returned for a response
    whose body is a JSON object with the status ["success"] and a
    non-empty object as ["result"]; it then has the seven keys of a match,
    and its title, artist and album are those of that object, [None] for
    the ones that are missing. *)
Theorem found_only_for_success (o : outcome) :
  found (identify_segment o) = true ->
  exists (code : Z) (body track : dict)
         (spotify_url apple_music_url deezer_url : pyval),
    o = Responded {| status_code := code; json := Ok (PDict body) |}
    /\ eq_text (dict_get body "status" PNone) "success" = true
    /\ dict_get body "result" PNone = PDict track
    /\ track <> []
    /\ identify_segment o
       = [ ("found", PBool true);
           ("title", dict_get track "title" PNone);
           ("artist", dict_get track "artist" PNone);
           ("album", dict_get track "album" PNone);
           ("spotify_url", spotify_url);
           ("apple_music_url", apple_music_url);
           ("deezer_url", deezer_url) ]%string.
Proof.
  unfold identify_segment.
  destruct (identify_segment_try o) as [result|e] eqn:E;
    [|discriminate].
  intros Hf. destruct o as [e|[code [v|e]]]; try discriminate.
  unfold identify_segment_try in E. cbn [json bind] in E.
  apply bind_ok in E as (status & Hst & E).
  apply py_get_ok in Hst as (body & -> & ->).
  destruct (eq_text (dict_get body "status" PNone) "error") eqn:Eerr.
  { cbn [py_get bind] in E. inversion E; subst. discriminate. }
  destruct (eq_text (dict_get body "status" PNone) "success") eqn:Esucc.
  2:{ cbn [bind truthy] in E. inversion E; subst. discriminate. }
  cbn [py_get bind] in E.
  destruct (truthy (dict_get body "result" PNone)) eqn:Etr.
  2:{ inversion E; subst. discriminate. }
  apply bind_ok in E as (title & Ht & E).
  apply py_get_ok in Ht as (track & Hres & ->).
  rewrite Hres in E. cbn [py_get bind] in E.
  apply bind_ok in E as (spotify_url & _ & E).
  apply bind_ok in E as (apple_music_url & _ & E).
  cbn [py_get bind] in E.
  apply bind_ok in E as (id & _ & E).
  inversion E; subst result; clear E.
  exists code, body, track, spotify_url, apple_music_url.
  eexists. split; [reflexivity|]. split; [exact Esucc|].
  split; [exact Hres|]. split; [|reflexivity].
  intros ->. rewrite Hres in Etr. discriminate.
Qed.

(** The match of the sample set. *)
Lemma found_only_for_success_witness :
  exists (code : Z) (body track : dict)
         (spotify_url apple_music_url deezer_url : pyval),
    http_ok (matched (song "Orbital" "Halcyon"))
    = Responded {| status_code := code; json := Ok (PDict body) |}
    /\ eq_text (dict_get body "status" PNone) "success" = true
    /\ dict_get body "result" PNone = PDict track
    /\ track <> []
    /\ identify_segment (http_ok (matched (song "Orbital" "Halcyon")))
       = [ ("found", PBool true);
           ("title", dict_get track "title" PNone);
           ("artist", dict_get track "artist" PNone);
           ("album", dict_get track "album" PNone);
           ("spotify_url", spotify_url);
           ("apple_music_url", apple_music_url);
           ("deezer_url", deezer_url) ]%string.
Proof.
  apply (found_only_for_success
           (http_ok (matched (song "Orbital" "Halcyon")))).
  reflexivity.
Defined.

(** X8.  For a body with the status ["success"] and a non-empty object as
    ["result"], whatever the status code, the call returns [found = True]
    with the title, artist and album of the object whenever the three
    link fields can be read: ["spotify"] and ["apple_music"] false or
    objects (["external_urls"] absent or an object), ["deezer"] absent or
    an object.  A link is [None] when its field or the value inside is
    missing; the Deezer link is the track address followed by the id. *)
Theorem match_with_readable_links (code : Z) (body track : dict)
    (spotify_url apple_music_url deezer_url : pyval) :
  eq_text (dict_get body "status" PNone) "success" = true ->
  dict_get body "result" PNone = PDict track ->
  track <> [] ->
  spotify_gives track spotify_url ->
  apple_music_gives track apple_music_url ->
  deezer_gives track deezer_url ->
  identify_segment
    (Responded {| status_code := code; json := Ok (PDict body) |})
  = [ ("found", PBool true);
      ("title", dict_get track "title" PNone);
      ("artist", dict_get track "artist" PNone);
      ("album", dict_get track "album" PNone);
      ("spotify_url", spotify_url);
      ("apple_music_url", apple_music_url);
      ("deezer_url", deezer_url) ]%string.
Proof.
  intros Hs Hr Hne Hsp Ham Hdz.
  assert (Htr : truthy (PDict track) = true)
    by (destruct track; [congruence | reflexivity]).
  unfold identify_segment, identify_segment_try. cbn [json bind py_get].
  rewrite (success_not_error _ Hs), Hs. cbn [bind py_get].
  rewrite Hr, Htr. cbn [bind py_get].
  assert (Esp : (if truthy (dict_get track "spotify" PNone)
                 then
                   external_urls <-
                     py_get (dict_get track "spotify" (PDict []))
                       "external_urls" (PDict []) ;;
                   py_get external_urls "spotify" PNone
                 else Ok PNone)
                = Ok spotify_url).
  { destruct Hsp as [Hf | spotify eu Hd Hn He].
    - now rewrite Hf.
    - assert (Ht : truthy (dict_get track "spotify" PNone) = true).
      { rewrite Hd. destruct spotify; [congruence | reflexivity]. }
      rewrite Ht, (dict_get_truthy _ _ _ Ht), Hd.
      cbn [bind py_get]. rewrite He. reflexivity. }
  assert (Eam : (if truthy (dict_get track "apple_music" PNone)
                 then
                   py_get (dict_get track "apple_music" (PDict []))
                     "url" PNone
                 else Ok PNone)
                = Ok apple_music_url).
  { destruct Ham as [Hf | apple_music Hd Hn].
    - now rewrite Hf.
    - assert (Ht : truthy (dict_get track "apple_music" PNone) = true).
      { rewrite Hd. destruct apple_music; [congruence | reflexivity]. }
      rewrite Ht, (dict_get_truthy _ _ _ Ht), Hd. reflexivity. }
  rewrite Esp. cbn [bind]. rewrite Eam. cbn [bind].
  destruct Hdz as [deezer Hd]. rewrite Hd. reflexivity.
Qed.

(** A match with a Spotify link, no Apple Music field and a Deezer id. *)
Lemma match_with_readable_links_witness :
  identify_segment
    (Responded
       {| status_code := 200;
          json :=
            Ok (matched
                  [("title", PStr (lit "Halcyon"));
                   ("artist", PStr (lit "Orbital"));
                   ("spotify",
                     PDict [("external_urls",
                              PDict [("spotify",
                                       PStr (lit "https://open.spotify.com/track/1"))])]);
                   ("deezer", PDict [("id", PInt 3135556)])]%string) |})
  = [ ("found", PBool true);
      ("title", PStr (lit "Halcyon"));
      ("artist", PStr (lit "Orbital"));
      ("album", PNone);
      ("spotify_url", PStr (lit "https://open.spotify.com/track/1"));
      ("apple_music_url", PNone);
      ("deezer_url", PStr (lit "https://www.deezer.com/track/3135556")) ]%string.
Proof.
  apply (match_with_readable_links 200
           [("status", PStr (lit "success"));
            ("result",
              PDict [("title", PStr (lit "Halcyon"));
                     ("artist", PStr (lit "Orbital"));
                     ("spotify",
                       PDict [("external_urls",
                                PDict [("spotify",
                                         PStr (lit "https://open.spotify.com/track/1"))])]);
                     ("deezer", PDict [("id", PInt 3135556)])])]%string
           [("title", PStr (lit "Halcyon"));
            ("artist", PStr (lit "Orbital"));
            ("spotify",
              PDict [("external_urls",
                       PDict [("spotify",
                                PStr (lit "https://open.spotify.com/track/1"))])]);
            ("deezer", PDict [("id", PInt 3135556)])]%string
           (PStr (lit "https://open.spotify.com/track/1")) PNone
           (PStr (lit "https://www.deezer.com/track/3135556"))
           eq_refl eq_refl).
  - discriminate.
  - apply (spotify_object _
             [("external_urls",
                PDict [("spotify",
                         PStr (lit "https://open.spotify.com/track/1"))])]%string
             [("spotify",
                PStr (lit "https://open.spotify.com/track/1"))]%string);
      [reflexivity | discriminate | reflexivity].
  - apply apple_music_false. reflexivity.
  - apply (deezer_object _ [("id", PInt 3135556)]%string). reflexivity.
Defined.

(** * The fields of an identified entry *)

Lemma tracks_from_samples (w : world) (url : str) (segment_duration : Z)
    (t : dict) :
  In t (Job.tracks (process_set w url segment_duration)) ->
  exists i, entry_of_sample segment_duration (provider w) i t.
Proof.
  unfold process_set.
  destruct (download_audio w) as [info|]; [|intros []].
  destruct (audio_file_exists w); [|intros []]. simpl negb. cbv iota.
  destruct (from_mp3 w) as [len_audio|]; [|intros []].
  destruct (segment_duration =? 0)%Z eqn:E0; [intros []|].
  apply Z.eqb_neq in E0.
  assert (H : In t (tracks
                      (fst (fst (scan segment_duration (provider w) 0
                                   (py_range (Z.of_N len_audio / 1000)
                                      segment_duration)
                                   initial_state 0)))) ->
              exists i, entry_of_sample segment_duration (provider w) i t).
  { destruct (Z.lt_total segment_duration 0) as [Hneg | [H0 | Hpos]].
    - rewrite (py_range_negative _ _ Hneg). intros [].
    - contradiction.
    - intros Hin. unfold py_range in Hin.
      replace (0 <? segment_duration)%Z with true in Hin
        by (symmetry; now apply Z.ltb_lt).
      pose proof (scan_scanned segment_duration (provider w)
                    (Z.to_nat ((Z.of_N len_audio / 1000
                                + segment_duration - 1)
                               / segment_duration))
                    0 initial_state 0%Z) as [Hs _].
      { split; [constructor | simpl; lia]. }
      rewrite Forall_forall in Hs.
      destruct (Hs t Hin) as (i & _ & He). now exists i. }
  destruct (scan _ _ _ _ _ _) as ((st & position) & [e|]); exact H.
Qed.

(** What a result with [found = True] holds of the response. *)
Lemma identify_segment_hit (o : outcome) :
  found (identify_segment o) = true ->
  exists (code : Z) (body track : dict),
    o = Responded {| status_code := code; json := Ok (PDict body) |}
    /\ eq_text (dict_get body "status" PNone) "success" = true
    /\ dict_get body "result" PNone = PDict track
    /\ dict_get (identify_segment o) "title" (PStr [])
       = dict_get track "title" PNone
    /\ dict_get (identify_segment o) "artist" (PStr [])
       = dict_get track "artist" PNone
    /\ dict_get (identify_segment o) "album" PNone
       = dict_get track "album" PNone.
Proof.
  unfold identify_segment.
  destruct (identify_segment_try o) as [result|e] eqn:E;
    [|discriminate].
  intros Hf. destruct o as [e|[code [v|e]]]; try discriminate.
  unfold identify_segment_try in E. cbn [json bind] in E.
  apply bind_ok in E as (status & Hst & E).
  apply py_get_ok in Hst as (body & -> & ->).
  destruct (eq_text (dict_get body "status" PNone) "error") eqn:Eerr.
  { cbn [py_get bind] in E. inversion E; subst. discriminate. }
  destruct (eq_text (dict_get body "status" PNone) "success") eqn:Esucc.
  2:{ cbn [bind truthy] in E. inversion E; subst. discriminate. }
  cbn [py_get bind] in E.
  destruct (truthy (dict_get body "result" PNone)) eqn:Etr.
  2:{ inversion E; subst. discriminate. }
  apply bind_ok in E as (title & Ht & E).
  apply py_get_ok in Ht as (track & Hres & ->).
  rewrite Hres in E. cbn [py_get bind] in E.
  apply bind_ok in E as (spotify_url & _ & E).
  apply bind_ok in E as (apple_music_url & _ & E).
  cbn [py_get bind] in E.
  apply bind_ok in E as (id & _ & E).
  inversion E; subst result; clear E.
  exists code, body, track.
  split; [reflexivity|]. split; [exact Esucc|].
  split; [exact Hres|]. repeat split.
Qed.

(** C7, amended.  Every entry of the track list of a job is identified or
    a gap; a gap has no title, no artist and no album, so an entry with
    one of the three is identified.  An identified entry carries the
    title, the artist and the album that the provider returned for one of
    the samples: the values under these keys in the ["result"] object of
    a response with the status ["success"], [None] for a key that the
    object lacks. *)
Theorem metadata_only_if_identified (w : world) (url : str)
    (segment_duration : Z) (t : dict) :
  In t (Job.tracks (process_set w url segment_duration)) ->
  (is_identified t = true \/ is_not_found t = true)
  /\ (is_not_found t = true ->
      present t "title" = false /\ present t "artist" = false
      /\ present t "album" = false)
  /\ (present t "title" = true \/ present t "artist" = true
      \/ present t "album" = true ->
      is_identified t = true)
  /\ (is_identified t = true ->
      exists (i : nat) (code : Z) (body track : dict),
        provider w i
        = Responded {| status_code := code; json := Ok (PDict body) |}
        /\ eq_text (dict_get body "status" PNone) "success" = true
        /\ dict_get body "result" PNone = PDict track
        /\ lookup t "title" = Some (dict_get track "title" PNone)
        /\ lookup t "artist" = Some (dict_get track "artist" PNone)
        /\ lookup t "album" = Some (dict_get track "album" PNone)).
Proof.
  intros Hin.
  destruct (tracks_from_samples w url segment_duration t Hin)
    as (i & [(Hf & ->) | (Hf & Hi & ->)]).
  - split; [left; reflexivity|].
    split; [discriminate|]. split; [reflexivity|]. intros _.
    destruct (identify_segment_hit _ Hf)
      as (code & body & track & Ho & Hs & Hr & Ht & Ha & Hb).
    exists i, code, body, track.
    split; [exact Ho|]. split; [exact Hs|]. split; [exact Hr|].
    unfold identified_track.
    cbn [lookup String.eqb Ascii.eqb Bool.eqb].
    rewrite Ht, Ha, Hb. repeat split.
  - split; [right; reflexivity|].
    split; [intros _; repeat split|].
    split; [|discriminate].
    intros [H1 | [H1 | H1]]; discriminate.
Qed.

(** The entry of a set of one sample, for a match that has no album. *)
Lemma metadata_only_if_identified_witness :
  let o := http_ok (matched (song "Orbital" "Halcyon")) in
  let t := identified_track 0 (identify_segment o) in
  (is_identified t = true \/ is_not_found t = true)
  /\ (is_not_found t = true ->
      present t "title" = false /\ present t "artist" = false
      /\ present t "album" = false)
  /\ (present t "title" = true \/ present t "artist" = true
      \/ present t "album" = true ->
      is_identified t = true)
  /\ (is_identified t = true ->
      exists (i : nat) (code : Z) (body track : dict),
        provider (sample_world 20000 (always o)) i
        = Responded {| status_code := code; json := Ok (PDict body) |}
        /\ eq_text (dict_get body "status" PNone) "success" = true
        /\ dict_get body "result" PNone = PDict track
        /\ lookup t "title" = Some (dict_get track "title" PNone)
        /\ lookup t "artist" = Some (dict_get track "artist" PNone)
        /\ lookup t "album" = Some (dict_get track "album" PNone)).
Proof.
  intros o t.
  apply (metadata_only_if_identified (sample_world 20000 (always o))
           (lit "u") 30 t).
  left. reflexivity.
Defined.

(** C7 as stated fails from identified to present: the provider sent a
    match without an album, and the identified entry has none. *)
Lemma metadata_only_if_identified_counterexample :
  Job.tracks
    (process_set
       (sample_world 20000
          (always (http_ok (matched (song "Orbital" "Halcyon")))))
       (lit "u") 30)
  = [identified_track 0
       (identify_segment (http_ok (matched (song "Orbital" "Halcyon"))))]
  /\ is_identified
       (identified_track 0
          (identify_segment (http_ok (matched (song "Orbital" "Halcyon")))))
     = true
  /\ present
       (identified_track 0
          (identify_segment (http_ok (matched (song "Orbital" "Halcyon")))))
       "title"
     = true
  /\ present
       (identified_track 0
          (identify_segment (http_ok (matched (song "Orbital" "Halcyon")))))
       "album"
     = false.
Proof. repeat split. Qed.

(** * Further properties of the normaliser and of the comparator *)

Section Keys.

Import PyStr.

Lemma lower_idempotent (s : str) : lower (lower s) = lower s.
Proof.
  unfold lower. rewrite map_map. apply map_ext.
  apply lower_char_idempotent.
Qed.

Lemma normalize_text_lower (artist title : str) :
  normalize_text (lower artist) (lower title) = normalize_text artist title.
Proof. unfold normalize_text. now rewrite !lower_idempotent. Qed.

Lemma lower_nonempty (s : str) : s <> [] -> lower s <> [].
Proof. destruct s; [congruence | discriminate]. Qed.

(** A text without hyphen has no separator in it. *)
(** Where the separator starts, the next character is the hyphen. *)
Lemma startswith_separator (s : str) :
  startswith (lit " - ") s = true ->
  exists x r, s = x :: "-"%char :: r.
Proof.
  change (lit " - ") with [" "%char; "-"%char; " "%char].
  destruct s as [|x [|y s]]; cbn [startswith]; try discriminate.
  - now rewrite andb_false_r.
  - intros H. apply andb_prop in H as [_ H].
    apply andb_prop in H as [H _]. apply Ascii.eqb_eq in H. subst y.
    now exists x, s.
Qed.

Lemma split_on_no_separator (s : str) :
  ~ In "-"%char s -> split_on (lit " - ") 0 s = [s].
Proof.
  induction s as [|x s IH]; intros Hno; [reflexivity|].
  cbn [split_on].
  destruct (startswith (lit " - ") (x :: s)) eqn:E.
  - apply startswith_separator in E as (x' & r & E).
    elim Hno. rewrite E. right. now left.
  - rewrite IH; [reflexivity|]. intros H. apply Hno. now right.
Qed.

(** [split(" - ")] on a key gives its two parts. *)
Lemma split_on_key (a t : str) :
  ~ In "-"%char a -> ~ In "-"%char t ->
  split_on (lit " - ") 0 (a ++ lit " - " ++ t) = [a; t].
Proof.
  intros Ha Ht. induction a as [|x a IH].
  - change ([] ++ lit " - " ++ t)
      with (" "%char :: "-"%char :: " "%char :: t).
    cbn [split_on].
    replace (startswith (lit " - ")
               (" "%char :: "-"%char :: " "%char :: t))
      with true by reflexivity.
    change (List.length (lit " - ") - 1) with 2.
    cbn [split_on].
    now rewrite (split_on_no_separator t Ht).
  - change ((x :: a) ++ lit " - " ++ t) with (x :: a ++ lit " - " ++ t).
    cbn [split_on].
    destruct (startswith (lit " - ") (x :: a ++ lit " - " ++ t)) eqn:E.
    + exfalso. apply startswith_separator in E as (x' & r & E).
      destruct a as [|y a].
      * discriminate E.
      * inversion E; subst. apply Ha. right. now left.
    + rewrite IH; [reflexivity|]. intros H. apply Ha. now right.
Qed.

Lemma contains_key (a t : str) :
  contains (lit " - ") (a ++ lit " - " ++ t) = true.
Proof.
  induction a as [|x a IH].
  - reflexivity.
  - change ((x :: a) ++ lit " - " ++ t) with (x :: a ++ lit " - " ++ t).
    cbn [contains]. rewrite IH. apply orb_true_r.
Qed.

(** The title part that the comparator takes from a key is the normalised
    title. *)
Lemma title_of_key_parts (a t : str) :
  normal_form a -> normal_form t ->
  title_of_key (a ++ lit " - " ++ t) = t.
Proof.
  intros Ha Ht. unfold title_of_key, split_last.
  rewrite contains_key, split_on_key; [reflexivity| |];
    apply normal_form_no; auto; try reflexivity; discriminate.
Qed.

End Keys.

(** X9.  The key of two non-empty texts is the normalised artist, the
    separator [" - "] and the normalised title.  Each of the two parts is
    made of runs of lower-case word characters with single blanks between
    them, so the key has no punctuation but its one hyphen, and the title
    part that the comparator splits off the key is the normalised
    title. *)
Theorem key_is_artist_and_title (artist title : str) :
  artist <> [] ->
  title <> [] ->
  normalize_track_name (PStr artist) (PStr title)
  = Ok (norm_artist artist ++ lit " - " ++ norm_title title)
  /\ normal_form (norm_artist artist)
  /\ normal_form (norm_title title)
  /\ title_of_key (norm_artist artist ++ lit " - " ++ norm_title title)
     = norm_title title
  /\ forall c,
       In c (norm_artist artist ++ lit " - " ++ norm_title title) ->
       (PyStr.isword c = true /\ PyStr.lower_char c = c)
       \/ c = " "%char \/ c = "-"%char.
Proof.
  intros Ha Ht.
  pose proof (norm_artist_normal_form artist) as Hna.
  pose proof (norm_title_normal_form title) as Hnt.
  split.
  { now rewrite normalize_track_name_text, normalize_text_parts. }
  split; [exact Hna|]. split; [exact Hnt|].
  split; [now apply title_of_key_parts|].
  intros c Hin. apply in_app_or in Hin as [Hin | Hin].
  - destruct (normal_form_chars _ _ Hna Hin) as [H | H];
      [left; exact H | right; left; exact H].
  - apply in_app_or in Hin as [Hin | Hin].
    + destruct Hin as [<- | [<- | [<- | []]]];
        [right; left | right; right | right; left]; reflexivity.
    + destruct (normal_form_chars _ _ Hnt Hin) as [H | H];
        [left; exact H | right; left; exact H].
Qed.

(** The key of a title with punctuation and a bracketed annotation. *)
Lemma key_is_artist_and_title_witness :
  normalize_track_name (PStr (lit "Daft Punk"))
    (PStr (lit "Harder, Better, Faster, Stronger [Live]"))
  = Ok (norm_artist (lit "Daft Punk") ++ lit " - "
        ++ norm_title (lit "Harder, Better, Faster, Stronger [Live]")).
Proof.
  apply (key_is_artist_and_title (lit "Daft Punk")
           (lit "Harder, Better, Faster, Stronger [Live]"));
    discriminate.
Defined.

(** X10.  Upper and lower case make no difference: the lower-cased names
    have the key of the names themselves, and the comparator calls the two
    pairs similar. *)
Theorem case_is_ignored (artist title : str) :
  artist <> [] ->
  title <> [] ->
  normalize_track_name (PStr (PyStr.lower artist)) (PStr (PyStr.lower title))
  = normalize_track_name (PStr artist) (PStr title)
  /\ tracks_are_similar (PStr artist) (PStr title)
       (PStr (PyStr.lower artist)) (PStr (PyStr.lower title))
     = Ok true.
Proof.
  intros Ha Ht.
  assert (E : normalize_track_name (PStr (PyStr.lower artist))
                (PStr (PyStr.lower title))
              = normalize_track_name (PStr artist) (PStr title)).
  { rewrite !normalize_track_name_text;
      auto using lower_nonempty.
    now rewrite normalize_text_lower. }
  split; [exact E|].
  unfold tracks_are_similar. rewrite E.
  rewrite (normalize_track_name_text _ _ Ha Ht). cbn [bind].
  rewrite similar_keys_refl; [reflexivity|].
  destruct (normalize_text_shape artist title) as (a & t & ->).
  destruct a; discriminate.
Qed.

Lemma case_is_ignored_witness :
  tracks_are_similar (PStr (lit "ORBITAL")) (PStr (lit "Halcyon On And On"))
    (PStr (lit "orbital")) (PStr (lit "halcyon on and on"))
  = Ok true.
Proof.
  apply (case_is_ignored (lit "ORBITAL") (lit "Halcyon On And On"));
    discriminate.
Defined.

Lemma similar_keys_nonempty (norm1 norm2 : str) :
  similar_keys norm1 norm2 = true -> norm1 <> [] /\ norm2 <> [].
Proof.
  destruct norm1; [discriminate|]. destruct norm2; [discriminate|].
  intros _. split; discriminate.
Qed.

Lemma normalize_track_name_nonempty (artist title : pyval) (key : str) :
  normalize_track_name artist title = Ok key ->
  key <> [] ->
  exists a t, artist = PStr a /\ title = PStr t /\ a <> [] /\ t <> [].
Proof.
  unfold normalize_track_name.
  destruct (negb (truthy artist) || negb (truthy title)) eqn:G.
  - intros H Hk. inversion H. congruence.
  - apply orb_false_elim in G as [Ga Gt].
    apply negb_false_iff in Ga, Gt.
    destruct artist; try (intros; discriminate).
    destruct title; try (intros; discriminate).
    intros _ _. exists s, s0.
    repeat split; intros ->; discriminate.
Qed.

(** X11.  The comparator answers [True] only for four non-empty texts: a
    pair with an empty, [null] or missing artist or title is similar to
    nothing, not even to itself. *)
Theorem similar_only_nonempty_texts (a1 t1 a2 t2 : pyval) :
  tracks_are_similar a1 t1 a2 t2 = Ok true ->
  exists artist1 title1 artist2 title2 : str,
    a1 = PStr artist1 /\ t1 = PStr title1
    /\ a2 = PStr artist2 /\ t2 = PStr title2
    /\ artist1 <> [] /\ title1 <> [] /\ artist2 <> [] /\ title2 <> [].
Proof.
  unfold tracks_are_similar. intros H.
  apply bind_ok in H as (k1 & H1 & H).
  apply bind_ok in H as (k2 & H2 & H).
  inversion H as [Hs]. apply similar_keys_nonempty in Hs as [Hk1 Hk2].
  destruct (normalize_track_name_nonempty _ _ _ H1 Hk1)
    as (x1 & y1 & -> & -> & ? & ?).
  destruct (normalize_track_name_nonempty _ _ _ H2 Hk2)
    as (x2 & y2 & -> & -> & ? & ?).
  exists x1, y1, x2, y2. repeat split; assumption.
Qed.

Lemma similar_only_nonempty_texts_witness :
  exists artist1 title1 artist2 title2 : str,
    PStr (lit "Orbital") = PStr artist1
    /\ PStr (lit "Halcyon") = PStr title1
    /\ PStr (lit "Orbital") = PStr artist2
    /\ PStr (lit "Halcyon (Live)") = PStr title2
    /\ artist1 <> [] /\ title1 <> [] /\ artist2 <> [] /\ title2 <> [].
Proof.
  apply (similar_only_nonempty_texts (PStr (lit "Orbital"))
           (PStr (lit "Halcyon")) (PStr (lit "Orbital"))
           (PStr (lit "Halcyon (Live)"))).
  reflexivity.
Defined.

(** X12.  Two pairs whose titles both normalise to nothing, such as
    titles that are a bracketed annotation only, are similar whatever
    their artists: the title parts of the keys are empty, and the ratio of
    two empty texts is 1. *)
Theorem empty_titles_are_similar (artist1 title1 artist2 title2 : str) :
  artist1 <> [] -> title1 <> [] ->
  artist2 <> [] -> title2 <> [] ->
  norm_title title1 = [] ->
  norm_title title2 = [] ->
  tracks_are_similar (PStr artist1) (PStr title1)
    (PStr artist2) (PStr title2)
  = Ok true.
Proof.
  intros Ha1 Ht1 Ha2 Ht2 E1 E2. unfold tracks_are_similar.
  rewrite (normalize_track_name_text _ _ Ha1 Ht1),
    (normalize_track_name_text _ _ Ha2 Ht2), !normalize_text_parts.
  cbn [bind]. f_equal. rewrite E1, E2.
  pose proof (norm_artist_normal_form artist1) as Hn1.
  pose proof (norm_artist_normal_form artist2) as Hn2.
  assert (Hnil : normal_form []) by (exists []; split; [reflexivity|constructor]).
  pose proof (title_of_key_parts _ _ Hn1 Hnil) as T1.
  pose proof (title_of_key_parts _ _ Hn2 Hnil) as T2.
  unfold similar_keys.
  destruct (norm_artist artist1 ++ lit " - " ++ []) as [|c1 k1] eqn:K1.
  { destruct (norm_artist artist1); discriminate. }
  destruct (norm_artist artist2 ++ lit " - " ++ []) as [|c2 k2] eqn:K2.
  { destruct (norm_artist artist2); discriminate. }
  destruct (PyStr.eqb _ _); [reflexivity|].
  destruct (Qgtb (Difflib.ratio _ _) (8 # 10)); [reflexivity|].
  rewrite T1, T2. reflexivity.
Qed.

(** Two different artists, one title ["(Intro)"] and one ["[Skit]"]. *)
Lemma empty_titles_are_similar_witness :
  tracks_are_similar (PStr (lit "Orbital")) (PStr (lit "(Intro)"))
    (PStr (lit "Underworld")) (PStr (lit "[Skit]"))
  = Ok true.
Proof.
  apply (empty_titles_are_similar (lit "Orbital") (lit "(Intro)")
           (lit "Underworld") (lit "[Skit]"));
    try discriminate; reflexivity.
Defined.

(** * Neighbours are different songs *)

Lemma scan_step_told_apart (segment_duration : Z) (st st' : loop_state)
    (start_time : Z) (result : dict) :
  last_track st = last_opt (tracks st) ->
  chain told_apart (tracks st) ->
  scan_step segment_duration st start_time result = Ok st' ->
  last_track st' = last_opt (tracks st')
  /\ chain told_apart (tracks st').
Proof.
  intros Hl Hc Hstep.
  destruct (found result) eqn:F.
  - destruct (last_track st) as [last|] eqn:El.
    + destruct (is_identified last) eqn:Ei.
      * rewrite (scan_step_found_after _ _ _ _ _ F El
                   (identified_some_track _ Ei) Ei) in Hstep.
        destruct (tracks_are_similar _ _ _ _) as [[|]|e] eqn:Es;
          cbn [bind negb] in Hstep; inversion Hstep; subst; clear Hstep.
        -- rewrite El. auto.
        -- cbn [append_track tracks last_track].
           split; [now rewrite last_opt_app|].
           apply chain_app; [exact Hc|]. rewrite <- Hl.
           intros _ _. exact Es.
      * rewrite (scan_step_found_fresh _ st _ _ F) in Hstep
          by now rewrite El.
        inversion Hstep; subst; clear Hstep.
        cbn [append_track tracks last_track].
        split; [now rewrite last_opt_app|].
        apply chain_app; [exact Hc|]. rewrite <- Hl.
        intros H. congruence.
    + rewrite (scan_step_found_fresh _ st _ _ F) in Hstep
        by now rewrite El.
      inversion Hstep; subst; clear Hstep.
      cbn [append_track tracks last_track].
      split; [now rewrite last_opt_app|].
      apply chain_app; [exact Hc|]. now rewrite <- Hl.
  - rewrite (scan_step_miss _ _ _ _ F) in Hstep. inversion Hstep as [E].
    clear Hstep E. destruct (_ && _).
    + cbn [append_track tracks last_track].
      split; [now rewrite last_opt_app|].
      apply chain_app; [exact Hc|].
      destruct (last_opt (tracks st)); [|exact I].
      intros _ H. discriminate H.
    + cbn [tracks last_track]. auto.
Qed.

Lemma scan_told_apart (segment_duration : Z) (provider : nat -> outcome) :
  forall (starts : list Z) (i : nat) (st : loop_state) (position : Z),
    last_track st = last_opt (tracks st) ->
    chain told_apart (tracks st) ->
    chain told_apart
      (tracks (fst (fst (scan segment_duration provider i starts st
                           position)))).
Proof.
  induction starts as [|t starts IH]; intros i st position Hl Hc;
    [exact Hc|].
  cbn [scan]. destruct (scan_step _ _ _ _) as [st'|e] eqn:E; [|exact Hc].
  destruct (scan_step_told_apart _ _ _ _ _ Hl Hc E) as [Hl' Hc'].
  now apply IH.
Qed.

(** X13.  Two identified entries that stand next to each other in the
    track list of a job are different songs for the comparator: called on
    the artist and title of the first and of the second, it answers
    [False]. *)
Theorem neighbours_are_told_apart (w : world) (url : str)
    (segment_duration : Z) (i : nat) (t1 t2 : dict) :
  nth_error (Job.tracks (process_set w url segment_duration)) i = Some t1 ->
  nth_error (Job.tracks (process_set w url segment_duration)) (S i)
  = Some t2 ->
  is_identified t1 = true ->
  is_identified t2 = true ->
  tracks_are_similar (dict_get t1 "artist" (PStr []))
    (dict_get t1 "title" (PStr []))
    (dict_get t2 "artist" (PStr [])) (dict_get t2 "title" (PStr []))
  = Ok false.
Proof.
  intros H1 H2 Hi1 Hi2.
  assert (Hc : chain told_apart
                 (Job.tracks (process_set w url segment_duration))).
  { unfold process_set.
    destruct (download_audio w); [|exact I].
    destruct (audio_file_exists w); [|exact I]. simpl negb. cbv iota.
    destruct (from_mp3 w) as [len_audio|]; [|exact I].
    destruct (segment_duration =? 0)%Z; [exact I|].
    pose proof (scan_told_apart segment_duration (provider w)
                  (py_range (Z.of_N len_audio / 1000) segment_duration) 0
                  initial_state 0%Z eq_refl I) as H.
    destruct (scan _ _ _ _ _ _) as ((st & position) & [e|]); exact H. }
  exact (chain_nth _ _ Hc i t1 t2 H1 H2 Hi1 Hi2).
Qed.

(** The two entries of the scenario with two tracks. *)
Lemma neighbours_are_told_apart_witness :
  tracks_are_similar (PStr (lit "Orbital")) (PStr (lit "Halcyon"))
    (PStr (lit "Underworld")) (PStr (lit "Born Slippy"))
  = Ok false.
Proof.
  apply (neighbours_are_told_apart
           (sample_world 150000
              (replay
                 [http_ok (matched (song "Orbital" "Halcyon"));
                  http_ok (matched (song "Orbital" "Halcyon (Live)"));
                  http_ok (matched (song "Orbital" "Halcyon"));
                  http_ok (matched (song "Underworld" "Born Slippy"));
                  http_ok (matched (song "Underworld" "Born Slippy"))]))
           (lit "u") 30 0
           (identified_track 0
              (identify_segment
                 (http_ok (matched (song "Orbital" "Halcyon")))))
           (identified_track 90
              (identify_segment
                 (http_ok (matched (song "Underworld" "Born Slippy"))))));
    reflexivity.
Defined.

(** * Timestamps *)

Lemma read_str_of_int (z : Z) : read_int (str_of_int z) = Some z.
Proof.
  unfold read_int, str_of_int, lit.
  rewrite string_of_list_ascii_of_string.
  rewrite NilZero.isi.
  - cbn [option_map]. now rewrite DecimalZ.of_to.
  - destruct z as [|p|p]; cbn; try discriminate.
    intros [= H]. now apply (DecimalPos.Unsigned.to_uint_nonnil p).
  - destruct z as [|p|p]; cbn; try discriminate.
    intros [= H]. now apply (DecimalPos.Unsigned.to_uint_nonnil p).
Qed.

Lemma fmt_02d_small :
  forallb
    (fun n =>
       match read_int (fmt_02d (Z.of_nat n)) with
       | Some z => (z =? Z.of_nat n)%Z
       | None => false
       end
       && (List.length (fmt_02d (Z.of_nat n)) =? 2))
    (seq 0 100) = true.
Proof. vm_compute. reflexivity. Qed.

Lemma fmt_02d_below_100 (z : Z) :
  (0 <= z < 100)%Z ->
  read_int (fmt_02d z) = Some z /\ List.length (fmt_02d z) = 2.
Proof.
  intros Hz. pose proof fmt_02d_small as H.
  rewrite forallb_forall in H. specialize (H (Z.to_nat z)).
  rewrite Z2Nat.id in H by lia.
  assert (Hin : In (Z.to_nat z) (seq 0 100)) by (apply in_seq; lia).
  apply H in Hin. apply andb_true_iff in Hin. destruct Hin as [H1 H2].
  split; [|now apply Nat.eqb_eq].
  destruct (read_int (fmt_02d z)) as [y|]; [|discriminate].
  apply Z.eqb_eq in H1. now subst.
Qed.

Lemma one_char_below_100 (c : ascii) (z : Z) :
  read_int [c] = Some z -> (z < 100)%Z.
Proof.
  destruct c as [[] [] [] [] [] [] [] []]; vm_compute;
    intros H; inversion H; reflexivity.
Qed.

Lemma str_of_int_nonempty (z : Z) : str_of_int z <> [].
Proof.
  intros H. pose proof (read_str_of_int z) as R. rewrite H in R.
  discriminate R.
Qed.

Lemma read_fmt_02d (z : Z) : (0 <= z)%Z -> read_int (fmt_02d z) = Some z.
Proof.
  intros Hz. destruct (Z_lt_le_dec z 100) as [Hlt|Hge].
  - apply fmt_02d_below_100. lia.
  - unfold fmt_02d. cbv zeta.
    destruct (List.length (str_of_int z) <? 2) eqn:E;
      [|apply read_str_of_int].
    apply Nat.ltb_lt in E. pose proof (read_str_of_int z) as R.
    destruct (str_of_int z) as [|c [|c' r]] eqn:Es.
    + now apply str_of_int_nonempty in Es.
    + apply one_char_below_100 in R. lia.
    + cbn [List.length] in E. lia.
Qed.

Lemma fmt_02d_width (z : Z) : 2 <= List.length (fmt_02d z).
Proof.
  unfold fmt_02d. cbv zeta.
  destruct (List.length (str_of_int z) <? 2) eqn:E.
  - pose proof (str_of_int_nonempty z) as H.
    destruct (str_of_int z); [congruence|].
    unfold lit. cbn [list_ascii_of_string app List.length]. lia.
  - apply Nat.ltb_ge in E. exact E.
Qed.

Lemma uint_no_colon (d : Decimal.uint) :
  ~ In ":"%char (lit (NilEmpty.string_of_uint d)).
Proof.
  unfold lit.
  induction d; cbn [NilEmpty.string_of_uint list_ascii_of_string In];
    [tauto| ..]; intros [H|H]; try discriminate H; auto.
Qed.

Lemma str_of_int_no_colon (z : Z) : ~ In ":"%char (str_of_int z).
Proof.
  unfold str_of_int, NilZero.string_of_int, NilZero.string_of_uint.
  destruct (Z.to_int z) as [d|d].
  - destruct d; try apply uint_no_colon.
    unfold lit. cbn. intros [H|[]]. discriminate H.
  - unfold lit. cbn [list_ascii_of_string In]. intros [H|H];
      [discriminate H|].
    revert H. destruct d; try apply uint_no_colon.
    cbn. intros [H|[]]. discriminate H.
Qed.

Lemma fmt_02d_no_colon (z : Z) : ~ In ":"%char (fmt_02d z).
Proof.
  unfold fmt_02d. cbv zeta. destruct (_ <? 2).
  - unfold lit. cbn [list_ascii_of_string app In]. intros [H|H];
      [discriminate H|]. now apply str_of_int_no_colon in H.
  - apply str_of_int_no_colon.
Qed.

Lemma split_on_colon_field (a : str) :
  ~ In ":"%char a -> PyStr.split_on (lit ":") 0 a = [a].
Proof.
  induction a as [|c a IH]; intros H; [reflexivity|].
  change (lit ":") with [":"%char] in *.
  cbn [PyStr.split_on PyStr.startswith].
  destruct (Ascii.eqb_spec ":" c) as [Hc|Hc];
    [exfalso; apply H; left; now symmetry|].
  cbn [andb]. rewrite IH; [reflexivity|].
  intros Hin. apply H. now right.
Qed.

Lemma split_on_colon_fields (a b : str) :
  ~ In ":"%char a ->
  PyStr.split_on (lit ":") 0 (a ++ lit ":" ++ b)
  = a :: PyStr.split_on (lit ":") 0 b.
Proof.
  change (lit ":") with [":"%char].
  induction a as [|c a IH]; intros H.
  - cbn [app PyStr.split_on PyStr.startswith List.length Nat.sub].
    now rewrite Ascii.eqb_refl.
  - cbn [app PyStr.split_on PyStr.startswith].
    destruct (Ascii.eqb_spec ":" c) as [Hc|Hc];
      [exfalso; apply H; left; now symmetry|].
    cbn [andb].
    change (a ++ ":"%char :: b) with (a ++ [":"%char] ++ b).
    rewrite IH; [reflexivity|].
    intros Hin. apply H. now right.
Qed.

Lemma clock_seconds_format (seconds : Z) :
  (0 <= seconds)%Z ->
  clock_seconds (format_timestamp seconds) = Some seconds.
Proof.
  intros Hs. unfold format_timestamp, clock_seconds. cbv zeta.
  assert (Hh : (0 <= seconds / 3600)%Z) by (apply Z.div_pos; lia).
  assert (Hm : (0 <= seconds mod 3600 / 60)%Z).
  { apply Z.div_pos; [|lia]. apply Z.mod_pos_bound. lia. }
  assert (Hc : (0 <= seconds mod 60)%Z) by (apply Z.mod_pos_bound; lia).
  destruct (0 <? seconds / 3600)%Z eqn:E.
  - rewrite !split_on_colon_fields by apply fmt_02d_no_colon.
    rewrite split_on_colon_field by apply fmt_02d_no_colon.
    cbn [map]. rewrite !read_fmt_02d by assumption.
    f_equal. clear E Hh Hm Hc.
    Z.to_euclidean_division_equations. lia.
  - rewrite split_on_colon_fields by apply fmt_02d_no_colon.
    rewrite split_on_colon_field by apply fmt_02d_no_colon.
    cbn [map]. rewrite !read_fmt_02d by assumption.
    f_equal. apply Z.ltb_ge in E. clear Hm Hc.
    Z.to_euclidean_division_equations. lia.
Qed.

(** X14.  A timestamp determines the position it was written for: read
    back field by field, the text of a position of zero or more seconds
    gives that number of seconds again, so two different positions never
    share a timestamp.  (Below zero this fails: one second before zero is
    written like 3599.) *)
Theorem timestamp_reads_back (seconds : Z) :
  (0 <= seconds)%Z ->
  clock_seconds (format_timestamp seconds) = Some seconds
  /\ (forall other : Z,
         (0 <= other)%Z ->
         format_timestamp other = format_timestamp seconds ->
         other = seconds)
  /\ format_timestamp (-1) = format_timestamp 3599.
Proof.
  intros Hs. split; [now apply clock_seconds_format|]. split.
  - intros other Ho E.
    pose proof (clock_seconds_format other Ho) as R. rewrite E in R.
    rewrite (clock_seconds_format seconds Hs) in R. congruence.
  - vm_compute. reflexivity.
Qed.

(** One hour, two minutes and five seconds. *)
Lemma timestamp_reads_back_witness :
  clock_seconds (format_timestamp 3725) = Some 3725%Z
  /\ (forall other : Z,
         (0 <= other)%Z ->
         format_timestamp other = format_timestamp 3725 ->
         other = 3725%Z)
  /\ format_timestamp (-1) = format_timestamp 3599.
Proof.
  apply (timestamp_reads_back 3725). lia.
Defined.

(** X15.  The timestamp of a position in the first hour is five
    characters long, MM:SS; from one hour on it has the hours in front
    and is at least eight characters long, exactly eight below one hundred
    hours. *)
Theorem timestamp_width (seconds : Z) :
  (0 <= seconds)%Z ->
  (if (seconds <? 3600)%Z
   then List.length (format_timestamp seconds) = 5
   else 8 <= List.length (format_timestamp seconds)
        /\ ((seconds <? 360000)%Z = true ->
            List.length (format_timestamp seconds) = 8))
  /\ nth_error (rev (format_timestamp seconds)) 2 = Some ":"%char.
Proof.
  intros Hs. unfold format_timestamp. cbv zeta.
  assert (Hm : (0 <= seconds mod 3600 / 60 < 100)%Z)
    by (Z.to_euclidean_division_equations; lia).
  assert (Hc : (0 <= seconds mod 60 < 100)%Z)
    by (Z.to_euclidean_division_equations; lia).
  destruct (fmt_02d_below_100 _ Hm) as [_ Lm].
  destruct (fmt_02d_below_100 _ Hc) as [_ Lc].
  assert (Hrev : forall pre : str,
             nth_error (rev (pre ++ lit ":" ++ fmt_02d (seconds mod 60))) 2
             = Some ":"%char).
  { intros pre. rewrite !rev_app_distr.
    destruct (fmt_02d (seconds mod 60)) as [|x [|y [|? ?]]];
      try discriminate Lc. reflexivity. }
  split.
  - destruct (seconds <? 3600)%Z eqn:E.
    + apply Z.ltb_lt in E.
      replace (0 <? seconds / 3600)%Z with false
        by (symmetry; apply Z.ltb_ge;
            Z.to_euclidean_division_equations; lia).
      rewrite !length_app, Lm, Lc. reflexivity.
    + apply Z.ltb_ge in E.
      replace (0 <? seconds / 3600)%Z with true
        by (symmetry; apply Z.ltb_lt;
            Z.to_euclidean_division_equations; lia).
      rewrite !length_app, Lm, Lc.
      pose proof (fmt_02d_width (seconds / 3600)) as W.
      change (List.length (lit ":")) with 1. split; [lia|].
      intros Hlt. apply Z.ltb_lt in Hlt.
      assert (Hh : (0 <= seconds / 3600 < 100)%Z)
        by (Z.to_euclidean_division_equations; lia).
      destruct (fmt_02d_below_100 _ Hh) as [_ Lh]. rewrite Lh.
      reflexivity.
  - destruct (0 <? seconds / 3600)%Z.
    + assert (E : forall a b c : str,
                 a ++ lit ":" ++ b ++ c = (a ++ lit ":" ++ b) ++ c)
        by (intros; now rewrite <- !app_assoc).
      rewrite E. apply Hrev.
    + apply Hrev.
Qed.

(** One hour, two minutes and five seconds is written with eight
    characters. *)
Lemma timestamp_width_witness :
  (8 <= List.length (format_timestamp 3725)
   /\ ((3725 <? 360000)%Z = true ->
       List.length (format_timestamp 3725) = 8))
  /\ nth_error (rev (format_timestamp 3725)) 2 = Some ":"%char.
Proof.
  apply (timestamp_width 3725). lia.
Defined.

(** * A note in parentheses after the title *)

Section Annotations.

Import PyStr.

Lemma lower_char_keeps (x c : ascii) :
  In x ["("; ")"; "["; "]"]%char -> lower_char c = x -> c = x.
Proof.
  intros Hx.
  assert (H : forallb
                (fun n =>
                   forallb
                     (fun x =>
                        negb (Ascii.eqb (lower_char (ascii_of_nat n)) x)
                        || Ascii.eqb (ascii_of_nat n) x)
                     ["("; ")"; "["; "]"]%char)
                (seq 0 256) = true) by (vm_compute; reflexivity).
  rewrite forallb_forall in H. specialize (H (nat_of_ascii c)).
  rewrite ascii_nat_embedding in H.
  assert (Hin : In (nat_of_ascii c) (seq 0 256)).
  { apply in_seq. pose proof (nat_ascii_bounded c). lia. }
  apply H in Hin. rewrite forallb_forall in Hin. specialize (Hin x Hx).
  intros E. rewrite E, Ascii.eqb_refl in Hin. cbn [negb orb] in Hin.
  now apply Ascii.eqb_eq.
Qed.

Lemma lower_keeps (x : ascii) (s : str) :
  In x ["("; ")"; "["; "]"]%char -> ~ In x s -> ~ In x (lower s).
Proof.
  intros Hx Hs H. unfold lower in H. apply in_map_iff in H as (c & E & Hc).
  apply (lower_char_keeps x c Hx) in E. subst. contradiction.
Qed.

Lemma blank_without (x : ascii) (W : str) :
  isspace x = false -> blank W -> ~ In x W.
Proof.
  intros Hx HW H. unfold blank in HW. rewrite Forall_forall in HW.
  apply HW in H. congruence.
Qed.

Lemma rstrip_rest (s : str) : exists W, blank W /\ s = rstrip s ++ W.
Proof.
  induction s as [|c r (W & HW & E)].
  - exists []. split; [constructor | reflexivity].
  - cbn [rstrip]. destruct (rstrip r) as [|x r'] eqn:Er.
    + destruct (isspace c) eqn:Ec.
      * exists (c :: W). split; [now constructor|].
        cbn [app] in *. now rewrite <- E.
      * exists W. split; [exact HW|]. cbn [app] in *. now rewrite <- E.
    + exists W. split; [exact HW|].
      change ((c :: x :: r') ++ W) with (c :: (x :: r') ++ W).
      now rewrite <- E.
Qed.

Lemma lstrip_before_note (s : str) (p : ascii) (Y : str) :
  isspace p = false ->
  exists W,
    blank W /\ lstrip (s ++ " "%char :: p :: Y) = strip s ++ W ++ p :: Y.
Proof.
  intros Hp. induction s as [|c r (W & HW & E)].
  - exists []. split; [constructor|].
    cbn [app lstrip]. change (isspace " ") with true. cbv iota.
    now rewrite Hp.
  - cbn [app lstrip]. unfold strip. cbn [lstrip].
    destruct (isspace c) eqn:Ec.
    + exists W. split; [exact HW | exact E].
    + destruct (rstrip_rest (c :: r)) as (W0 & HW0 & E0).
      exists (W0 ++ [" "%char]). split.
      * apply Forall_app. split; [exact HW0|]. now constructor.
      * replace (rstrip (c :: r) ++ (W0 ++ [" "%char]) ++ p :: Y)
          with ((rstrip (c :: r) ++ W0) ++ " "%char :: p :: Y)
          by (rewrite <- !app_assoc; reflexivity).
        rewrite <- E0. reflexivity.
Qed.

Lemma strip_before_note (s : str) (p x : ascii) (Y : str) :
  isspace p = false ->
  isspace x = false ->
  exists W,
    blank W
    /\ strip (s ++ " "%char :: p :: Y ++ [x]) = strip s ++ W ++ p :: Y ++ [x].
Proof.
  intros Hp Hx.
  destruct (lstrip_before_note s p (Y ++ [x]) Hp) as (W & HW & E).
  exists W. split; [exact HW|]. unfold strip at 1. rewrite E.
  replace (strip s ++ W ++ p :: Y ++ [x])
    with ((strip s ++ W ++ p :: Y) ++ [x])
    by (rewrite <- !app_assoc; reflexivity).
  now apply rstrip_end.
Qed.

Lemma sub_enclosed_prefix (op cl : ascii) (P Q : str) :
  ~ In op P ->
  Re.sub_enclosed op cl false (P ++ Q) = P ++ Re.sub_enclosed op cl false Q.
Proof.
  induction P as [|c P IH]; intros H; [reflexivity|].
  cbn [app Re.sub_enclosed].
  destruct (Ascii.eqb_spec c op) as [Hc|Hc];
    [exfalso; apply H; left; now symmetry|].
  cbn [andb]. rewrite IH; [reflexivity|].
  intros Hin. apply H. now right.
Qed.

Lemma sub_enclosed_inside (op cl : ascii) (n : str) :
  ~ In cl n -> Re.sub_enclosed op cl true (n ++ [cl]) = [].
Proof.
  induction n as [|c n IH]; intros H.
  - cbn [app Re.sub_enclosed]. now rewrite Ascii.eqb_refl.
  - cbn [app Re.sub_enclosed].
    destruct (Ascii.eqb_spec c cl) as [Hc|Hc];
      [exfalso; apply H; left; now symmetry|].
    apply IH. intros Hin. apply H. now right.
Qed.

Lemma sub_enclosed_note (op cl : ascii) (n : str) :
  ~ In cl n -> Re.sub_enclosed op cl false (op :: n ++ [cl]) = [].
Proof.
  intros H. cbn [Re.sub_enclosed]. rewrite Ascii.eqb_refl.
  rewrite existsb_app. cbn [existsb]. rewrite Ascii.eqb_refl.
  rewrite orb_true_r. cbn [andb orb]. now apply sub_enclosed_inside.
Qed.

Lemma existsb_without (x : ascii) (W : str) :
  ~ In x W -> existsb (Ascii.eqb x) W = false.
Proof.
  intros H. destruct (existsb (Ascii.eqb x) W) eqn:E; [|reflexivity].
  apply existsb_exists in E as (y & Hy & Ey). apply Ascii.eqb_eq in Ey.
  subst. contradiction.
Qed.

Lemma sub_enclosed_blank (op cl : ascii) (W : str) :
  ~ In op W -> ~ In cl W ->
  forall (s : str) (inside : bool),
    (inside = true -> existsb (Ascii.eqb cl) s = true) ->
    Re.sub_enclosed op cl inside (s ++ W)
    = Re.sub_enclosed op cl inside s ++ W.
Proof.
  intros Hop Hcl. induction s as [|c r IH]; intros inside Hin.
  - destruct inside; [now discriminate Hin|].
    cbn [app Re.sub_enclosed]. now apply sub_enclosed_none.
  - cbn [app Re.sub_enclosed]. destruct inside.
    + destruct (Ascii.eqb_spec c cl) as [Hc|Hc].
      * apply IH. discriminate.
      * apply IH. intros _. specialize (Hin eq_refl).
        cbn [existsb] in Hin.
        destruct (Ascii.eqb_spec cl c) as [Hc'|Hc'];
          [now elim Hc | exact Hin].
    + rewrite existsb_app, (existsb_without cl W Hcl), orb_false_r.
      destruct (Ascii.eqb c op && existsb (Ascii.eqb cl) r) eqn:E.
      * apply IH. intros _. now apply andb_true_iff in E.
      * cbn [app]. f_equal. apply IH. discriminate.
Qed.

Lemma remove_words_solid : forallb solid remove_words = true.
Proof. vm_compute. reflexivity. Qed.

Lemma startswith_length (w s : str) :
  startswith w s = true -> List.length w <= List.length s.
Proof.
  revert s. induction w as [|x w IH]; intros s H; cbn [List.length];
    [lia|].
  destruct s as [|y s]; [discriminate H|].
  cbn [startswith] in H. apply andb_true_iff in H as [_ H].
  apply IH in H. cbn [List.length]. lia.
Qed.

Lemma startswith_blank (w s W : str) :
  forallb (fun c => negb (isspace c)) w = true ->
  blank W ->
  startswith w (s ++ W) = startswith w s.
Proof.
  intros Hw HW. revert s. induction w as [|x w IH]; intros s;
    [reflexivity|].
  cbn [forallb] in Hw. apply andb_true_iff in Hw as [Hx Hw].
  destruct s as [|y s].
  - cbn [app startswith]. destruct W as [|z W]; [reflexivity|].
    cbn [startswith]. inversion HW as [|? ? Hz HW']; subst.
    destruct (Ascii.eqb_spec x z) as [E|E]; [|reflexivity].
    subst. rewrite Hz in Hx. discriminate Hx.
  - cbn [app startswith]. now rewrite (IH Hw).
Qed.

Lemma blank_not_word (W : str) :
  blank W -> Re.is_w (hd_error W) = false.
Proof.
  intros HW. destruct W as [|z W]; [reflexivity|].
  inversion HW as [|? ? Hz _]; subst. cbn [hd_error Re.is_w].
  destruct (isword z) eqn:E; [|reflexivity].
  apply word_not_space in E. congruence.
Qed.

Lemma match_word_blank (w : str) (prev : option ascii) (s W : str) :
  solid w = true -> blank W -> s <> [] ->
  Re.match_word w prev (s ++ W) = Re.match_word w prev s.
Proof.
  intros Hw HW Hs. unfold solid in Hw. apply andb_true_iff in Hw as [_ Hw].
  unfold Re.match_word. rewrite (startswith_blank w s W Hw HW).
  destruct (startswith w s) eqn:E; [|reflexivity].
  cbn [andb]. f_equal.
  - destruct s; [congruence | reflexivity].
  - apply startswith_length in E. unfold Re.word_boundary. f_equal.
    destruct (Nat.eq_dec (List.length w) (List.length s)) as [El|El].
    + rewrite El, skipn_all. rewrite skipn_app, skipn_all, Nat.sub_diag.
      cbn [app skipn hd_error Re.is_w]. now apply blank_not_word.
    + rewrite skipn_app.
      replace (List.length w - List.length s) with 0 by lia.
      cbn [skipn].
      destruct (skipn (List.length w) s) eqn:Ek; [|reflexivity].
      exfalso. apply (f_equal (@List.length ascii)) in Ek.
      rewrite length_skipn in Ek. cbn [List.length] in Ek. lia.
Qed.

Lemma sub_word_only_blank (w : str) (W : str) :
  solid w = true -> blank W ->
  forall prev, Re.sub_word w prev 0 W = W.
Proof.
  intros Hw HW. unfold solid in Hw. apply andb_true_iff in Hw as [Hn Hw].
  induction HW as [|z W Hz HW IH]; intros prev; [reflexivity|].
  cbn [Re.sub_word]. unfold Re.match_word.
  destruct w as [|x w]; [discriminate Hn|].
  cbn [startswith]. cbn [forallb] in Hw.
  apply andb_true_iff in Hw as [Hx _].
  destruct (Ascii.eqb_spec x z) as [E|E];
    [subst; rewrite Hz in Hx; discriminate Hx|].
  cbn [andb]. now rewrite IH.
Qed.

Lemma sub_word_blank (w : str) (W : str) :
  solid w = true -> blank W ->
  forall (s : str) (prev : option ascii) (skip : nat),
    skip <= List.length s ->
    Re.sub_word w prev skip (s ++ W) = Re.sub_word w prev skip s ++ W.
Proof.
  intros Hw HW. induction s as [|c r IH]; intros prev skip Hk.
  - cbn [List.length] in Hk. replace skip with 0 by lia.
    cbn [app Re.sub_word]. now apply sub_word_only_blank.
  - change ((c :: r) ++ W) with (c :: (r ++ W)).
    cbn [Re.sub_word]. destruct skip as [|k].
    + change (c :: (r ++ W)) with ((c :: r) ++ W).
      rewrite (match_word_blank w prev (c :: r) W Hw HW) by discriminate.
      destruct (Re.match_word w prev (c :: r)) eqn:E.
      * apply IH. unfold Re.match_word in E.
        apply andb_true_iff in E as [E _].
        apply andb_true_iff in E as [E _].
        apply startswith_length in E. cbn [List.length] in E. lia.
      * cbn [app]. f_equal. apply IH. lia.
    + apply IH. cbn [List.length] in Hk. lia.
Qed.

Lemma strip_noise_blank (s W : str) :
  blank W -> strip_noise (s ++ W) = strip_noise s ++ W.
Proof.
  intros HW. unfold strip_noise. pose proof remove_words_solid as H.
  revert s H. generalize remove_words.
  induction l as [|w l IH]; intros s H; [reflexivity|].
  cbn [forallb] in H. apply andb_true_iff in H as [Hw Hl].
  cbn [fold_left]. rewrite (sub_word_blank w W Hw HW) by lia.
  now apply IH.
Qed.

Lemma sub_nonword_blank (s W : str) :
  blank W -> Re.sub_nonword (s ++ W) = Re.sub_nonword s ++ W.
Proof.
  intros HW. unfold Re.sub_nonword. rewrite filter_app. f_equal.
  induction HW as [|z W Hz HW IH]; [reflexivity|].
  cbn [filter]. rewrite Hz, orb_true_r. now rewrite IH.
Qed.

Lemma split_only_blank (W : str) : blank W -> split W = [].
Proof.
  induction 1 as [|z W Hz HW IH]; [reflexivity|].
  cbn [split]. now rewrite Hz.
Qed.

Lemma split_blank (s W : str) : blank W -> split (s ++ W) = split s.
Proof.
  intros HW. induction s as [|c r IH].
  - now apply split_only_blank.
  - change ((c :: r) ++ W) with (c :: (r ++ W)). cbn [split].
    destruct (isspace c); [exact IH|].
    destruct r as [|c' r'].
    + cbn [app]. destruct W as [|z W']; [reflexivity|].
      inversion HW as [|? ? Hz HW']; subst. rewrite Hz.
      change (split (z :: W')) with (split ([] ++ z :: W')).
      now rewrite IH.
    + cbn [app] in *. cbv iota.
      destruct (isspace c'); now rewrite IH.
Qed.

Lemma squeeze_blank (s W : str) : blank W -> squeeze (s ++ W) = squeeze s.
Proof.
  intros HW. unfold squeeze.
  now rewrite (sub_nonword_blank s W HW), split_blank.
Qed.

Lemma norm_title_note (title note : str) :
  ~ In "("%char title ->
  ~ In ")"%char note ->
  norm_title (title ++ lit " (" ++ note ++ lit ")") = norm_title title.
Proof.
  intros Ht Hn. unfold norm_title.
  assert (El : lower (title ++ lit " (" ++ note ++ lit ")")
               = lower title ++ " "%char :: "("%char :: lower note
                                ++ [")"%char]).
  { unfold lower, lit. rewrite !map_app. reflexivity. }
  rewrite El.
  destruct (strip_before_note (lower title) "(" ")" (lower note)
              eq_refl eq_refl) as (W & HW & E).
  rewrite E. clear E El.
  assert (Hs : ~ In "("%char (strip (lower title))).
  { intros H. apply strip_incl in H. revert H.
    apply lower_keeps; [cbn; tauto | exact Ht]. }
  assert (HW' : ~ In "("%char W) by now apply blank_without.
  rewrite (sub_enclosed_prefix "(" ")" (strip (lower title)) _ Hs).
  rewrite (sub_enclosed_prefix "(" ")" W _ HW').
  rewrite (sub_enclosed_note "(" ")" (lower note))
    by (apply lower_keeps; [cbn; tauto | exact Hn]).
  rewrite app_nil_r. rewrite (sub_enclosed_none "(" ")" _ Hs).
  rewrite sub_enclosed_blank;
    [| now apply blank_without | now apply blank_without | discriminate].
  rewrite strip_noise_blank by exact HW.
  now apply squeeze_blank.
Qed.

End Annotations.

(** X16.  A note in parentheses after the title does not change the
    comparison key: for a non-empty title without an opening parenthesis
    and a note without a closing one, the title followed by a blank and
    the note in parentheses is normalised to the key of the title alone,
    and with a non-empty artist the two are judged the same song. *)
Theorem note_in_parentheses_is_ignored (artist title note : str) :
  title <> [] ->
  ~ In "("%char title ->
  ~ In ")"%char note ->
  normalize_track_name (PStr artist)
    (PStr (title ++ lit " (" ++ note ++ lit ")"))
  = normalize_track_name (PStr artist) (PStr title)
  /\ (artist <> [] ->
      tracks_are_similar (PStr artist) (PStr title) (PStr artist)
        (PStr (title ++ lit " (" ++ note ++ lit ")"))
      = Ok true).
Proof.
  intros Hne Ht Hn.
  assert (Hne' : title ++ lit " (" ++ note ++ lit ")" <> [])
    by (destruct title; [congruence | discriminate]).
  assert (E : forall a : str,
             a <> [] ->
             normalize_track_name (PStr a)
               (PStr (title ++ lit " (" ++ note ++ lit ")"))
             = normalize_track_name (PStr a) (PStr title)).
  { intros a Ha.
    rewrite !normalize_track_name_text by assumption.
    rewrite !normalize_text_parts.
    now rewrite (norm_title_note title note Ht Hn). }
  split.
  - destruct artist as [|c artist]; [reflexivity|].
    apply E. discriminate.
  - intros Ha. unfold tracks_are_similar. rewrite (E artist Ha).
    exact (tracks_are_similar_refl artist title Ha Hne).
Qed.

(** A live recording of a song. *)
Lemma note_in_parentheses_is_ignored_witness :
  normalize_track_name (PStr (lit "Orbital"))
    (PStr (lit "Halcyon" ++ lit " (" ++ lit "Live at Glastonbury"
             ++ lit ")"))
  = normalize_track_name (PStr (lit "Orbital")) (PStr (lit "Halcyon"))
  /\ (lit "Orbital" <> [] ->
      tracks_are_similar (PStr (lit "Orbital")) (PStr (lit "Halcyon"))
        (PStr (lit "Orbital"))
        (PStr (lit "Halcyon" ++ lit " (" ++ lit "Live at Glastonbury"
                 ++ lit ")"))
      = Ok true).
Proof.
  apply (note_in_parentheses_is_ignored (lit "Orbital") (lit "Halcyon")
           (lit "Live at Glastonbury")).
  - discriminate.
  - vm_compute. intuition discriminate.
  - vm_compute. intuition discriminate.
Defined.

(** * The endpoints *)

Lemma jobs_get_set (jobs : jobs_t) (job_id : str) (j : Job.t) :
  jobs_get (jobs_set jobs job_id j) job_id = Some j.
Proof.
  induction jobs as [|[k j'] rest IH]; cbn [jobs_set jobs_get].
  - now rewrite eqb_refl.
  - destruct (PyStr.eqb k job_id) eqn:E; cbn [jobs_get]; now rewrite E.
Qed.

Lemma jobs_get_set_other (jobs : jobs_t) (job_id other : str) (j : Job.t) :
  other <> job_id ->
  jobs_get (jobs_set jobs job_id j) other = jobs_get jobs other.
Proof.
  intros Hne. induction jobs as [|[k j'] rest IH]; cbn [jobs_set jobs_get].
  - destruct (PyStr.eqb job_id other) eqn:E; [|reflexivity].
    apply eqb_eq in E. congruence.
  - destruct (PyStr.eqb k job_id) eqn:E; cbn [jobs_get].
    + apply eqb_eq in E. subst k.
      destruct (PyStr.eqb job_id other) eqn:E'; [|reflexivity].
      apply eqb_eq in E'. congruence.
    + now rewrite IH.
Qed.

Lemma process_set_final (w : world) (url : str) (segment_duration : Z) :
  Job.url (process_set w url segment_duration) = url
  /\ (Job.status (process_set w url segment_duration) = lit "completed"
      \/ Job.status (process_set w url segment_duration) = lit "error").
Proof.
  unfold process_set.
  destruct (download_audio w); [|now auto].
  destruct (audio_file_exists w); simpl negb; cbv iota; [|now auto].
  destruct (from_mp3 w); [|now auto].
  destruct (segment_duration =? 0)%Z; [now auto|].
  destruct (scan _ _ _ _ _ _) as ((st & position) & [e|]); now auto.
Qed.

Lemma stride_or_30_nonzero (segment_duration : option Z) :
  stride_or_30 segment_duration <> 0%Z.
Proof.
  destruct segment_duration as [z|]; cbn [stride_or_30]; [|discriminate].
  destruct (z =? 0)%Z eqn:E; [discriminate|]. now apply Z.eqb_neq.
Qed.

(** X17.  A job that [identify_set] has accepted can be followed with
    [get_status] under the identifier of the response: right after the
    request it is the queued record with the cleaned address, and once the
    background task has returned it is a record with that address whose
    status is [completed] or [error].  The stride of the task is never 0,
    and the records of all other identifiers stay as they were. *)
Theorem accepted_job_can_be_followed
    (clean_youtube_url : str -> res str) (w : world) (jobs jobs' : jobs_t)
    (request : SetRequest.t) (job_id reply : str) (t : task) :
  identify_set clean_youtube_url jobs request job_id
  = Ok (jobs', t, reply) ->
  reply = job_id
  /\ clean_youtube_url (SetRequest.url request) = Ok (task_url t)
  /\ task_segment_duration t <> 0%Z
  /\ get_status jobs' reply = Returned (queued_job (task_url t))
  /\ (exists j,
         get_status (finished w jobs' t) reply = Returned j
         /\ Job.url j = task_url t
         /\ (Job.status j = lit "completed" \/ Job.status j = lit "error"))
  /\ (forall other : str,
         other <> job_id ->
         get_status jobs' other = get_status jobs other
         /\ get_status (finished w jobs' t) other = get_status jobs other).
Proof.
  unfold identify_set. intros H.
  destruct (clean_youtube_url (SetRequest.url request)) as [clean_url|e]
    eqn:Ec; cbn [bind] in H; [|discriminate H].
  inversion H; subst; clear H. cbn [task_url task_segment_duration].
  split; [reflexivity|]. split; [reflexivity|].
  split; [apply stride_or_30_nonzero|].
  unfold get_status, finished. cbn [task_job_id task_url
                                      task_segment_duration].
  split; [now rewrite jobs_get_set|]. split.
  - rewrite jobs_get_set. eexists. split; [reflexivity|].
    apply process_set_final.
  - intros other Hne. now rewrite !jobs_get_set_other.
Qed.

(** A request for a set on another site, with the stride left at 0, while
    one job is already in the store. *)
Lemma accepted_job_can_be_followed_witness :
  lit "b" = lit "b"
  /\ Ok (lit "https://soundcloud.com/dj/set")
     = Ok (task_url
             {| task_job_id := lit "b";
                task_url := lit "https://soundcloud.com/dj/set";
                task_segment_duration := 30 |})
  /\ 30%Z <> 0%Z
  /\ get_status
       [(lit "a", queued_job (lit "u"));
        (lit "b", queued_job (lit "https://soundcloud.com/dj/set"))]
       (lit "b")
     = Returned (queued_job (lit "https://soundcloud.com/dj/set"))
  /\ (exists j,
         get_status
           (finished (sample_world 60000 (always (http_ok no_match)))
              [(lit "a", queued_job (lit "u"));
               (lit "b", queued_job (lit "https://soundcloud.com/dj/set"))]
              {| task_job_id := lit "b";
                 task_url := lit "https://soundcloud.com/dj/set";
                 task_segment_duration := 30 |})
           (lit "b")
         = Returned j
         /\ Job.url j = lit "https://soundcloud.com/dj/set"
         /\ (Job.status j = lit "completed" \/ Job.status j = lit "error"))
  /\ (forall other : str,
         other <> lit "b" ->
         get_status
           [(lit "a", queued_job (lit "u"));
            (lit "b", queued_job (lit "https://soundcloud.com/dj/set"))]
           other
         = get_status [(lit "a", queued_job (lit "u"))] other
         /\ get_status
              (finished (sample_world 60000 (always (http_ok no_match)))
                 [(lit "a", queued_job (lit "u"));
                  (lit "b",
                   queued_job (lit "https://soundcloud.com/dj/set"))]
                 {| task_job_id := lit "b";
                    task_url := lit "https://soundcloud.com/dj/set";
                    task_segment_duration := 30 |})
              other
            = get_status [(lit "a", queued_job (lit "u"))] other).
Proof.
  apply (accepted_job_can_be_followed (fun url => Ok url)
           (sample_world 60000 (always (http_ok no_match)))
           [(lit "a", queued_job (lit "u"))]
           [(lit "a", queued_job (lit "u"));
            (lit "b", queued_job (lit "https://soundcloud.com/dj/set"))]
           {| SetRequest.url := lit "https://soundcloud.com/dj/set";
              SetRequest.segment_duration := Some 0%Z |}
           (lit "b") (lit "b")
           {| task_job_id := lit "b";
              task_url := lit "https://soundcloud.com/dj/set";
              task_segment_duration := 30 |}).
  reflexivity.
Defined.
